(** * MirBFT core: sequence state machine, per-peer admitter, epoch-change
      constructor and EpochChange hashing.

    A shallow embedding of [nodemsgs.go], the stateless helpers
    ([intersectionQuorum], [constructNewEpochConfig], [epochChangeHashData])
    and the [sequence] state machine, followed by the properties stated
    about them.

    Conventions.
    - [uint64] values are [N]; every addition the source performs on them is
      written with its wrap-around ([wrap64]).  Go [int] values are [Z].
    - A Go [[]byte] is [option string]: [None] is the nil slice, the
      characters of the string are the bytes.  [string(b)] is [bytes_string],
      [bytes.Equal] is [bytes_Equal].
    - A Go map that is only looked up and updated is a [gmap]; a [range]
      over a map visits the entries in an order the language leaves open,
      so the loops whose result can depend on the order take the visiting
      order as an argument.
    - A panic is the [Panic] outcome of [result]. *)

From Stdlib Require Import ZArith NArith Lia String Ascii List Permutation.
From stdpp Require Import gmap strings list fin_maps fin_sets.

Open Scope string_scope.
Open Scope list_scope.
Open Scope N_scope.

(** ** Outcomes and machine integers *)

Inductive result (A : Type) : Type :=
| Ok (a : A)
| Panic (msg : string).
Arguments Ok {A} a.
Arguments Panic {A} msg.

Definition bind {A B : Type} (r : result A) (k : A -> result B) : result B :=
  match r with
  | Ok a => k a
  | Panic e => Panic e
  end.

Notation "'let*' x ':=' r 'in' k" := (bind r (fun x => k))
  (at level 10, x name, r at level 100, k at level 200).

Definition wrap64 (x : N) : N := x mod 2 ^ 64.

(** [a - b] on [uint64] values. *)
Definition sub64 (a b : N) : N := wrap64 (a + 2 ^ 64 - b).

(** Go's conversion of an [int32] product back into the [int32] range. *)
Definition wrap_int32 (x : Z) : Z := ((x + 2 ^ 31) mod 2 ^ 32 - 2 ^ 31)%Z.

Abbreviation bytes := (option string).

Definition bytes_string (b : bytes) : string := default "" b.

Definition bytes_Equal (a b : bytes) : bool :=
  bool_decide (bytes_string a = bytes_string b).

(** ** Protocol messages (package [mirbftpb]) *)

Module RequestAck.
Record t : Type := mk { ClientId : bytes; ReqNo : N; Digest : bytes }.
End RequestAck.

Module Preprepare.
Record t : Type :=
  mk { SeqNo : N; Epoch : N; Bucket : N; Batch : list RequestAck.t }.
End Preprepare.

Module Prepare.
Record t : Type := mk { SeqNo : N; Epoch : N; Bucket : N; Digest : bytes }.
End Prepare.

Module Commit.
Record t : Type := mk { SeqNo : N; Epoch : N; Bucket : N; Digest : bytes }.
End Commit.

Module Suspect.
Record t : Type := mk { Epoch : N }.
End Suspect.

Module Checkpoint.
Record t : Type := mk { SeqNo : N; Value : bytes }.
End Checkpoint.

Module Forward.
Record t : Type := mk { Epoch : N; RequestAck : RequestAck.t }.
End Forward.

Module SetEntry.
Record t : Type := mk { Epoch : N; SeqNo : N; Digest : bytes }.
End SetEntry.

Module EpochChange.
Record t : Type :=
  mk { NewEpoch : N;
       Checkpoints : list Checkpoint.t;
       PSet : list SetEntry.t;
       QSet : list SetEntry.t }.
End EpochChange.

Module EpochConfig.
Record t : Type :=
  mk { Number : N; Leaders : list N; PlannedExpiration : N }.
End EpochConfig.

Module NewEpochConfig.
Record t : Type :=
  mk { Config : EpochConfig.t;
       StartingCheckpoint : Checkpoint.t;
       FinalPreprepares : list bytes }.
End NewEpochConfig.

(** The oneof wrapper of [pb.Msg].  [Msg_None] stands for every value of the
    [Type] interface that is none of the eight generated wrappers: the unset
    (nil) oneof of a message that carries no payload, or a foreign wrapper. *)
Inductive Msg : Type :=
| Msg_Preprepare (m : Preprepare.t)
| Msg_Prepare (m : Prepare.t)
| Msg_Commit (m : Commit.t)
| Msg_Suspect (m : Suspect.t)
| Msg_Checkpoint (m : Checkpoint.t)
| Msg_Forward (m : Forward.t)
| Msg_EpochChange (m : EpochChange.t)
| Msg_NewEpoch (m : NewEpochConfig.t)
| Msg_None.

Module NetworkConfig.
(** [pb.NetworkState_Config]; [F], [CheckpointInterval] and
    [NumberOfBuckets] are [int32] fields, [MaxEpochLength] is [uint64]. *)
Record t : Type :=
  mk { Nodes : list N;
       F : Z;
       CheckpointInterval : Z;
       MaxEpochLength : N;
       NumberOfBuckets : Z }.
End NetworkConfig.

Module QEntry.
Record t : Type :=
  mk { SeqNo : N; Digest : bytes; Requests : list RequestAck.t }.
End QEntry.

Module PEntry.
Record t : Type := mk { SeqNo : N; Digest : bytes }.
End PEntry.

(** ** Quorum arithmetic *)

(** [len(nc.Nodes)] is below [2^61] for a slice that fits in memory and [F]
    is an [int32], so the [int] sum cannot wrap; [/] truncates. *)
Definition intersectionQuorum (nc : NetworkConfig.t) : Z :=
  ((Z.of_nat (length (NetworkConfig.Nodes nc)) + NetworkConfig.F nc + 2) ÷ 2)%Z.

Definition someCorrectQuorum (nc : NetworkConfig.t) : Z :=
  (NetworkConfig.F nc + 1)%Z.

Definition logWidth (nc : NetworkConfig.t) : Z :=
  (3 * NetworkConfig.CheckpointInterval nc)%Z.

Definition initialSequence (ec : EpochConfig.t) (nc : NetworkConfig.t) : N :=
  if NetworkConfig.MaxEpochLength nc <? EpochConfig.PlannedExpiration ec
  then wrap64 (EpochConfig.PlannedExpiration ec
               - NetworkConfig.MaxEpochLength nc + 1)
  else 1.

(** ** The sequence state machine *)

Module Sequence.

Inductive sequenceState : Type :=
| sequenceUninitialized
| sequenceAllocated
| sequencePendingRequests
| sequenceReady
| sequencePreprepared
| sequencePrepared
| sequenceCommitted.

#[global] Instance sequenceState_eq_dec : EqDecision sequenceState.
Proof. solve_decision. Defined.

(** The [iota] value of a state. *)
Definition rank (st : sequenceState) : nat :=
  match st with
  | sequenceUninitialized => 0
  | sequenceAllocated => 1
  | sequencePendingRequests => 2
  | sequenceReady => 3
  | sequencePreprepared => 4
  | sequencePrepared => 5
  | sequenceCommitted => 6
  end.

Record HashRequest : Type :=
  mkHashRequest
    { Data : list bytes;
      Origin_Source : N;
      Origin_SeqNo : N;
      Origin_Epoch : N;
      Origin_RequestAcks : list RequestAck.t }.

Inductive PersistEntry : Type :=
| PersistQ (qe : QEntry.t)
| PersistP (pe : PEntry.t).

(** Modelled from the spec: the [Actions] collector is declared outside the
    sources at hand.  It is an append-only collector with [send],
    [forward_request], a [Hash] list and the persist entries that are
    enqueued alongside the sends; [concat] is list append. *)
Inductive Action : Type :=
| ActSend (targets : list N) (m : Msg)
| ActForward (targets : list N) (ack : RequestAck.t)
| ActHash (h : HashRequest)
| ActPersist (e : PersistEntry).

Definition Actions : Type := list Action.

Definition concat (a b : Actions) : Actions := a ++ b.
Definition send (a : Actions) (targets : list N) (m : Msg) : Actions :=
  a ++ [ActSend targets m].
Definition forwardRequest (a : Actions) (targets : list N)
           (ack : RequestAck.t) : Actions :=
  a ++ [ActForward targets ack].

(** Modelled from the spec: the persister is declared outside the sources
    at hand.  [add_q_entry] and [add_p_entry] record the entry in the log
    and return the actions that make it durable. *)
Definition persisted : Type := list PersistEntry.

Definition addQEntry (p : persisted) (qe : QEntry.t) : persisted * Actions :=
  (p ++ [PersistQ qe], [ActPersist (PersistQ qe)]).

Definition addPEntry (p : persisted) (pe : PEntry.t) : persisted * Actions :=
  (p ++ [PersistP pe], [ActPersist (PersistP pe)]).

Record sequence : Type :=
  mkSequence
    { owner : N;
      seqNo : N;
      epoch : N;
      myConfig_Id : N;
      networkConfig : NetworkConfig.t;
      state : sequenceState;
      persistedLog : persisted;
      qEntry : option QEntry.t;
      batch : list RequestAck.t;
      outstandingReqs : gset string;
      digest : bytes;
      prepares : gmap string (gset N);
      commits : gmap string (gset N) }.

Definition newSequence (owner epoch seqNo : N) (p : persisted)
           (nc : NetworkConfig.t) (myId : N) : sequence :=
  {| owner := owner; seqNo := seqNo; epoch := epoch; myConfig_Id := myId;
     networkConfig := nc; state := sequenceUninitialized;
     persistedLog := p; qEntry := None; batch := []; outstandingReqs := ∅;
     digest := None; prepares := ∅; commits := ∅ |}.

(** Field assignments. *)
Definition set_state (st : sequenceState) (s : sequence) : sequence :=
  {| owner := owner s; seqNo := seqNo s; epoch := epoch s;
     myConfig_Id := myConfig_Id s; networkConfig := networkConfig s;
     state := st; persistedLog := persistedLog s; qEntry := qEntry s;
     batch := batch s; outstandingReqs := outstandingReqs s;
     digest := digest s; prepares := prepares s; commits := commits s |}.

Definition set_persisted (p : persisted) (s : sequence) : sequence :=
  {| owner := owner s; seqNo := seqNo s; epoch := epoch s;
     myConfig_Id := myConfig_Id s; networkConfig := networkConfig s;
     state := state s; persistedLog := p; qEntry := qEntry s;
     batch := batch s; outstandingReqs := outstandingReqs s;
     digest := digest s; prepares := prepares s; commits := commits s |}.

Definition set_qEntry (q : option QEntry.t) (s : sequence) : sequence :=
  {| owner := owner s; seqNo := seqNo s; epoch := epoch s;
     myConfig_Id := myConfig_Id s; networkConfig := networkConfig s;
     state := state s; persistedLog := persistedLog s; qEntry := q;
     batch := batch s; outstandingReqs := outstandingReqs s;
     digest := digest s; prepares := prepares s; commits := commits s |}.

Definition set_batch (b : list RequestAck.t) (s : sequence) : sequence :=
  {| owner := owner s; seqNo := seqNo s; epoch := epoch s;
     myConfig_Id := myConfig_Id s; networkConfig := networkConfig s;
     state := state s; persistedLog := persistedLog s; qEntry := qEntry s;
     batch := b; outstandingReqs := outstandingReqs s;
     digest := digest s; prepares := prepares s; commits := commits s |}.

Definition set_outstandingReqs (o : gset string) (s : sequence) : sequence :=
  {| owner := owner s; seqNo := seqNo s; epoch := epoch s;
     myConfig_Id := myConfig_Id s; networkConfig := networkConfig s;
     state := state s; persistedLog := persistedLog s; qEntry := qEntry s;
     batch := batch s; outstandingReqs := o;
     digest := digest s; prepares := prepares s; commits := commits s |}.

Definition set_digest (d : bytes) (s : sequence) : sequence :=
  {| owner := owner s; seqNo := seqNo s; epoch := epoch s;
     myConfig_Id := myConfig_Id s; networkConfig := networkConfig s;
     state := state s; persistedLog := persistedLog s; qEntry := qEntry s;
     batch := batch s; outstandingReqs := outstandingReqs s;
     digest := d; prepares := prepares s; commits := commits s |}.

Definition set_prepares (p : gmap string (gset N)) (s : sequence) : sequence :=
  {| owner := owner s; seqNo := seqNo s; epoch := epoch s;
     myConfig_Id := myConfig_Id s; networkConfig := networkConfig s;
     state := state s; persistedLog := persistedLog s; qEntry := qEntry s;
     batch := batch s; outstandingReqs := outstandingReqs s;
     digest := digest s; prepares := p; commits := commits s |}.

Definition set_commits (c : gmap string (gset N)) (s : sequence) : sequence :=
  {| owner := owner s; seqNo := seqNo s; epoch := epoch s;
     myConfig_Id := myConfig_Id s; networkConfig := networkConfig s;
     state := state s; persistedLog := persistedLog s; qEntry := qEntry s;
     batch := batch s; outstandingReqs := outstandingReqs s;
     digest := digest s; prepares := prepares s; commits := c |}.

(** [m[string(d)]] on a tally map: an absent key reads as the nil map,
    which has no members and length 0. *)
Definition tally (m : gmap string (gset N)) (d : bytes) : gset N :=
  default ∅ (m !! bytes_string d).

Definition checkRequests (s : sequence) : sequence :=
  if decide (0 < size (outstandingReqs s))%nat then s
  else set_state sequenceReady s.

Definition prepare (s : sequence) : sequence * Actions :=
  let qe := QEntry.mk (seqNo s) (digest s) (batch s) in
  let s := set_qEntry (Some qe) s in
  let s := set_state sequencePreprepared s in
  let nodes := NetworkConfig.Nodes (networkConfig s) in
  let actions :=
    if decide (owner s = myConfig_Id s) then
      send (fold_left (fun a fr => forwardRequest a nodes fr) (batch s) [])
           nodes
           (Msg_Preprepare (Preprepare.mk (seqNo s) (epoch s) 0 (batch s)))
    else
      send [] nodes
           (Msg_Prepare (Prepare.mk (seqNo s) (epoch s) 0 (digest s))) in
  let '(p, pa) := addQEntry (persistedLog s) qe in
  (set_persisted p s, concat actions pa).

Definition checkPrepareQuorum (s : sequence) : sequence * Actions :=
  let agreements := tally (prepares s) (digest s) in
  if negb (bool_decide (myConfig_Id s ∈ agreements)) then (s, [])
  else
    let requiredPrepares := intersectionQuorum (networkConfig s) in
    if (Z.of_nat (size agreements) <? requiredPrepares)%Z then (s, [])
    else
      let s := set_state sequencePrepared s in
      let pEntry := PEntry.mk (seqNo s) (digest s) in
      let actions :=
        send [] (NetworkConfig.Nodes (networkConfig s))
             (Msg_Commit (Commit.mk (seqNo s) (epoch s) 0 (digest s))) in
      let '(p, pa) := addPEntry (persistedLog s) pEntry in
      (set_persisted p s, concat actions pa).

Definition checkCommitQuorum (s : sequence) : sequence :=
  let agreements := tally (commits s) (digest s) in
  if negb (bool_decide (myConfig_Id s ∈ agreements)) then s
  else
    let requiredCommits := intersectionQuorum (networkConfig s) in
    if (Z.of_nat (size agreements) <? requiredCommits)%Z then s
    else set_state sequenceCommitted s.

(** One pass through the body of the loop of [advanceState]. *)
Definition advanceState_body (s : sequence) : sequence * Actions :=
  match state s with
  | sequenceUninitialized => (s, [])
  | sequenceAllocated => (s, [])
  | sequencePendingRequests => (checkRequests s, [])
  | sequenceReady =>
      if bool_decide (digest s ≠ None) || bool_decide (length (batch s) = 0%nat)
      then prepare s else (s, [])
  | sequencePreprepared => checkPrepareQuorum s
  | sequencePrepared => (checkCommitQuorum s, [])
  | sequenceCommitted => (s, [])
  end.

(** The loop runs until a pass leaves the state unchanged.  Every pass that
    changes the state raises its rank, so seven passes always suffice
    ([advanceState_loop_fuel] below). *)
Fixpoint advanceState_loop (fuel : nat) (s : sequence) (actions : Actions)
  : sequence * Actions :=
  match fuel with
  | O => (s, actions)
  | S fuel' =>
      let oldState := state s in
      let '(s', a) := advanceState_body s in
      let actions' := concat actions a in
      if decide (state s' = oldState) then (s', actions')
      else advanceState_loop fuel' s' actions'
  end.

Definition advanceState (s : sequence) : sequence * Actions :=
  advanceState_loop 7 s [].

Definition applyPrepareMsg (s : sequence) (source : N) (d : bytes)
  : sequence * Actions :=
  let agreements := tally (prepares s) d in
  let agreements := {[source]} ∪ agreements in
  let s := set_prepares (<[bytes_string d := agreements]> (prepares s)) s in
  advanceState s.

Definition applyCommitMsg (s : sequence) (source : N) (d : bytes)
  : sequence * Actions :=
  let agreements := tally (commits s) d in
  let agreements := {[source]} ∪ agreements in
  let s := set_commits (<[bytes_string d := agreements]> (commits s)) s in
  advanceState s.

Definition applyBatchHashResult (s : sequence) (d : bytes)
  : sequence * Actions :=
  let s := set_digest d s in
  applyPrepareMsg s (owner s) d.

Definition allocate (s : sequence) (requestAcks : list RequestAck.t)
           (outstanding : gset string) : result (sequence * Actions) :=
  if negb (bool_decide (state s = sequenceUninitialized))
  then Panic "illegal state for allocate"
  else
    let s := set_state sequenceAllocated s in
    let s := set_batch requestAcks s in
    let s := set_outstandingReqs outstanding s in
    if bool_decide (length requestAcks = 0%nat) then
      let s := set_state sequenceReady s in
      Ok (applyBatchHashResult s None)
    else
      let data := map RequestAck.Digest requestAcks in
      let actions :=
        [ActHash (mkHashRequest data (owner s) (seqNo s) (epoch s)
                                requestAcks)] in
      let s := set_state sequencePendingRequests s in
      let '(s', a) := advanceState s in
      Ok (s', concat actions a).

(** [clientRequest] is declared elsewhere; only its [ack] is read. *)
Definition allocateAsOwner (s : sequence) (clientRequests : list RequestAck.t)
  : result (sequence * Actions) :=
  allocate s clientRequests ∅.

Definition satisfyOutstanding (s : sequence) (fr : RequestAck.t)
  : result (sequence * Actions) :=
  let key := bytes_string (RequestAck.Digest fr) in
  if negb (bool_decide (key ∈ outstandingReqs s))
  then Panic "dev sanity check"
  else
    let s := set_outstandingReqs (outstandingReqs s ∖ {[key]}) s in
    Ok (advanceState s).

(** The calls the rest of the library makes on a sequence. *)
Inductive call : Type :=
| CallAdvanceState
| CallAllocate (requestAcks : list RequestAck.t) (outstanding : gset string)
| CallAllocateAsOwner (clientRequests : list RequestAck.t)
| CallSatisfyOutstanding (fr : RequestAck.t)
| CallApplyBatchHashResult (d : bytes)
| CallApplyPrepareMsg (source : N) (d : bytes)
| CallApplyCommitMsg (source : N) (d : bytes).

Definition run (c : call) (s : sequence) : result (sequence * Actions) :=
  match c with
  | CallAdvanceState => Ok (advanceState s)
  | CallAllocate acks o => allocate s acks o
  | CallAllocateAsOwner reqs => allocateAsOwner s reqs
  | CallSatisfyOutstanding fr => satisfyOutstanding s fr
  | CallApplyBatchHashResult d => Ok (applyBatchHashResult s d)
  | CallApplyPrepareMsg src d => Ok (applyPrepareMsg s src d)
  | CallApplyCommitMsg src d => Ok (applyCommitMsg s src d)
  end.

End Sequence.

(** ** The per-peer admitter ([nodemsgs.go]) *)

Inductive applyable : Type := past | current | future | invalid.

#[global] Instance applyable_eq_dec : EqDecision applyable.
Proof. solve_decision. Defined.

(** The fields of the package's [epochConfig] that the admitter reads. *)
Record epochConfig : Type :=
  mkEpochConfig
    { number : N;
      checkpointInterval : N;
      buckets : gmap N N }.

Record nextMsg : Type :=
  mkNextMsg
    { leader : bool;
      prepare : N;
      commit : N }.

Module EpochMsgs.

Record epochMsgs : Type :=
  mk { config : epochConfig;
       next : gmap N nextMsg }.

Definition newEpochMsgs (nodeID : N) (ec : epochConfig) : epochMsgs :=
  {| config := ec;
     next := (fun leaderID =>
                {| leader := bool_decide (nodeID = leaderID);
                   prepare := 1;
                   commit := 1 |}) <$> buckets ec |}.

(** [next.prepare = ...] and [next.commit = ...] write through the pointer
    stored in the map. *)
Definition store (n : epochMsgs) (bucket : N) (nx : nextMsg) : epochMsgs :=
  {| config := config n; next := <[bucket := nx]> (next n) |}.

Definition processPreprepare (n : epochMsgs) (msg : Preprepare.t)
  : epochMsgs * applyable :=
  match next n !! Preprepare.Bucket msg with
  | None => (n, invalid)
  | Some nx =>
      if negb (leader nx) then (n, invalid)
      else if Preprepare.SeqNo msg <? prepare nx then (n, past)
      else if prepare nx =? Preprepare.SeqNo msg then
        (store n (Preprepare.Bucket msg)
               {| leader := leader nx;
                  prepare := wrap64 (Preprepare.SeqNo msg + 1);
                  commit := commit nx |},
         current)
      else (n, future)
  end.

Definition processPrepare (n : epochMsgs) (msg : Prepare.t)
  : epochMsgs * applyable :=
  match next n !! Prepare.Bucket msg with
  | None => (n, invalid)
  | Some nx =>
      if leader nx then (n, invalid)
      else if Prepare.SeqNo msg <? prepare nx then (n, past)
      else if prepare nx =? Prepare.SeqNo msg then
        (store n (Prepare.Bucket msg)
               {| leader := leader nx;
                  prepare := wrap64 (Prepare.SeqNo msg + 1);
                  commit := commit nx |},
         current)
      else (n, future)
  end.

Definition processCommit (n : epochMsgs) (msg : Commit.t)
  : epochMsgs * applyable :=
  match next n !! Commit.Bucket msg with
  | None => (n, invalid)
  | Some nx =>
      if Commit.SeqNo msg <? commit nx then (n, past)
      else if (commit nx =? Commit.SeqNo msg) && (commit nx <? prepare nx)
      then
        (store n (Commit.Bucket msg)
               {| leader := leader nx;
                  prepare := prepare nx;
                  commit := wrap64 (Commit.SeqNo msg + 1) |},
         current)
      else (n, future)
  end.

Definition process (n : epochMsgs) (outerMsg : Msg)
  : epochMsgs * result applyable :=
  match outerMsg with
  | Msg_Preprepare m => let '(n', a) := processPreprepare n m in (n', Ok a)
  | Msg_Prepare m => let '(n', a) := processPrepare n m in (n', Ok a)
  | Msg_Commit m => let '(n', a) := processCommit n m in (n', Ok a)
  | Msg_Checkpoint _ =>
      (n, Panic "programming error, checkpoints should not go through this path")
  | Msg_Forward _ => (n, Ok current)
  | Msg_Suspect _ => (n, Ok current)
  | Msg_EpochChange _ => (n, Ok current)
  | Msg_NewEpoch _ =>
      (n, Panic "programming error, new epochs should not go through this path")
  | Msg_None => (n, Panic "programming error, unreachable")
  end.

End EpochMsgs.

Module NodeMsgs.

(** Modelled from the spec: the [oddities] recorder is declared outside the
    sources at hand; it counts the anomalies reported to it.  The record
    keeps one entry per report. *)
Inductive oddity : Type :=
| invalidMessage (source : N) (msg : Msg)
| alreadyProcessed (source : N) (msg : Msg).

(** [buffer] holds one entry per buffered message pointer; a [range] over
    it visits the list front to back, and every permutation of the list
    stands for the same buffer. *)
Record nodeMsgs : Type :=
  mk { id : N;
       oddities : list oddity;
       buffer : list Msg;
       epochMsgs : EpochMsgs.epochMsgs;
       nextCheckpoint : N }.

Definition newNodeMsgs (nodeID : N) (ec : epochConfig) (o : list oddity)
  : nodeMsgs :=
  {| id := nodeID;
     oddities := o;
     epochMsgs := EpochMsgs.newEpochMsgs nodeID ec;
     nextCheckpoint := checkpointInterval ec;
     buffer := [] |}.

Definition set_epochMsgs (em : EpochMsgs.epochMsgs) (n : nodeMsgs) : nodeMsgs :=
  {| id := id n; oddities := oddities n; buffer := buffer n;
     epochMsgs := em; nextCheckpoint := nextCheckpoint n |}.

Definition set_nextCheckpoint (c : N) (n : nodeMsgs) : nodeMsgs :=
  {| id := id n; oddities := oddities n; buffer := buffer n;
     epochMsgs := epochMsgs n; nextCheckpoint := c |}.

Definition set_buffer (b : list Msg) (n : nodeMsgs) : nodeMsgs :=
  {| id := id n; oddities := oddities n; buffer := b;
     epochMsgs := epochMsgs n; nextCheckpoint := nextCheckpoint n |}.

Definition record_oddity (o : oddity) (n : nodeMsgs) : nodeMsgs :=
  {| id := id n; oddities := oddities n ++ [o]; buffer := buffer n;
     epochMsgs := epochMsgs n; nextCheckpoint := nextCheckpoint n |}.

Definition newEpoch (n : nodeMsgs) (ec : epochConfig) : nodeMsgs :=
  set_epochMsgs (EpochMsgs.newEpochMsgs (id n) ec) n.

Definition ingest (n : nodeMsgs) (outerMsg : Msg) : nodeMsgs :=
  set_buffer (buffer n ++ [outerMsg]) n.

(** The inner loop returns [future] as soon as it meets a bucket whose
    [commit] is below the checkpoint, whatever the visiting order. *)
Definition processCheckpoint (n : nodeMsgs) (msg : Checkpoint.t)
  : nodeMsgs * applyable :=
  if Checkpoint.SeqNo msg <? nextCheckpoint n then (n, past)
  else if nextCheckpoint n =? Checkpoint.SeqNo msg then
    if existsb (fun kv => commit (snd kv) <? Checkpoint.SeqNo msg)
               (map_to_list (EpochMsgs.next (epochMsgs n)))
    then (n, future)
    else
      (set_nextCheckpoint
         (wrap64 (Checkpoint.SeqNo msg
                  + checkpointInterval (EpochMsgs.config (epochMsgs n))))
         n,
       current)
  else (n, future).

(** The first switch of [process]: either the epoch the message carries,
    or the outcome of a case that returns (or panics) on the spot. *)
Definition process_epoch (n : nodeMsgs) (outerMsg : Msg)
  : N + nodeMsgs * result applyable :=
  match outerMsg with
  | Msg_Preprepare m => inl (Preprepare.Epoch m)
  | Msg_Prepare m => inl (Prepare.Epoch m)
  | Msg_Commit m => inl (Commit.Epoch m)
  | Msg_Suspect m => inl (Suspect.Epoch m)
  | Msg_Checkpoint m =>
      let '(n', a) := processCheckpoint n m in inr (n', Ok a)
  | Msg_Forward m => inl (Forward.Epoch m)
  | Msg_EpochChange m => inl (EpochChange.NewEpoch m)
  | Msg_NewEpoch _ => inr (n, Ok current)
  | Msg_None =>
      inr (record_oddity (invalidMessage (id n) outerMsg) n,
           Panic "unknown message type")
  end.

Definition process (n : nodeMsgs) (outerMsg : Msg)
  : nodeMsgs * result applyable :=
  match process_epoch n outerMsg with
  | inr r => r
  | inl epoch =>
      if number (EpochMsgs.config (epochMsgs n)) <? epoch then (n, Ok past)
      else if epoch <? number (EpochMsgs.config (epochMsgs n))
      then (n, Ok future)
      else
        let '(em, r) := EpochMsgs.process (epochMsgs n) outerMsg in
        (set_epochMsgs em n, r)
  end.

(** The loop of [next] over the messages still to visit; [kept] collects,
    last first, the visited messages that stay buffered. *)
Fixpoint next_loop (pending kept : list Msg) (n : nodeMsgs)
  : nodeMsgs * result (option Msg) :=
  match pending with
  | [] => (set_buffer (rev kept) n, Ok None)
  | msg :: rest =>
      let '(n', r) := process n msg in
      match r with
      | Panic e => (set_buffer (rev kept ++ msg :: rest) n', Panic e)
      | Ok past =>
          next_loop rest kept (record_oddity (alreadyProcessed (id n') msg) n')
      | Ok current => (set_buffer (rev kept ++ rest) n', Ok (Some msg))
      | Ok future => next_loop rest (msg :: kept) n'
      | Ok invalid => next_loop rest (msg :: kept) n'
      end
  end.

Definition next (n : nodeMsgs) : nodeMsgs * result (option Msg) :=
  next_loop (buffer n) [] n.

Record NodeBucketStatus : Type :=
  mkNodeBucketStatus
    { BucketID : Z;
      IsLeader : bool;
      LastPrepare : N;
      LastCommit : N;
      LastCheckpoint : N }.

Record NodeStatus : Type :=
  mkNodeStatus
    { ID : N;
      BucketStatuses : list NodeBucketStatus }.

(** The body of the loop of [status] for one index: a bucket id that is not
    in [next] reads as a nil pointer, whose [leader] cannot be read. *)
Definition bucketStatus (n : nodeMsgs) (bucketID : nat)
  : result NodeBucketStatus :=
  match EpochMsgs.next (epochMsgs n) !! N.of_nat bucketID with
  | None => Panic "invalid memory address or nil pointer dereference"
  | Some nextMsg =>
      Ok {| BucketID := Z.of_nat bucketID;
            IsLeader := leader nextMsg;
            LastCheckpoint :=
              sub64 (nextCheckpoint n)
                    (checkpointInterval (EpochMsgs.config (epochMsgs n)));
            LastPrepare := sub64 (prepare nextMsg) 1;
            LastCommit := sub64 (commit nextMsg) 1 |}
  end.

Fixpoint bucketStatuses (n : nodeMsgs) (bucketIDs : list nat)
  : result (list NodeBucketStatus) :=
  match bucketIDs with
  | [] => Ok []
  | bucketID :: rest =>
      let* st := bucketStatus n bucketID in
      let* sts := bucketStatuses n rest in
      Ok (st :: sts)
  end.

Definition status (n : nodeMsgs) : result NodeStatus :=
  let* sts :=
    bucketStatuses n (seq 0 (size (EpochMsgs.next (epochMsgs n)))) in
  Ok {| ID := id n; BucketStatuses := sts |}.

End NodeMsgs.

(** ** The epoch-change constructor *)

(** The fields of the package's [parsedEpochChange] that the constructor
    reads: the message itself, the low watermark derived from it, and the
    per-sequence views of its P and Q sets. *)
Record parsedEpochChange : Type :=
  mkParsed
    { underlying : EpochChange.t;
      lowWatermark : N;
      pSet : gmap N SetEntry.t;
      qSet : gmap N (gmap N bytes) }.

(** [checkpointKey{SeqNo, Value}], with [Value] the string of the bytes. *)
Definition checkpointKey : Type := N * string.

(** The order in which a [range] visits the entries of the two maps the
    constructor ranges over.  The language fixes no order, so a run is
    determined only once the order is given; every order that visits each
    entry once ([lawful]) is a possible run.  The loops that only count
    entries of [epochChanges] are run on the order of the first loop: a
    count does not depend on the order. *)
Record rangeOrder : Type :=
  mkRangeOrder
    { rangeEpochChanges :
        list (N * parsedEpochChange) -> list (N * parsedEpochChange);
      rangeCheckpoints :
        list (checkpointKey * list N) -> list (checkpointKey * list N) }.

Definition lawful (o : rangeOrder) : Prop :=
  (forall l, rangeEpochChanges o l ≡ₚ l)
  /\ (forall l, rangeCheckpoints o l ≡ₚ l).

Section Constructor.

Variable config : NetworkConfig.t.

(** The first loop over [visit], the epoch changes in visiting order: the
    epoch number is overwritten at every entry, and every checkpoint of
    the entry appends the node to the supporters of its key. *)
Definition collectCheckpoints (visit : list (N * parsedEpochChange))
  : N * gmap checkpointKey (list N) :=
  fold_left
    (fun acc ne =>
       (EpochChange.NewEpoch (underlying (snd ne)),
        fold_left
          (fun cps checkpoint =>
             let key : checkpointKey :=
               (Checkpoint.SeqNo checkpoint,
                bytes_string (Checkpoint.Value checkpoint)) in
             <[key := default [] (cps !! key) ++ [fst ne]]> cps)
          (EpochChange.Checkpoints (underlying (snd ne)))
          (snd acc)))
    visit (0, ∅).

Definition nodesWithLowerWatermark (visit : list (N * parsedEpochChange))
           (seqNo : N) : Z :=
  fold_left
    (fun cnt ne => if lowWatermark (snd ne) <=? seqNo then (cnt + 1)%Z else cnt)
    visit 0%Z.

(** One pass through the body of the loop over the [checkpoints] map. *)
Definition maxCheckpoint_body (visit : list (N * parsedEpochChange))
           (maxCheckpoint : option checkpointKey)
           (ks : checkpointKey * list N) : result (option checkpointKey) :=
  let key := fst ks in
  let supporters := snd ks in
  if (Z.of_nat (length supporters) <? someCorrectQuorum config)%Z
  then Ok maxCheckpoint
  else if (nodesWithLowerWatermark visit (fst key) <? intersectionQuorum config)%Z
  then Ok maxCheckpoint
  else
    match maxCheckpoint with
    | None => Ok (Some key)
    | Some mc =>
        if fst key <? fst mc then Ok maxCheckpoint
        else if fst mc =? fst key
        then Panic "two correct quorums have different checkpoints for same seqno"
        else Ok (Some key)
    end.

Fixpoint maxCheckpoint_loop (visit : list (N * parsedEpochChange))
         (cks : list (checkpointKey * list N))
         (maxCheckpoint : option checkpointKey)
  : result (option checkpointKey) :=
  match cks with
  | [] => Ok maxCheckpoint
  | ks :: rest =>
      match maxCheckpoint_body visit maxCheckpoint ks with
      | Panic e => Panic e
      | Ok mc => maxCheckpoint_loop visit rest mc
      end
  end.

Definition a1Count (visit : list (N * parsedEpochChange)) (seqNo : N)
           (entry : SetEntry.t) : Z :=
  fold_left
    (fun cnt ne =>
       let iEpochChange := snd ne in
       if seqNo <=? lowWatermark iEpochChange then cnt
       else
         match pSet iEpochChange !! seqNo with
         | None => (cnt + 1)%Z
         | Some iEntry =>
             if SetEntry.Epoch iEntry <? SetEntry.Epoch entry then (cnt + 1)%Z
             else if SetEntry.Epoch entry <? SetEntry.Epoch iEntry then cnt
             else if bytes_Equal (SetEntry.Digest entry) (SetEntry.Digest iEntry)
                  then (cnt + 1)%Z
                  else cnt
         end)
    visit 0%Z.

(** The inner loop over [epochEntries] stops at the first entry of a
    sufficient epoch with the candidate's digest, whatever the order. *)
Definition a2Count (visit : list (N * parsedEpochChange)) (seqNo : N)
           (entry : SetEntry.t) : Z :=
  fold_left
    (fun cnt ne =>
       match qSet (snd ne) !! seqNo with
       | None => cnt
       | Some epochEntries =>
           if existsb
                (fun ed =>
                   negb (fst ed <? SetEntry.Epoch entry)
                   && bytes_Equal (SetEntry.Digest entry) (snd ed))
                (map_to_list epochEntries)
           then (cnt + 1)%Z
           else cnt
       end)
    visit 0%Z.

Definition bCount (visit : list (N * parsedEpochChange)) (seqNo : N) : Z :=
  fold_left
    (fun cnt ne =>
       if seqNo <=? lowWatermark (snd ne) then cnt
       else
         match pSet (snd ne) !! seqNo with
         | None => (cnt + 1)%Z
         | Some _ => cnt
         end)
    visit 0%Z.

Section Slot.

Variable epochChanges : gmap N parsedEpochChange.
Variable visit : list (N * parsedEpochChange).

(** The loop over [config.Nodes] for one sequence number. *)
Fixpoint selectEntry (nodes : list N) (seqNo : N) : option SetEntry.t :=
  match nodes with
  | [] => None
  | nodeID :: rest =>
      match epochChanges !! nodeID with
      | None => selectEntry rest seqNo
      | Some epochChange =>
          match pSet epochChange !! seqNo with
          | None => selectEntry rest seqNo
          | Some entry =>
              if (a1Count visit seqNo entry <? intersectionQuorum config)%Z
              then selectEntry rest seqNo
              else if (a2Count visit seqNo entry <? someCorrectQuorum config)%Z
              then selectEntry rest seqNo
              else Some entry
          end
      end
  end.

(** The loop over the offsets of [FinalPreprepares]; [None] is the
    [return nil] taken when neither condition holds at an offset. *)
Fixpoint fillPreprepares (maxSeqNo : N) (offsets : list nat)
         (finalPreprepares : list bytes) (anySelected : bool)
  : option (list bytes * bool) :=
  match offsets with
  | [] => Some (finalPreprepares, anySelected)
  | seqNoOffset :: rest =>
      let seqNo := wrap64 (wrap64 (N.of_nat seqNoOffset + maxSeqNo) + 1) in
      match selectEntry (NetworkConfig.Nodes config) seqNo with
      | Some selectedEntry =>
          fillPreprepares maxSeqNo rest
            (<[seqNoOffset := SetEntry.Digest selectedEntry]> finalPreprepares)
            true
      | None =>
          if (bCount visit seqNo <? intersectionQuorum config)%Z then None
          else fillPreprepares maxSeqNo rest finalPreprepares anySelected
      end
  end.

End Slot.

Definition constructNewEpochConfig (o : rangeOrder) (newLeaders : list N)
           (epochChanges : gmap N parsedEpochChange)
  : result (option NewEpochConfig.t) :=
  let visit := rangeEpochChanges o (map_to_list epochChanges) in
  let '(newEpochNumber, checkpoints) := collectCheckpoints visit in
  match maxCheckpoint_loop visit (rangeCheckpoints o (map_to_list checkpoints))
                           None with
  | Panic e => Panic e
  | Ok None => Ok None
  | Ok (Some maxCheckpoint) =>
      let len := wrap_int32 (2 * NetworkConfig.CheckpointInterval config) in
      if (len <? 0)%Z then Panic "makeslice: len out of range"
      else
        let ec :=
          EpochConfig.mk newEpochNumber newLeaders
            (wrap64 (fst maxCheckpoint + NetworkConfig.MaxEpochLength config)) in
        let cp := Checkpoint.mk (fst maxCheckpoint) (Some (snd maxCheckpoint)) in
        match fillPreprepares epochChanges visit (fst maxCheckpoint)
                (seq 0 (Z.to_nat len)) (replicate (Z.to_nat len) None) false with
        | None => Ok None
        | Some (finalPreprepares, anySelected) =>
            Ok (Some (NewEpochConfig.mk ec cp
                        (if anySelected then finalPreprepares else [])))
        end
  end.

End Constructor.

(** ** EpochChange hashing *)

(** Modelled from the spec: [uint64ToBytes] is defined outside the sources
    at hand; integers are fixed-width 8-byte big-endian. *)
Definition uint64ToBytes (x : N) : bytes :=
  Some (fold_right
          (fun k s => String (ascii_of_N ((x / 2 ^ (8 * k)) mod 256)) s)
          EmptyString
          [7; 6; 5; 4; 3; 2; 1; 0]).

(** [hashData[i] = v]: an index outside the slice is a run-time panic. *)
Definition put (hashData : list bytes) (i : nat) (v : bytes)
  : result (list bytes) :=
  if decide (i < length hashData)%nat then Ok (<[i := v]> hashData)
  else Panic "index out of range".

(** The loop over [Checkpoints], from index [i] on. *)
Fixpoint hashCheckpoints (cpOffset i : nat) (cps : list Checkpoint.t)
         (hashData : list bytes) : result (list bytes) :=
  match cps with
  | [] => Ok hashData
  | cp :: rest =>
      let* h := put hashData (cpOffset + 2 * i) (uint64ToBytes (Checkpoint.SeqNo cp)) in
      let* h := put h (cpOffset + 2 * i + 1) (Checkpoint.Value cp) in
      hashCheckpoints cpOffset (S i) rest h
  end.

(** The loops over [PSet] and over [QSet] have the same body. *)
Fixpoint hashEntries (entryOffset i : nat) (es : list SetEntry.t)
         (hashData : list bytes) : result (list bytes) :=
  match es with
  | [] => Ok hashData
  | e :: rest =>
      let* h := put hashData (entryOffset + 3 * i) (uint64ToBytes (SetEntry.Epoch e)) in
      let* h := put h (entryOffset + 3 * i + 1) (uint64ToBytes (SetEntry.SeqNo e)) in
      let* h := put h (entryOffset + 3 * i + 2) (SetEntry.Digest e) in
      hashEntries entryOffset (S i) rest h
  end.

(** Slice lengths are [nat]: the three slices hold pointers, so their
    lengths add up to less than [2^61] and the [int] sums cannot wrap. *)
Definition epochChangeHashData (epochChange : EpochChange.t)
  : result (list bytes) :=
  let cps := EpochChange.Checkpoints epochChange in
  let ps := EpochChange.PSet epochChange in
  let qs := EpochChange.QSet epochChange in
  let hashData :=
    replicate (1 + length cps * 2 + length ps * 3 + length qs * 3)%nat
              (None : bytes) in
  let* h := put hashData 0 (uint64ToBytes (EpochChange.NewEpoch epochChange)) in
  let cpOffset := 1%nat in
  let* h := hashCheckpoints cpOffset 0 cps h in
  let pEntryOffset := (cpOffset + length cps * 2)%nat in
  let* h := hashEntries pEntryOffset 0 ps h in
  let qEntryOffset := (pEntryOffset + length ps * 3)%nat in
  let* h := hashEntries qEntryOffset 0 qs h in
  if negb (bool_decide ((qEntryOffset + length qs * 3)%nat = length h))
  then Panic "TODO, remove me, but this is bad"
  else Ok h.

From Stdlib Require Import Sorted.

(** ** Sequence numbers, buckets and columns *)

(** [uint64(x)] for a signed [x]: a negative value wraps around. *)
Definition uint64_of_int (x : Z) : N := Z.to_N (x mod 2 ^ 64).

(** [%] and [/] on [uint64] panic on a zero divisor. *)
Definition seqToBucket (seqNo : N) (ec : EpochConfig.t) (nc : NetworkConfig.t)
  : result N :=
  let buckets := uint64_of_int (NetworkConfig.NumberOfBuckets nc) in
  if buckets =? 0 then Panic "integer divide by zero"
  else Ok (sub64 seqNo (initialSequence ec nc) mod buckets).

Definition seqToColumn (seqNo : N) (ec : EpochConfig.t) (nc : NetworkConfig.t)
  : result N :=
  let buckets := uint64_of_int (NetworkConfig.NumberOfBuckets nc) in
  if buckets =? 0 then Panic "integer divide by zero"
  else Ok (wrap64 (sub64 seqNo (initialSequence ec nc) / buckets + 1)).

(** ** The event log of the test engine *)

Module RecordedEvent.
(** [rpb.RecordedEvent]; [Time] is an [int64].  The log stores the state
    event and never looks into it, so its type is left open. *)
Record t (SE : Type) : Type :=
  mk { NodeId : N; Time : Z; StateEvent : SE }.
Arguments mk {SE} NodeId Time StateEvent.
Arguments NodeId {SE} _.
Arguments Time {SE} _.
Arguments StateEvent {SE} _.
End RecordedEvent.

(** The four state events the log builds itself.  [pb.Request] and
    [pb.StateEvent_InboundMsg] are stored as they are given. *)
Inductive StateEvent (Request InboundMsg : Type) : Type :=
| StateEvent_Tick
| StateEvent_Propose (request : Request)
| StateEvent_Step (step : InboundMsg)
| StateEvent_ActionsReceived.
Arguments StateEvent_Tick {Request InboundMsg}.
Arguments StateEvent_Propose {Request InboundMsg} request.
Arguments StateEvent_Step {Request InboundMsg} step.
Arguments StateEvent_ActionsReceived {Request InboundMsg}.

(** What the log calls on its collaborators. *)
Module Interfaces.

(** [rand.Rand]: [Int] returns a number and moves the generator on. *)
Class RandSource (R : Type) : Type :=
  Rand_Int : R -> Z * R.

(** The [Mangler] interface: [Mangle(random, event)] returns the events to
    insert in place of [event]; an implementation may keep state. *)
Class Mangler (SE M : Type) : Type :=
  Mangle : M -> Z -> RecordedEvent.t SE -> M * list (RecordedEvent.t SE).

(** [eventlog.WriteRecordedEvent] on the output writer: the writer after
    the write, and the error if the write failed. *)
Class EventWriter (SE W E : Type) : Type :=
  WriteRecordedEvent : W -> RecordedEvent.t SE -> W * option E.

End Interfaces.

Module EventLog.
Import Interfaces.

(** [a + b] on [int64] values. *)
Definition add_int64 (a b : Z) : Z :=
  ((a + b + 2 ^ 63) mod 2 ^ 64 - 2 ^ 63)%Z.

(** The errors [ReadEvent] and [ReadEventLog] return: [io.EOF], an error of
    the reader or writer, or such an error wrapped with a message. *)
Inductive error (E : Type) : Type :=
| EOF
| Err (e : E)
| WithMessage (e : E) (message : string).
Arguments EOF {E}.
Arguments Err {E} e.
Arguments WithMessage {E} e message.

(** [List] is the linked list front to back; the pointers [Rand],
    [Mangler] and [Output] may be nil. *)
Record EventLog (SE R M W : Type) : Type :=
  mk { List : list (RecordedEvent.t SE);
       LastConsumed : option (RecordedEvent.t SE);
       FakeTime : Z;
       Rand : option R;
       Mangler : option M;
       Output : option W }.
Arguments mk {SE R M W} List LastConsumed FakeTime Rand Mangler Output.
Arguments List {SE R M W} _.
Arguments LastConsumed {SE R M W} _.
Arguments FakeTime {SE R M W} _.
Arguments Rand {SE R M W} _.
Arguments Mangler {SE R M W} _.
Arguments Output {SE R M W} _.

(** What [eventlog.NewReader(source)] and the [ReadEvent] calls on the
    reader give: an error at once, or the events of the source followed by
    [io.EOF] ([None]) or by an error. *)
Inductive Source (SE E : Type) : Type :=
| BadSource (e : E)
| Events (events : list (RecordedEvent.t SE)) (tail : option E).
Arguments BadSource {SE E} e.
Arguments Events {SE E} events tail.

Section Log.

Context {SE R M W E : Type}.
Context `{!RandSource R, !Interfaces.Mangler SE M, !EventWriter SE W E}.

Definition set_List (els : list (RecordedEvent.t SE)) (l : EventLog SE R M W)
  : EventLog SE R M W :=
  {| List := els; LastConsumed := LastConsumed l; FakeTime := FakeTime l;
     Rand := Rand l; Mangler := Mangler l; Output := Output l |}.

Definition ReadEventLog (source : Source SE E)
  : EventLog SE R M W + error E :=
  match source with
  | BadSource e => inr (Err e)
  | Events events tail =>
      let els := fold_left (fun els event => els ++ [event]) events [] in
      match tail with
      | Some e => inr (Err e)
      | None =>
          inl {| List := els; LastConsumed := None; FakeTime := 0%Z;
                 Rand := None; Mangler := None; Output := None |}
      end
  end.

Definition ReadEvent (l : EventLog SE R M W)
  : EventLog SE R M W * (RecordedEvent.t SE + error E) :=
  match List l with
  | [] => (l, inr EOF)
  | nele :: rest =>
      let l := {| List := rest; LastConsumed := Some nele;
                  FakeTime := RecordedEvent.Time nele;
                  Rand := Rand l; Mangler := Mangler l; Output := Output l |} in
      match Output l with
      | None => (l, inl nele)
      | Some w =>
          let '(w', err) := WriteRecordedEvent w nele in
          let l := {| List := List l; LastConsumed := LastConsumed l;
                      FakeTime := FakeTime l; Rand := Rand l;
                      Mangler := Mangler l; Output := Some w' |} in
          match err with
          | Some e =>
              (l, inr (WithMessage e "could not write event before processing"))
          | None => (l, inl nele)
          end
      end
  end.

(** The inner loop of [Insert]: the list with [event] put before the
    first element of a later time, or [None] when the loop runs off the end
    of the list. *)
Fixpoint insertBefore (event : RecordedEvent.t SE)
         (els : list (RecordedEvent.t SE))
  : option (list (RecordedEvent.t SE)) :=
  match els with
  | [] => None
  | el :: rest =>
      if (RecordedEvent.Time event <? RecordedEvent.Time el)%Z
      then Some (event :: el :: rest)
      else option_map (cons el) (insertBefore event rest)
  end.

(** The outer loop of [Insert].  The [return] that follows
    [InsertBefore] leaves the function, and with it the outer loop. *)
Fixpoint insertEvents (events : list (RecordedEvent.t SE)) (fakeTime : Z)
         (els : list (RecordedEvent.t SE))
  : list (RecordedEvent.t SE) * result unit :=
  match events with
  | [] => (els, Ok tt)
  | event :: rest =>
      if (RecordedEvent.Time event <? fakeTime)%Z
      then (els, Panic "attempted to modify the past")
      else
        match insertBefore event els with
        | Some els' => (els', Ok tt)
        | None => insertEvents rest fakeTime (els ++ [event])
        end
  end.

Definition Insert (l : EventLog SE R M W) (initialEvent : RecordedEvent.t SE)
  : EventLog SE R M W * result unit :=
  match Mangler l with
  | Some m =>
      match Rand l with
      | None => (l, Panic "invalid memory address or nil pointer dereference")
      | Some r =>
          let '(random, r') := Rand_Int r in
          let '(m', events) := Mangle m random initialEvent in
          let '(els, res) := insertEvents events (FakeTime l) (List l) in
          ({| List := els; LastConsumed := LastConsumed l;
              FakeTime := FakeTime l; Rand := Some r'; Mangler := Some m';
              Output := Output l |},
           res)
      end
  | None =>
      let '(els, res) := insertEvents [initialEvent] (FakeTime l) (List l) in
      (set_List els l, res)
  end.

Definition InsertStateEvent (l : EventLog SE R M W) (target : N)
           (stateEvent : SE) (fromNow : Z)
  : EventLog SE R M W * result unit :=
  Insert l (RecordedEvent.mk target (add_int64 (FakeTime l) fromNow) stateEvent).

End Log.

Section Wrappers.

Context {Request InboundMsg R M W : Type}.
Context `{!RandSource R, !Interfaces.Mangler (StateEvent Request InboundMsg) M}.

Definition InsertTickEvent
           (l : EventLog (StateEvent Request InboundMsg) R M W)
           (target : N) (fromNow : Z) :=
  InsertStateEvent l target StateEvent_Tick fromNow.

Definition InsertProposeEvent
           (l : EventLog (StateEvent Request InboundMsg) R M W)
           (target : N) (req : Request) (fromNow : Z) :=
  InsertStateEvent l target (StateEvent_Propose req) fromNow.

Definition InsertStepEvent
           (l : EventLog (StateEvent Request InboundMsg) R M W)
           (target : N) (stepEvent : InboundMsg) (fromNow : Z) :=
  InsertStateEvent l target (StateEvent_Step stepEvent) fromNow.

Definition InsertProcess
           (l : EventLog (StateEvent Request InboundMsg) R M W)
           (target : N) (fromNow : Z) :=
  InsertStateEvent l target StateEvent_ActionsReceived fromNow.

End Wrappers.

End EventLog.

(** ** Vocabulary for the properties of the sequence state machine *)

Module SequenceSpec.
Import Sequence.

(** The part of a sequence that no pass of the drive loop writes. *)
Definition frame (s : sequence) :=
  (owner s, myConfig_Id s, networkConfig s, digest s, prepares s, commits s).

Definition reached (target st : sequenceState) : Prop :=
  (rank target <= rank st)%nat.

Definition prepareQuorum (s : sequence) : Prop :=
  myConfig_Id s ∈ tally (prepares s) (digest s)
  /\ (intersectionQuorum (networkConfig s)
      <= Z.of_nat (size (tally (prepares s) (digest s))))%Z.

Definition commitQuorum (s : sequence) : Prop :=
  myConfig_Id s ∈ tally (commits s) (digest s)
  /\ (intersectionQuorum (networkConfig s)
      <= Z.of_nat (size (tally (commits s) (digest s))))%Z.

(** All that a pass of the drive loop reads of a sequence to decide the
    next state: of the two tally maps, only the sets under the own digest. *)
Definition view (s : sequence) :=
  (state s, digest s, myConfig_Id s, networkConfig s, length (batch s),
   size (outstandingReqs s),
   tally (prepares s) (digest s), tally (commits s) (digest s)).

End SequenceSpec.

(** ** Concrete sequences: four nodes, one fault, the local node is node 0 *)

(** Nodes 0 to 3, one fault, checkpoint interval 5, epochs of at most 100
    sequence numbers, one bucket. *)
Definition four_nodes : NetworkConfig.t :=
  NetworkConfig.mk [0; 1; 2; 3] 1 5 100 1.

Module SequenceExamples.
Import Sequence.

(** Slot 1 of epoch 1, owned by the local node, preprepared with digest
    ["BB"], holding the prepares of nodes 1 and 2. *)
Definition two_prepares : sequence :=
  {| owner := 0; seqNo := 1; epoch := 1; myConfig_Id := 0;
     networkConfig := four_nodes; state := sequencePreprepared;
     persistedLog := []; qEntry := Some (QEntry.mk 1 (Some "BB") []);
     batch := [RequestAck.mk None 0 (Some "AA")]; outstandingReqs := ∅;
     digest := Some "BB";
     prepares := {[ "BB" := {[ 1; 2 ]} ]};
     commits := ∅ |}.

(** Slot 2 of epoch 1 at a follower: the slot is owned by node 1, the batch
    has been allocated and its requests are at hand. *)
Definition follower_ready : sequence :=
  {| owner := 1; seqNo := 2; epoch := 1; myConfig_Id := 0;
     networkConfig := four_nodes; state := sequenceReady;
     persistedLog := []; qEntry := None;
     batch := [RequestAck.mk None 0 (Some "AA")]; outstandingReqs := ∅;
     digest := None; prepares := ∅; commits := ∅ |}.

End SequenceExamples.

(** ** Vocabulary for the properties of the per-peer admitter *)

Module NodeMsgsSpec.
Import NodeMsgs.

(** In every bucket the commit cursor is not ahead of the prepare cursor. *)
Definition cursors_ordered (n : nodeMsgs) : Prop :=
  forall bucket nx,
    EpochMsgs.next (epochMsgs n) !! bucket = Some nx -> commit nx <= prepare nx.

(** The gate of the checkpoint classifier: the admitter expects the
    checkpoint at [s] next, and no bucket's commit cursor is below [s]. *)
Definition checkpoint_due (n : nodeMsgs) (s : N) : Prop :=
  nextCheckpoint n = s
  /\ forall bucket nx,
       EpochMsgs.next (epochMsgs n) !! bucket = Some nx -> s <= commit nx.

(** A Preprepare or Prepare whose sequence number is the last [uint64]
    makes the increment of the prepare cursor wrap to 0. *)
Definition no_wrap (msg : Msg) : Prop :=
  match msg with
  | Msg_Preprepare m => Preprepare.SeqNo m + 1 < 2 ^ 64
  | Msg_Prepare m => Prepare.SeqNo m + 1 < 2 ^ 64
  | _ => True
  end.

Definition any_msg (msg : Msg) : Prop := True.

(** [msg] is the Preprepare or Prepare of sequence number [s] in [bucket]. *)
Definition prepared_at (bucket s : N) (msg : Msg) : Prop :=
  match msg with
  | Msg_Preprepare m => Preprepare.Bucket m = bucket /\ Preprepare.SeqNo m = s
  | Msg_Prepare m => Prepare.Bucket m = bucket /\ Prepare.SeqNo m = s
  | _ => False
  end.

(** The messages classified as current so far, latest first. *)
Definition accepted (r : result applyable) (msg : Msg) (h : list Msg)
  : list Msg :=
  match r with
  | Ok current => msg :: h
  | _ => h
  end.

Definition released (r : result (option Msg)) (h : list Msg) : list Msg :=
  match r with
  | Ok (Some msg) => msg :: h
  | _ => h
  end.

(** The states of an admitter that a peer can bring about with messages
    satisfying [P], together with the messages accepted on the way. *)
Inductive reachable (P : Msg -> Prop) : list Msg -> nodeMsgs -> Prop :=
| reach_new nodeID ec o :
    reachable P [] (newNodeMsgs nodeID ec o)
| reach_newEpoch h n ec :
    reachable P h n -> reachable P h (newEpoch n ec)
| reach_ingest h n msg :
    P msg -> reachable P h n -> reachable P h (ingest n msg)
| reach_process h n msg :
    P msg -> reachable P h n ->
    reachable P (accepted (process n msg).2 msg h) (process n msg).1
| reach_next h n :
    reachable P h n -> reachable P (released (next n).2 h) (next n).1.

(** The two writes [process] makes to the cursors of a bucket. *)
Definition prepare_step (em : EpochMsgs.epochMsgs) (bucket : N) (nx : nextMsg)
  : EpochMsgs.epochMsgs :=
  EpochMsgs.store em bucket
    {| leader := leader nx; prepare := wrap64 (prepare nx + 1);
       commit := commit nx |}.

Definition commit_step (em : EpochMsgs.epochMsgs) (bucket : N) (nx : nextMsg)
  : EpochMsgs.epochMsgs :=
  EpochMsgs.store em bucket
    {| leader := leader nx; prepare := prepare nx;
       commit := wrap64 (commit nx + 1) |}.

(** Feeding a list of messages to [process], one after the other. *)
Definition process_all (n : nodeMsgs) (msgs : list Msg) : nodeMsgs :=
  fold_left (fun n msg => (process n msg).1) msgs n.

(** The cursors stay within [uint64] and the commit cursor is not ahead. *)
Definition ordered_in_range (h : list Msg) (em : EpochMsgs.epochMsgs) : Prop :=
  forall bucket nx,
    EpochMsgs.next em !! bucket = Some nx ->
    commit nx <= prepare nx /\ prepare nx < 2 ^ 64.

(** Every sequence number from 1 up to the prepare cursor of a bucket has
    had its Preprepare or Prepare accepted. *)
Definition prepares_accepted (h : list Msg) (em : EpochMsgs.epochMsgs) : Prop :=
  forall bucket nx,
    EpochMsgs.next em !! bucket = Some nx ->
    1 <= commit nx /\ prepare nx < 2 ^ 64
    /\ forall s, 1 <= s < prepare nx ->
                 exists msg, msg ∈ h /\ prepared_at bucket s msg.

End NodeMsgsSpec.

(** ** Concrete admitters *)

Module NodeMsgsExamples.
Import NodeMsgs NodeMsgsSpec.

(** Epoch 1, checkpoint interval 5, a single bucket led by node 0. *)
Definition epoch_one : epochConfig := mkEpochConfig 1 5 {[ 0 := 0 ]}.

(** The admitter for peer 0, the leader of the bucket. *)
Definition leader_peer : nodeMsgs := newNodeMsgs 0 epoch_one [].

Definition preprepare_at (epoch s : N) : Msg :=
  Msg_Preprepare (Preprepare.mk s epoch 0 []).

Definition commit_at (epoch s : N) : Msg :=
  Msg_Commit (Commit.mk s epoch 0 (Some "BB")).

Definition checkpoint_at (s : N) : Msg :=
  Msg_Checkpoint (Checkpoint.mk s (Some "CC")).

(** Peer 0 after its preprepares and commits for sequence numbers 1 to 4
    have been accepted. *)
Definition four_committed : nodeMsgs :=
  process_all leader_peer
    (map (preprepare_at 1) [1; 2; 3; 4] ++ map (commit_at 1) [1; 2; 3; 4]).

(** Epoch 0 with one bucket led by node 0, and the admitter for peer 0 with
    the prepare cursor of the bucket at [p]. *)
Definition epoch_zero : epochConfig := mkEpochConfig 0 5 {[ 0 := 0 ]}.

Definition prepare_cursor_at (p : N) : nodeMsgs :=
  {| id := 0; oddities := []; buffer := [];
     epochMsgs :=
       {| EpochMsgs.config := epoch_zero;
          EpochMsgs.next :=
            {[ 0 := {| leader := true; prepare := p; commit := 1 |} ]} |};
     nextCheckpoint := 5 |}.

End NodeMsgsExamples.

(** ** The canonical layout of the hash data *)

Module HashSpec.

Definition checkpoint_layout (cp : Checkpoint.t) : list bytes :=
  [uint64ToBytes (Checkpoint.SeqNo cp); Checkpoint.Value cp].

Definition entry_layout (e : SetEntry.t) : list bytes :=
  [uint64ToBytes (SetEntry.Epoch e); uint64ToBytes (SetEntry.SeqNo e);
   SetEntry.Digest e].

(** The layout as the specification writes it: the new epoch, then the
    checkpoints, the P set and the Q set, each in order. *)
Definition hashData_layout (epochChange : EpochChange.t) : list bytes :=
  uint64ToBytes (EpochChange.NewEpoch epochChange)
  :: flat_map checkpoint_layout (EpochChange.Checkpoints epochChange)
  ++ flat_map entry_layout (EpochChange.PSet epochChange)
  ++ flat_map entry_layout (EpochChange.QSet epochChange).

End HashSpec.

(** ** Vocabulary for the properties of the epoch-change constructor *)

Module ConstructorSpec.

(** The number of entries of [l] that satisfy [P], as a Go [int]. *)
Definition count_of {A : Type} (P : A -> Prop) `{forall x, Decision (P x)}
           (l : list A) : Z :=
  Z.of_nat (length (filter P l)).

(** What an epoch change holds against or for the candidate [entry] at
    [seqNo], once its P-set entry at [seqNo] (if any) is looked at: no
    entry, an entry of an older epoch, or the same epoch and digest. *)
Definition compatible (seqNo : N) (entry : SetEntry.t)
           (ec : parsedEpochChange) : Prop :=
  match pSet ec !! seqNo with
  | None => True
  | Some iEntry =>
      SetEntry.Epoch iEntry < SetEntry.Epoch entry
      \/ (SetEntry.Epoch iEntry = SetEntry.Epoch entry
          /\ bytes_string (SetEntry.Digest entry)
             = bytes_string (SetEntry.Digest iEntry))
  end.

(** Condition A1 as the code counts it: the low watermark is below the
    sequence number, and the P set does not contradict the candidate. *)
Definition A1 (seqNo : N) (entry : SetEntry.t) (ec : parsedEpochChange)
  : Prop :=
  lowWatermark ec < seqNo /\ compatible seqNo entry ec.

(** Condition A1 as the claim words it: the low watermark is at or above
    the sequence number, or the P set does not contradict the candidate. *)
Definition A1_claimed (seqNo : N) (entry : SetEntry.t)
           (ec : parsedEpochChange) : Prop :=
  seqNo <= lowWatermark ec \/ compatible seqNo entry ec.

(** Condition A2: the Q set at [seqNo] has an entry of the candidate's
    epoch or a later one with the candidate's digest. *)
Definition A2 (seqNo : N) (entry : SetEntry.t) (ec : parsedEpochChange)
  : Prop :=
  exists epochEntries epoch d,
    qSet ec !! seqNo = Some epochEntries
    /\ epochEntries !! epoch = Some d
    /\ SetEntry.Epoch entry <= epoch
    /\ bytes_string (SetEntry.Digest entry) = bytes_string d.

(** Condition B: the low watermark is below the sequence number and the P
    set has no entry at it. *)
Definition B (seqNo : N) (ec : parsedEpochChange) : Prop :=
  lowWatermark ec < seqNo /\ pSet ec !! seqNo = None.

#[global] Instance compatible_dec seqNo entry ec :
  Decision (compatible seqNo entry ec).
Proof. unfold compatible. destruct (pSet ec !! seqNo); apply _. Defined.

#[global] Instance A1_dec seqNo entry ec : Decision (A1 seqNo entry ec).
Proof. unfold A1. apply _. Defined.

#[global] Instance A1_claimed_dec seqNo entry ec :
  Decision (A1_claimed seqNo entry ec).
Proof. unfold A1_claimed. apply _. Defined.

#[global] Instance B_dec seqNo ec : Decision (B seqNo ec).
Proof. unfold B. apply _. Defined.

(** The test the inner loop of the A2 count performs on a Q set. *)
Definition a2_test (seqNo : N) (entry : SetEntry.t) (ec : parsedEpochChange)
  : bool :=
  match qSet ec !! seqNo with
  | None => false
  | Some epochEntries =>
      existsb
        (fun ed =>
           negb (fst ed <? SetEntry.Epoch entry)
           && bytes_Equal (SetEntry.Digest entry) (snd ed))
        (map_to_list epochEntries)
  end.

(** The key under which a reported checkpoint is filed. *)
Definition key_of (cp : Checkpoint.t) : checkpointKey :=
  (Checkpoint.SeqNo cp, bytes_string (Checkpoint.Value cp)).

Definition reported (visit : list (N * parsedEpochChange))
  : list Checkpoint.t :=
  flat_map (fun ne => EpochChange.Checkpoints (underlying (snd ne))) visit.

(** The number of times [key] is listed among the checkpoints of the epoch
    changes: the length of the supporters list the constructor builds for
    it.  Every listing counts, so a checkpoint that one epoch change lists
    twice counts twice; this is the number of epoch changes that report the
    key only when no epoch change lists it more than once. *)
Definition reports (visit : list (N * parsedEpochChange)) (key : checkpointKey)
  : nat :=
  length (filter (fun cp => key_of cp = key) (reported visit)).

(** The inner loop of the first pass: one node's checkpoints. *)
Definition file_checkpoints (nodeID : N) (cps : list Checkpoint.t)
           (m : gmap checkpointKey (list N)) : gmap checkpointKey (list N) :=
  fold_left
    (fun cps checkpoint =>
       let key : checkpointKey :=
         (Checkpoint.SeqNo checkpoint,
          bytes_string (Checkpoint.Value checkpoint)) in
       <[key := default [] (cps !! key) ++ [nodeID]]> cps)
    cps m.

(** The two tests of the constructor, on a key: a key is admissible when
    it is listed at least once, its listings, counted as [reports] counts
    them (with repetitions, as [len(supporters)] does), reach
    [someCorrectQuorum], and the epoch changes whose low watermark is at or
    below its sequence number reach [intersectionQuorum]. *)
Definition admissible (config : NetworkConfig.t)
           (epochChanges : gmap N parsedEpochChange) (key : checkpointKey)
  : Prop :=
  (0 < reports (map_to_list epochChanges) key)%nat
  /\ (someCorrectQuorum config
      <= Z.of_nat (reports (map_to_list epochChanges) key))%Z
  /\ (intersectionQuorum config
      <= count_of (fun ne => (lowWatermark (snd ne) <= fst key)%N)
                  (map_to_list epochChanges))%Z.

(** The two tests the loop over the checkpoints map applies to an entry. *)
Definition entry_ok (config : NetworkConfig.t)
           (visit : list (N * parsedEpochChange))
           (ks : checkpointKey * list N) : bool :=
  negb (Z.of_nat (length (snd ks)) <? someCorrectQuorum config)%Z
  && negb (nodesWithLowerWatermark visit (fst (fst ks))
           <? intersectionQuorum config)%Z.

(** What the loop has selected after the entries [seen]: nothing if none
    passed the tests, else the key of an entry that passed them and is of a
    greater sequence number than every other entry that passed. *)
Definition selected_among (config : NetworkConfig.t)
           (visit : list (N * parsedEpochChange))
           (seen : list (checkpointKey * list N))
           (mc : option checkpointKey) : Prop :=
  match mc with
  | None => forall ks, ks ∈ seen -> entry_ok config visit ks = false
  | Some k =>
      (exists sup, (k, sup) ∈ seen /\ entry_ok config visit (k, sup) = true)
      /\ forall ks, ks ∈ seen -> entry_ok config visit ks = true ->
                    fst ks = k \/ fst (fst ks) < fst k
  end.

(** The starting checkpoint the epoch changes determine: the admissible
    key that is above every other admissible key, if there is one. *)
Definition selected (config : NetworkConfig.t)
           (epochChanges : gmap N parsedEpochChange)
           (mc : option checkpointKey) : Prop :=
  match mc with
  | None => forall key, ~ admissible config epochChanges key
  | Some k =>
      admissible config epochChanges k
      /\ forall key, admissible config epochChanges key ->
                     key = k \/ fst key < fst k
  end.

(** All epoch changes are for the same new epoch. *)
Definition same_new_epoch (epochChanges : gmap N parsedEpochChange) : Prop :=
  forall i j eci ecj,
    epochChanges !! i = Some eci -> epochChanges !! j = Some ecj ->
    EpochChange.NewEpoch (underlying eci) = EpochChange.NewEpoch (underlying ecj).

(** No two distinct keys that are admissible, by the count of listings,
    have the same sequence number. *)
Definition no_conflict (config : NetworkConfig.t)
           (epochChanges : gmap N parsedEpochChange) : Prop :=
  forall k1 k2,
    admissible config epochChanges k1 -> admissible config epochChanges k2 ->
    fst k1 = fst k2 -> k1 = k2.

(** The outcome of the first two loops of a run: the starting checkpoint
    chosen, none, or the panic. *)
Definition chosen (config : NetworkConfig.t) (o : rangeOrder)
           (epochChanges : gmap N parsedEpochChange)
  : result (option checkpointKey) :=
  let visit := rangeEpochChanges o (map_to_list epochChanges) in
  maxCheckpoint_loop config visit
    (rangeCheckpoints o (map_to_list (snd (collectCheckpoints visit)))) None.

(** A result with [Config.Number] replaced by [num]. *)
Definition with_number (num : N) (r : result (option NewEpochConfig.t))
  : result (option NewEpochConfig.t) :=
  match r with
  | Ok (Some c) =>
      Ok (Some
            (NewEpochConfig.mk
               (EpochConfig.mk
                  num
                  (EpochConfig.Leaders (NewEpochConfig.Config c))
                  (EpochConfig.PlannedExpiration (NewEpochConfig.Config c)))
               (NewEpochConfig.StartingCheckpoint c)
               (NewEpochConfig.FinalPreprepares c)))
  | _ => r
  end.

Definition conflict : string :=
  "two correct quorums have different checkpoints for same seqno".

End ConstructorSpec.

(** ** Concrete epoch changes: four nodes, one fault *)

Module ConstructorExamples.
Import ConstructorSpec.

Definition checkpoint (s : N) (v : string) : Checkpoint.t :=
  Checkpoint.mk s (Some v).

(** Modelled from the spec: the parser of epoch changes is outside the
    sources at hand.  The parsed form provides the low watermark, derived
    from the lowest checkpoint, and the maps [p_set: seq_no -> entry] and
    [q_set: seq_no -> (epoch -> digest)]. *)
Definition parse (epochChange : EpochChange.t) : parsedEpochChange :=
  {| underlying := epochChange;
     lowWatermark :=
       match map Checkpoint.SeqNo (EpochChange.Checkpoints epochChange) with
       | [] => 0
       | s :: rest => fold_right N.min s rest
       end;
     pSet :=
       list_to_map
         (map (fun e => (SetEntry.SeqNo e, e)) (EpochChange.PSet epochChange));
     qSet :=
       fold_right
         (fun e m =>
            <[SetEntry.SeqNo e :=
                <[SetEntry.Epoch e := SetEntry.Digest e]>
                  (default ∅ (m !! SetEntry.SeqNo e))]> m)
         ∅ (EpochChange.QSet epochChange) |}.

(** The candidate at sequence number 11: epoch 1, digest ["DD"]. *)
Definition candidate : SetEntry.t := SetEntry.mk 1 11 (Some "DD").

(** An epoch change for epoch 7 of a node whose log starts at checkpoint
    (5, "AA"), has checkpoint (10, "CC"), and that preprepared and prepared
    the candidate at 11. *)
Definition prepared_report : parsedEpochChange :=
  parse (EpochChange.mk 7 [checkpoint 5 "AA"; checkpoint 10 "CC"]
                        [candidate] [candidate]).

(** The same, of a node that preprepared the candidate at 11 but did not
    prepare it. *)
Definition preprepared_report : parsedEpochChange :=
  parse (EpochChange.mk 7 [checkpoint 5 "AA"; checkpoint 10 "CC"]
                        [] [candidate]).

(** An epoch change for epoch 7 of a node whose log starts at checkpoint
    (20, "EE"). *)
Definition ahead_report : parsedEpochChange :=
  parse (EpochChange.mk 7 [checkpoint 20 "EE"] [] []).

(** The same log, of a node that preprepared and prepared digest ["XX"] at
    11 in the later epoch 2. *)
Definition contradicting_report : parsedEpochChange :=
  parse (EpochChange.mk 7 [checkpoint 5 "AA"; checkpoint 10 "CC"]
                        [SetEntry.mk 2 11 (Some "XX")]
                        [SetEntry.mk 2 11 (Some "XX")]).

(** Nodes 0 and 1 prepared the candidate at 11, node 2 prepared another
    digest at 11 in a later epoch, and the low watermark of node 3 is 20,
    beyond sequence number 11. *)
Definition one_ahead : gmap N parsedEpochChange :=
  list_to_map
    [(0, prepared_report); (1, prepared_report);
     (2, contradicting_report); (3, ahead_report)].

(** All four nodes report checkpoints (5, "AA") and (10, "CC"); nodes 0, 1
    and 2 prepared the candidate at 11, node 3 preprepared it. *)
Definition three_prepared : gmap N parsedEpochChange :=
  list_to_map
    [(0, prepared_report); (1, prepared_report);
     (2, prepared_report); (3, preprepared_report)].

(** As [three_prepared], but node 0 sends its epoch change for epoch 8. *)
Definition mixed_epochs : gmap N parsedEpochChange :=
  <[0 := parse (EpochChange.mk 8 [checkpoint 5 "AA"; checkpoint 10 "CC"]
                               [candidate] [candidate])]>
    three_prepared.

(** Nodes 0 and 1 report checkpoints (10, "a") and (20, "c"), nodes 2 and 3
    report (10, "b"); every log reaches back to 10. *)
Definition shadowed_conflict : gmap N parsedEpochChange :=
  list_to_map
    [(0, parse (EpochChange.mk 7 [checkpoint 10 "a"; checkpoint 20 "c"] [] []));
     (1, parse (EpochChange.mk 7 [checkpoint 10 "a"; checkpoint 20 "c"] [] []));
     (2, parse (EpochChange.mk 7 [checkpoint 10 "b"] [] []));
     (3, parse (EpochChange.mk 7 [checkpoint 10 "b"] [] []))].

(** Nodes 0 and 1 report checkpoint (10, "a"), nodes 2 and 3 report
    (10, "b"); every log reaches back to 10. *)
Definition top_conflict : gmap N parsedEpochChange :=
  list_to_map
    [(0, parse (EpochChange.mk 7 [checkpoint 10 "a"] [] []));
     (1, parse (EpochChange.mk 7 [checkpoint 10 "a"] [] []));
     (2, parse (EpochChange.mk 7 [checkpoint 10 "b"] [] []));
     (3, parse (EpochChange.mk 7 [checkpoint 10 "b"] [] []))].

(** Four visiting orders: the maps front to back and back to front, and
    the checkpoints map with the keys of sequence number 20 and above
    first, or last. *)
Definition as_listed : rangeOrder :=
  mkRangeOrder (fun l => l) (fun l => l).

Definition backwards : rangeOrder :=
  mkRangeOrder (fun l => reverse l) (fun l => reverse l).

Definition top_first : rangeOrder :=
  mkRangeOrder
    (fun l => l)
    (fun l => filter (fun ks => 20 <= fst (fst ks)) l
              ++ filter (fun ks => ~ 20 <= fst (fst ks)) l).

Definition top_last : rangeOrder :=
  mkRangeOrder
    (fun l => l)
    (fun l => filter (fun ks => ~ 20 <= fst (fst ks)) l
              ++ filter (fun ks => 20 <= fst (fst ks)) l).

End ConstructorExamples.

(** ** Vocabulary for the shape of a new epoch configuration *)

Module ConstructorShape.
Import ConstructorSpec ConstructorExamples.

(** The sequence number of the slot at [offset] behind the checkpoint at
    sequence number [s]. *)
Definition slot_seqNo (s : N) (offset : nat) : N :=
  wrap64 (wrap64 (N.of_nat offset + s) + 1).

(** At least [k] of the epoch changes satisfy [P]. *)
Definition supported (epochChanges : gmap N parsedEpochChange) (k : Z)
           (P : parsedEpochChange -> Prop) : Prop :=
  exists nodes : list N,
    NoDup nodes
    /\ (k <= Z.of_nat (length nodes))%Z
    /\ forall i, i ∈ nodes -> exists ec, epochChanges !! i = Some ec /\ P ec.

(** What stands behind the digest [d] of a slot, in one of two ways: [d]
    is the digest (nil for a batch of no requests) of a P-set entry of a
    node of the configuration that meets conditions A1 and A2 at their
    thresholds; or [d] is nil and condition B is met at its threshold. *)
Definition slot_justified (config : NetworkConfig.t)
           (epochChanges : gmap N parsedEpochChange) (seqNo : N) (d : bytes)
  : Prop :=
  (exists nodeID ec entry,
      nodeID ∈ NetworkConfig.Nodes config
      /\ epochChanges !! nodeID = Some ec
      /\ pSet ec !! seqNo = Some entry
      /\ d = SetEntry.Digest entry
      /\ supported epochChanges (intersectionQuorum config) (A1 seqNo entry)
      /\ supported epochChanges (someCorrectQuorum config) (A2 seqNo entry))
  \/ (d = None
      /\ supported epochChanges (intersectionQuorum config) (B seqNo)).

(** What the loop over the offsets leaves at an offset it has visited:
    the digest of the selected entry, or what was there before if no entry
    is selected and condition B holds. *)
Definition filled (config : NetworkConfig.t)
           (epochChanges : gmap N parsedEpochChange)
           (visit : list (N * parsedEpochChange)) (maxSeqNo : N)
           (before : list bytes) (i : nat) (d : bytes) : Prop :=
  match selectEntry config epochChanges visit (NetworkConfig.Nodes config)
                    (slot_seqNo maxSeqNo i) with
  | Some entry => d = SetEntry.Digest entry
  | None =>
      before !! i = Some d
      /\ (intersectionQuorum config <= bCount visit (slot_seqNo maxSeqNo i))%Z
  end.

(** The epoch change lists [key] among its checkpoints. *)
Definition lists (key : checkpointKey) (ec : parsedEpochChange) : Prop :=
  key ∈ map key_of (EpochChange.Checkpoints (underlying ec)).

(** No epoch change lists the same checkpoint twice. *)
Definition no_duplicates (epochChanges : gmap N parsedEpochChange) : Prop :=
  forall nodeID ec,
    epochChanges !! nodeID = Some ec ->
    NoDup (map key_of (EpochChange.Checkpoints (underlying ec))).

(** Nodes 0, 1 and 2 report checkpoint (5, "AA"); node 3 alone reports
    (10, "x"), and lists it twice. *)
Definition listed_twice : gmap N parsedEpochChange :=
  list_to_map
    [(0, parse (EpochChange.mk 7 [checkpoint 5 "AA"] [] []));
     (1, parse (EpochChange.mk 7 [checkpoint 5 "AA"] [] []));
     (2, parse (EpochChange.mk 7 [checkpoint 5 "AA"] [] []));
     (3, parse (EpochChange.mk 7 [checkpoint 10 "x"; checkpoint 10 "x"] [] []))].

(** Epoch changes of nodes 0 and 1 only. *)
Definition two_reports : gmap N parsedEpochChange :=
  list_to_map [(0, prepared_report); (1, prepared_report)].

(** The configuration [three_prepared] leads to: epoch 7 starts behind
    checkpoint (10, "CC") and carries the candidate at 11 over. *)
Definition three_prepared_config : NewEpochConfig.t :=
  NewEpochConfig.mk
    (EpochConfig.mk 7 [0; 1] 110)
    (checkpoint 10 "CC")
    (Some "DD" :: replicate 9 None).

End ConstructorShape.

(** ** Vocabulary for the hash data *)

Module HashShape.

(** Every [uint64] field of the message is in range. *)
Definition in_range (epochChange : EpochChange.t) : Prop :=
  EpochChange.NewEpoch epochChange < 2 ^ 64
  /\ Forall (fun cp => Checkpoint.SeqNo cp < 2 ^ 64)
            (EpochChange.Checkpoints epochChange)
  /\ Forall (fun e => SetEntry.Epoch e < 2 ^ 64 /\ SetEntry.SeqNo e < 2 ^ 64)
            (EpochChange.PSet epochChange ++ EpochChange.QSet epochChange).

(** An epoch change for epoch 7 with one checkpoint, one P-set entry and
    one Q-set entry. *)
Definition sample : EpochChange.t :=
  EpochChange.mk 7 [Checkpoint.mk 10 (Some "CC")]
                 [SetEntry.mk 1 11 (Some "DD")]
                 [SetEntry.mk 1 12 (Some "EE")].

End HashShape.

(** ** Vocabulary for the life of a sequence *)

Module SequenceLife.
Import Sequence.

(** What identifies a slot and the node it lives on. *)
Definition header (s : sequence) :=
  (owner s, seqNo s, epoch s, myConfig_Id s, networkConfig s).

(** Calls made one after the other on a sequence, with the actions they
    return put together; a panic ends the run. *)
Fixpoint runs (calls : list call) (s : sequence) (acts : Actions)
  : result (sequence * Actions) :=
  match calls with
  | [] => Ok (s, acts)
  | c :: rest =>
      let* r := run c s in
      runs rest r.1 (concat acts r.2)
  end.

(** A Preprepare or Prepare sent. *)
Definition is_proposal (a : Action) : bool :=
  match a with
  | ActSend _ (Msg_Preprepare _) => true
  | ActSend _ (Msg_Prepare _) => true
  | _ => false
  end.

(** A Commit sent. *)
Definition is_commit (a : Action) : bool :=
  match a with
  | ActSend _ (Msg_Commit _) => true
  | _ => false
  end.

Definition is_hash (a : Action) : bool :=
  match a with
  | ActHash _ => true
  | _ => false
  end.

Definition proposals (acts : Actions) : nat :=
  length (List.filter is_proposal acts).

Definition commitsSent (acts : Actions) : nat :=
  length (List.filter is_commit acts).

(** 1 when the state of rank [k] lies ahead of [before] and not ahead of
    [after], else 0. *)
Definition crossed (k : nat) (before after : sequenceState) : nat :=
  if decide (rank before < k <= rank after)%nat then 1%nat else 0%nat.

(** What a pass of the drive loop leaves alone once the slot is
    preprepared: the batch, the Q entry and the outstanding requests. *)
Definition payload (s : sequence) := (batch s, qEntry s, outstandingReqs s).

(** Between [s] and [s'] the persisted log has grown by the Q entries [qs]
    followed by the P entries [ps], all for the slot of [s]: one Q entry
    if the slot became preprepared in between, one P entry if it became
    prepared. *)
Definition grown (s s' : sequence) : Prop :=
  exists qs ps,
    persistedLog s' = persistedLog s ++ map PersistQ qs ++ map PersistP ps
    /\ length qs = crossed 4 (state s) (state s')
    /\ length ps = crossed 5 (state s) (state s')
    /\ Forall (fun q => QEntry.SeqNo q = seqNo s) qs
    /\ Forall (fun p => PEntry.SeqNo p = seqNo s) ps.

(** Slot 1 of epoch 1 as node 0 creates it, for itself as the owner. *)
Definition fresh : sequence := newSequence 0 1 1 [] four_nodes 0.

(** A request waiting for the request with digest ["AA"]. *)
Definition ack_AA : RequestAck.t := RequestAck.mk None 0 (Some "AA").

End SequenceLife.

(** ** Vocabulary for the order in which the admitter releases messages *)

Module AdmitterSpec.
Import NodeMsgs NodeMsgsSpec NodeMsgsExamples.

(** The sequence number an ordering message carries. *)
Definition msg_seqNo (msg : Msg) : N :=
  match msg with
  | Msg_Preprepare m => Preprepare.SeqNo m
  | Msg_Prepare m => Prepare.SeqNo m
  | Msg_Commit m => Commit.SeqNo m
  | Msg_Checkpoint m => Checkpoint.SeqNo m
  | _ => 0
  end.

(** [msg] is what a peer sends to propose in [bucket] in [epoch]: a
    Preprepare if the peer leads the bucket, a Prepare if it does not. *)
Definition proposal_in (leader : bool) (bucket epoch : N) (msg : Msg) : Prop :=
  match msg with
  | Msg_Preprepare m =>
      leader = true /\ Preprepare.Bucket m = bucket /\ Preprepare.Epoch m = epoch
  | Msg_Prepare m =>
      leader = false /\ Prepare.Bucket m = bucket /\ Prepare.Epoch m = epoch
  | _ => False
  end.

(** The sequence numbers [first], [first + 1], ..., [k] of them. *)
Definition run_from (first : N) (k : nat) : list N :=
  map (fun i => first + N.of_nat i) (seq 0 k).

(** [k] calls of [next], with the messages they return, in order; the
    calls stop when [next] returns nil or panics.  The buffer is a map, so
    each call visits it in an order of its own: [visit i] is the order
    taken by the call that has [i] calls behind it to come. *)
Fixpoint drain (visit : nat -> list Msg -> list Msg) (k : nat) (n : nodeMsgs)
  : nodeMsgs * list Msg :=
  match k with
  | O => (n, [])
  | S k' =>
      match next (set_buffer (visit k' (buffer n)) n) with
      | (n', Ok (Some msg)) =>
          let '(n'', l) := drain visit k' n' in (n'', msg :: l)
      | (n', _) => (n', [])
      end
  end.

(** How [process] classifies [msg] in state [n]. *)
Definition classified (a : applyable) (n : nodeMsgs) (msg : Msg) : bool :=
  match (process n msg).2 with
  | Ok b => bool_decide (a = b)
  | Panic _ => false
  end.

(** The messages that [next] leaves in the buffer when it meets them. *)
Definition held (n : nodeMsgs) (msg : Msg) : bool :=
  classified future n msg || classified invalid n msg.

(** The same message processed a second time, right after the first. *)
Definition replay (n : nodeMsgs) (msg : Msg) : nodeMsgs * result applyable :=
  process (process n msg).1 msg.

(** Peer 0 with its preprepares for 3, 1 and 2 buffered, in this order. *)
Definition out_of_order : nodeMsgs :=
  ingest (ingest (ingest leader_peer (preprepare_at 1 3)) (preprepare_at 1 1))
         (preprepare_at 1 2).

(** Peer 0 after its preprepare for 1 has been accepted. *)
Definition one_preprepared : nodeMsgs :=
  (process leader_peer (preprepare_at 1 1)).1.

End AdmitterSpec.

(** ** Vocabulary for the event log *)

Module EventLogSpec.
Import Interfaces EventLog.

(** The events are in the order of their times, and none is from before
    the current time of the log. *)
Definition in_order {SE R M W : Type} (l : EventLog SE R M W) : Prop :=
  StronglySorted (fun a b => (RecordedEvent.Time a <= RecordedEvent.Time b)%Z)
                 (List l)
  /\ Forall (fun e => (FakeTime l <= RecordedEvent.Time e)%Z) (List l).

(** The log with no events, at time 0. *)
Definition empty {SE R M W : Type} (rand : option R) (mangler : option M)
           (output : option W) : EventLog SE R M W :=
  {| List := []; LastConsumed := None; FakeTime := 0%Z;
     Rand := rand; Mangler := mangler; Output := output |}.

Section Runs.

Context {SE R M W E : Type}.
Context `{rand_impl : !RandSource R, mangler_impl : !Interfaces.Mangler SE M,
          writer_impl : !EventWriter SE W E}.

(** The logs that inserting and reading events bring about, starting from
    the log with no events. *)
Inductive log_reachable : EventLog SE R M W -> Prop :=
| reach_empty rand mangler output :
    log_reachable (empty rand mangler output)
| reach_Insert l event :
    log_reachable l -> log_reachable (Insert l event).1
| reach_InsertStateEvent l target stateEvent fromNow :
    log_reachable l ->
    log_reachable (InsertStateEvent l target stateEvent fromNow).1
| reach_ReadEvent l :
    log_reachable l -> log_reachable (ReadEvent (E := E) l).1.

(** [k] calls of [ReadEvent], with the events they return, in order; the
    calls stop at the first error. *)
Fixpoint readEvents (k : nat) (l : EventLog SE R M W)
  : EventLog SE R M W * list (RecordedEvent.t SE) :=
  match k with
  | O => (l, [])
  | S k' =>
      match ReadEvent (E := E) l with
      | (l', inl event) =>
          let '(l'', events) := readEvents k' l' in (l'', event :: events)
      | (l', inr _) => (l', [])
      end
  end.

End Runs.

End EventLogSpec.

(** ** Concrete event logs *)

Module EventLogExamples.
Import Interfaces EventLog EventLogSpec.

(** Tick events for node 0; the generator always returns 0, the writer
    never fails, and the mangler doubles an event: the event itself and a
    copy ten units of time later. *)
Definition tick (t : Z) : RecordedEvent.t (StateEvent unit unit) :=
  RecordedEvent.mk 0 t StateEvent_Tick.

#[export] Instance constant_rand : RandSource unit :=
  fun r => (0%Z, r).

#[export] Instance doubling : Interfaces.Mangler (StateEvent unit unit) unit :=
  fun m _ event =>
    (m, [event;
         RecordedEvent.mk (RecordedEvent.NodeId event)
                          (RecordedEvent.Time event + 10)
                          (RecordedEvent.StateEvent event)]).

#[export] Instance sound_writer : EventWriter (StateEvent unit unit) unit unit :=
  fun w _ => (w, None).

(** A log at time 0 that holds ticks at times 5 and 7, without a mangler
    and with one. *)
Definition two_ticks : EventLog (StateEvent unit unit) unit unit unit :=
  {| List := [tick 5; tick 7]; LastConsumed := None; FakeTime := 0%Z;
     Rand := None; Mangler := None; Output := None |}.

Definition two_ticks_mangled : EventLog (StateEvent unit unit) unit unit unit :=
  {| List := [tick 5; tick 7]; LastConsumed := None; FakeTime := 0%Z;
     Rand := Some tt; Mangler := Some tt; Output := None |}.

End EventLogExamples.

(** * Properties *)

(** ** The sequence state machine *)

Module SequenceFacts.
Import Sequence SequenceSpec SequenceExamples.

Ltac unfold_body :=
  unfold advanceState_body, checkRequests, prepare, checkPrepareQuorum,
    checkCommitQuorum, addQEntry, addPEntry in *.

Lemma body_frame s : frame (advanceState_body s).1 = frame s.
Proof.
  unfold_body. destruct (state s); repeat case_match; reflexivity.
Qed.

Lemma body_rank s :
  state (advanceState_body s).1 = state s
  \/ (rank (state s) < rank (state (advanceState_body s).1))%nat.
Proof.
  unfold_body.
  destruct (state s) eqn:E; repeat case_match; simpl; rewrite ?E; simpl;
    auto; right; lia.
Qed.

Lemma body_prepared s :
  reached sequencePrepared (state (advanceState_body s).1) ->
  reached sequencePrepared (state s) \/ prepareQuorum s.
Proof.
  unfold reached, prepareQuorum. unfold_body.
  destruct (state s) eqn:E; repeat case_match; simpl; rewrite ?E; simpl;
    try lia; intros _; right.
  all: match goal with
       | H : negb (bool_decide _) = false |- _ =>
           apply negb_false_iff, bool_decide_eq_true in H
       end.
  all: split; [assumption | lia].
Qed.

Lemma body_committed s :
  reached sequenceCommitted (state (advanceState_body s).1) ->
  reached sequenceCommitted (state s) \/ commitQuorum s.
Proof.
  unfold reached, commitQuorum. unfold_body.
  destruct (state s) eqn:E; repeat case_match; simpl; rewrite ?E; simpl;
    try lia; intros _; right.
  all: match goal with
       | H : negb (bool_decide _) = false |- _ =>
           apply negb_false_iff, bool_decide_eq_true in H
       end.
  all: split; [assumption | lia].
Qed.

Lemma frame_prepareQuorum s1 s2 :
  frame s1 = frame s2 -> prepareQuorum s1 -> prepareQuorum s2.
Proof.
  unfold frame, prepareQuorum. intros H. injection H as _ Hid Hnc Hd Hp _.
  rewrite Hid, Hnc, Hd, Hp. auto.
Qed.

Lemma frame_commitQuorum s1 s2 :
  frame s1 = frame s2 -> commitQuorum s1 -> commitQuorum s2.
Proof.
  unfold frame, commitQuorum. intros H. injection H as _ Hid Hnc Hd _ Hc.
  rewrite Hid, Hnc, Hd, Hc. auto.
Qed.

Lemma rank_le_6 st : (rank st <= 6)%nat.
Proof. destruct st; simpl; lia. Qed.

Lemma loop_unfold n s a :
  advanceState_loop (S n) s a =
    if decide (state (advanceState_body s).1 = state s)
    then ((advanceState_body s).1, concat a (advanceState_body s).2)
    else advanceState_loop n (advanceState_body s).1
                           (concat a (advanceState_body s).2).
Proof. simpl. destruct (advanceState_body s); reflexivity. Qed.

Lemma loop_frame n : forall s a, frame (advanceState_loop n s a).1 = frame s.
Proof.
  induction n as [|n IH]; intros s a; [reflexivity|].
  rewrite loop_unfold. case_decide.
  - apply body_frame.
  - rewrite IH. apply body_frame.
Qed.

Lemma loop_prepared n : forall s a,
  reached sequencePrepared (state (advanceState_loop n s a).1) ->
  reached sequencePrepared (state s) \/ prepareQuorum s.
Proof.
  induction n as [|n IH]; intros s a; [simpl; auto|].
  rewrite loop_unfold. case_decide.
  - apply body_prepared.
  - intros H'. destruct (IH _ _ H') as [Hr|Hq].
    + apply body_prepared, Hr.
    + right. eapply frame_prepareQuorum; [apply body_frame | exact Hq].
Qed.

Lemma loop_committed n : forall s a,
  reached sequenceCommitted (state (advanceState_loop n s a).1) ->
  reached sequenceCommitted (state s) \/ commitQuorum s.
Proof.
  induction n as [|n IH]; intros s a; [simpl; auto|].
  rewrite loop_unfold. case_decide.
  - apply body_committed.
  - intros H'. destruct (IH _ _ H') as [Hr|Hq].
    + apply body_committed, Hr.
    + right. eapply frame_commitQuorum; [apply body_frame | exact Hq].
Qed.

(** Once the fuel exceeds the number of states still ahead, more fuel
    changes nothing: the loop has stopped by itself. *)
Lemma advanceState_loop_fuel n : forall s a,
  (6 - rank (state s) < n)%nat ->
  advanceState_loop (S n) s a = advanceState_loop n s a.
Proof.
  induction n as [|n IH]; intros s a Hn; [lia|].
  rewrite (loop_unfold (S n) s a), (loop_unfold n s a).
  case_decide; [reflexivity|].
  apply IH. destruct (body_rank s) as [He|Hlt]; [congruence|].
  pose proof (rank_le_6 (state (advanceState_body s).1)). lia.
Qed.

Lemma advanceState_enough_fuel n s :
  (7 <= n)%nat -> advanceState_loop n s [] = advanceState s.
Proof.
  unfold advanceState. induction 1 as [|m Hm IH]; [reflexivity|].
  rewrite advanceState_loop_fuel; [exact IH|]. lia.
Qed.


Lemma advanceState_frame s : frame (advanceState s).1 = frame s.
Proof. apply loop_frame. Qed.

(** What a call leaves in place before it drives the state machine: the
    sequence [pre] on which [advanceState] is run. *)
Lemma run_drives c s s' acts :
  run c s = Ok (s', acts) ->
  exists pre,
    s' = (advanceState pre).1
    /\ (rank (state pre) <= Nat.max 3 (rank (state s)))%nat.
Proof.
  intros H.
  destruct c; simpl in H; unfold allocateAsOwner, allocate,
    satisfyOutstanding, applyBatchHashResult, applyPrepareMsg,
    applyCommitMsg in H; repeat case_match; try discriminate;
    injection H as H; try injection H as <- <-; subst.
  all: match goal with
       | H : advanceState ?X = _ |- _ => exists X; rewrite H
       end; simpl; split; [reflexivity | lia].
Qed.

Lemma body_view s1 s2 :
  view s1 = view s2 ->
  view (advanceState_body s1).1 = view (advanceState_body s2).1.
Proof.
  unfold view. intros H. injection H as Hst Hd Hid Hnc Hb Ho Hp Hc.
  rewrite Hd in Hp, Hc. unfold_body. rewrite Hst.
  destruct (state s2) eqn:E; simpl;
    rewrite ?Hd, ?Hid, ?Hnc, ?Hb, ?Ho, ?Hp, ?Hc;
    repeat case_match; simpl;
    rewrite ?Hst, ?E, ?Hd, ?Hid, ?Hnc, ?Hb, ?Ho, ?Hp, ?Hc; reflexivity.
Qed.

Lemma loop_view n : forall s1 s2 a1 a2,
  view s1 = view s2 ->
  view (advanceState_loop n s1 a1).1 = view (advanceState_loop n s2 a2).1.
Proof.
  induction n as [|n IH]; intros s1 s2 a1 a2 H; [exact H|].
  rewrite !loop_unfold.
  pose proof (body_view _ _ H) as Hb.
  assert (Hs : state s1 = state s2) by (unfold view in H; congruence).
  assert (Hs' : state (advanceState_body s1).1 = state (advanceState_body s2).1)
    by (unfold view in Hb; congruence).
  rewrite Hs, Hs'. case_decide; [exact Hb | apply IH, Hb].
Qed.

Lemma tally_insert_ne (m : gmap string (gset N)) d d' v :
  bytes_string d <> bytes_string d' ->
  tally (<[bytes_string d := v]> m) d' = tally m d'.
Proof. intros H. unfold tally. rewrite lookup_insert_ne; [reflexivity | exact H]. Qed.

Lemma tally_insert_eq (m : gmap string (gset N)) d v :
  tally (<[bytes_string d := v]> m) d = v.
Proof. unfold tally. rewrite lookup_insert_eq. reflexivity. Qed.

(** C1.  Quorum safety of the sequence state machine.  Whatever call is
    made on whatever sequence, if the call returns and the sequence was not
    yet Prepared before it and is Prepared (or beyond) after it, then the
    local node's id is in [prepares] under the sequence's own digest and
    that set holds at least [intersectionQuorum] nodes; likewise for
    Committed and [commits].  A prepare or commit vote recorded under a
    digest other than the sequence's own leaves the state exactly where a
    plain drive of the state machine would leave it. *)
Theorem quorum_safety (c : call) (s s' : sequence) (acts : Actions) :
  run c s = Ok (s', acts) ->
  (~ reached sequencePrepared (state s) ->
   reached sequencePrepared (state s') -> prepareQuorum s')
  /\ (~ reached sequenceCommitted (state s) ->
      reached sequenceCommitted (state s') -> commitQuorum s')
  /\ (forall source d,
        bytes_string d <> bytes_string (digest s) ->
        c = CallApplyPrepareMsg source d \/ c = CallApplyCommitMsg source d ->
        state s' = state (advanceState s).1).
Proof.
  intros Hrun. destruct (run_drives _ _ _ _ Hrun) as (pre & -> & Hpre).
  split; [|split].
  - intros Hnot Hreached.
    destruct (loop_prepared _ _ _ Hreached) as [Hr|Hq].
    + unfold reached in *. simpl in *. lia.
    + eapply frame_prepareQuorum; [|exact Hq].
      symmetry. apply advanceState_frame.
  - intros Hnot Hreached.
    destruct (loop_committed _ _ _ Hreached) as [Hr|Hq].
    + unfold reached in *. simpl in *. lia.
    + eapply frame_commitQuorum; [|exact Hq].
      symmetry. apply advanceState_frame.
  - intros source d Hd [-> | ->]; simpl in Hrun; injection Hrun as Hrun;
      unfold applyPrepareMsg, applyCommitMsg in Hrun.
    all: match type of Hrun with
         | advanceState ?X = _ =>
             assert (Hv : view X = view s)
               by (unfold view; simpl; rewrite ?tally_insert_ne by exact Hd;
                   reflexivity);
             pose proof (loop_view 7 X s [] [] Hv) as Hl;
             fold (advanceState X) in Hl; fold (advanceState s) in Hl;
             rewrite Hrun in Hl; unfold view in Hl; simpl in Hl; congruence
         end.
Qed.

(** At four nodes with one fault, the local node's own prepare on top of
    the prepares of nodes 1 and 2 carries the slot to Prepared. *)
Lemma quorum_safety_witness :
  run (CallApplyPrepareMsg 0 (Some "BB")) two_prepares
  = Ok ((applyPrepareMsg two_prepares 0 (Some "BB")).1,
        (applyPrepareMsg two_prepares 0 (Some "BB")).2)
  /\ ~ reached sequencePrepared (state two_prepares)
  /\ reached sequencePrepared
       (state (applyPrepareMsg two_prepares 0 (Some "BB")).1)
  /\ prepareQuorum (applyPrepareMsg two_prepares 0 (Some "BB")).1.
Proof.
  assert (Hrun : run (CallApplyPrepareMsg 0 (Some "BB")) two_prepares
                 = Ok ((applyPrepareMsg two_prepares 0 (Some "BB")).1,
                       (applyPrepareMsg two_prepares 0 (Some "BB")).2))
    by (vm_compute; reflexivity).
  assert (Hbefore : ~ reached sequencePrepared (state two_prepares))
    by (unfold reached; simpl; lia).
  assert (Hafter : reached sequencePrepared
                     (state (applyPrepareMsg two_prepares 0 (Some "BB")).1))
    by (unfold reached; vm_compute; lia).
  repeat split; try assumption;
    apply (proj1 (quorum_safety _ _ _ _ Hrun) Hbefore Hafter).
Defined.

(** ** [applyBatchHashResult] *)

(** C7, as stated, fails.  At a follower (local node 0, slot owned by node
    1) the hash result ["BB"] leaves the local node's id out of
    [prepares["BB"]], and the tallies differ from those the local node's
    own prepare for ["BB"] produces. *)
Lemma applyBatchHashResult_not_own_prepare :
  (myConfig_Id follower_ready
     ∉ tally (prepares (applyBatchHashResult follower_ready (Some "BB")).1)
             (Some "BB"))
  /\ prepares (applyBatchHashResult follower_ready (Some "BB")).1
     <> prepares (applyPrepareMsg (set_digest (Some "BB") follower_ready)
                                 (myConfig_Id follower_ready) (Some "BB")).1.
Proof.
  split.
  - vm_compute. intros H. discriminate H.
  - intros H.
    assert (H' : tally (prepares (applyBatchHashResult
                                    follower_ready (Some "BB")).1)
                       (Some "BB")
                 = tally (prepares (applyPrepareMsg
                                      (set_digest (Some "BB") follower_ready)
                                      (myConfig_Id follower_ready)
                                      (Some "BB")).1)
                         (Some "BB"))
      by (rewrite H; reflexivity).
    vm_compute in H'. discriminate H'.
Qed.

(** C7, amended.  [applyBatchHashResult s d] stores [d] as the digest and
    is the call [applyPrepareMsg] with the slot's owner as the source: it
    adds the owner's id to [prepares] under [d], leaves every other tally
    as it was, and the local node's id is under [d] afterwards exactly when
    the local node is the owner or was recorded there before. *)
Theorem applyBatchHashResult_records_owner (s : sequence) (d : bytes) :
  applyBatchHashResult s d = applyPrepareMsg (set_digest d s) (owner s) d
  /\ digest (applyBatchHashResult s d).1 = d
  /\ prepares (applyBatchHashResult s d).1
     = <[bytes_string d := {[owner s]} ∪ tally (prepares s) d]> (prepares s)
  /\ commits (applyBatchHashResult s d).1 = commits s
  /\ owner s ∈ tally (prepares (applyBatchHashResult s d).1) d
  /\ (myConfig_Id s ∈ tally (prepares (applyBatchHashResult s d).1) d
      <-> myConfig_Id s = owner s \/ myConfig_Id s ∈ tally (prepares s) d).
Proof.
  assert (Hf : frame (applyBatchHashResult s d).1
               = frame (set_prepares
                          (<[bytes_string d := {[owner s]} ∪ tally (prepares s) d]>
                             (prepares s))
                          (set_digest d s)))
    by apply advanceState_frame.
  unfold frame in Hf. simpl in Hf. injection Hf as _ _ _ Hd Hp Hc.
  split; [reflexivity|]. split; [exact Hd|]. split; [exact Hp|].
  split; [exact Hc|]. rewrite Hp, tally_insert_eq. split; set_solver.
Qed.

End SequenceFacts.

(** ** The per-peer admitter *)

Module NodeMsgsFacts.
Import NodeMsgs NodeMsgsSpec NodeMsgsExamples.

(** *** Classification by epoch *)

(** What [process] does with a message that carries an epoch: it is past
    when the current epoch number is below the message's epoch, future when
    the current epoch number is above it, and goes to the bucket classifier
    only when the two are equal. *)
Lemma process_by_epoch (n : nodeMsgs) (msg : Msg) (epoch : N) :
  process_epoch n msg = inl epoch ->
  (number (EpochMsgs.config (epochMsgs n)) < epoch ->
   process n msg = (n, Ok past))
  /\ (epoch < number (EpochMsgs.config (epochMsgs n)) ->
      process n msg = (n, Ok future))
  /\ (epoch = number (EpochMsgs.config (epochMsgs n)) ->
      process n msg
      = (set_epochMsgs (EpochMsgs.process (epochMsgs n) msg).1 n,
         (EpochMsgs.process (epochMsgs n) msg).2)).
Proof.
  intros H. unfold process. rewrite H.
  split; [|split]; intros Hc.
  - apply N.ltb_lt in Hc. rewrite Hc. reflexivity.
  - assert (Hn : (number (EpochMsgs.config (epochMsgs n)) <? epoch) = false)
      by (apply N.ltb_ge; lia).
    apply N.ltb_lt in Hc. rewrite Hn, Hc. reflexivity.
  - subst epoch. rewrite N.ltb_irrefl.
    destruct (EpochMsgs.process (epochMsgs n) msg); reflexivity.
Qed.

(** C2, on the code.  With the admitter in epoch 1, a Preprepare of epoch 0
    (strictly less than the current epoch) is classified as future and
    stays buffered, and a Preprepare of epoch 2 (strictly greater) is
    classified as past and dropped by [next] as already processed: the two
    comparisons of [process] are the wrong way round. *)
Theorem process_epoch_comparison_swapped :
  process leader_peer (preprepare_at 0 1) = (leader_peer, Ok future)
  /\ process leader_peer (preprepare_at 2 1) = (leader_peer, Ok past)
  /\ next (ingest leader_peer (preprepare_at 0 1))
     = (ingest leader_peer (preprepare_at 0 1), Ok None)
  /\ next (ingest leader_peer (preprepare_at 2 1))
     = (record_oddity (alreadyProcessed 0 (preprepare_at 2 1)) leader_peer,
        Ok None).
Proof. repeat split; reflexivity. Qed.

(** *** Unknown message types *)

(** C8, on the code.  A message that is none of the eight variants is
    reported to the oddities recorder, and then [process] panics. *)
Theorem process_unknown_type_panics (n : nodeMsgs) :
  process n Msg_None
  = (record_oddity (invalidMessage (id n) Msg_None) n,
     Panic "unknown message type").
Proof. reflexivity. Qed.

(** The panic goes through [next] as well. *)
Lemma next_unknown_type_panics :
  (next (ingest leader_peer Msg_None)).2 = Panic "unknown message type".
Proof. reflexivity. Qed.

(** *** Checkpoints *)

(** C6, on the code.  After the preprepares and commits for 1 to 4, the
    next checkpoint is 5 and the commit cursor of the only bucket is 5:
    the commit for 5 has not been accepted, and [status] reports 4 as the
    last commit.  The Checkpoint at 5 is classified as current all the
    same, and [next] releases it. *)
Theorem checkpoint_released_at_commit_cursor :
  nextCheckpoint four_committed = 5
  /\ EpochMsgs.next (epochMsgs four_committed) !! 0
     = Some {| leader := true; prepare := 5; commit := 5 |}
  /\ status four_committed
     = Ok {| ID := 0;
             BucketStatuses :=
               [{| BucketID := 0; IsLeader := true; LastPrepare := 4;
                   LastCommit := 4; LastCheckpoint := 0 |}] |}
  /\ (process four_committed (checkpoint_at 5)).2 = Ok current
  /\ (next (ingest four_committed (checkpoint_at 5))).2
     = Ok (Some (checkpoint_at 5)).
Proof. repeat split; vm_compute; reflexivity. Qed.

(** The gate the code applies: the Checkpoint at the expected sequence
    number is current as soon as no bucket's commit cursor is below it. *)
Lemma processCheckpoint_current (n : nodeMsgs) (msg : Checkpoint.t) :
  (processCheckpoint n msg).2 = current
  <-> checkpoint_due n (Checkpoint.SeqNo msg).
Proof.
  unfold processCheckpoint, checkpoint_due.
  destruct (N.ltb_spec (Checkpoint.SeqNo msg) (nextCheckpoint n)) as [Hlt|Hge].
  { simpl. split; [discriminate | intros [He _]; lia]. }
  destruct (N.eqb_spec (nextCheckpoint n) (Checkpoint.SeqNo msg)) as [He|Hne];
    [|simpl; split; [discriminate | intros [He _]; contradiction]].
  destruct (existsb _ _) eqn:Hex; simpl.
  - split; [discriminate|]. intros [_ Hall].
    apply existsb_exists in Hex. destruct Hex as ([b nx] & Hin & Hlt).
    apply list_elem_of_In, elem_of_map_to_list in Hin.
    apply Hall in Hin. simpl in Hlt. apply N.ltb_lt in Hlt. lia.
  - split; [|reflexivity]. intros _. split; [exact He|].
    intros b nx Hb. destruct (N.le_gt_cases (Checkpoint.SeqNo msg) (commit nx))
      as [Hle|Hgt]; [exact Hle|].
    exfalso. apply not_true_iff_false in Hex. apply Hex.
    apply existsb_exists. exists (b, nx). split.
    + apply list_elem_of_In, elem_of_map_to_list, Hb.
    + simpl. apply N.ltb_lt. lia.
Qed.

(** A message that is not classified as current leaves the cursors and the
    expected checkpoint where they were. *)
Lemma process_not_current (n : nodeMsgs) (msg : Msg) :
  (process n msg).2 <> Ok current ->
  epochMsgs (process n msg).1 = epochMsgs n
  /\ nextCheckpoint (process n msg).1 = nextCheckpoint n.
Proof.
  unfold process, process_epoch, processCheckpoint,
    EpochMsgs.process, EpochMsgs.processPreprepare,
    EpochMsgs.processPrepare, EpochMsgs.processCommit.
  destruct msg; simpl; repeat case_match; simplify_eq; simpl;
    intros Hne; try (split; reflexivity); destruct (Hne eq_refl).
Qed.

(** What [next] returns was classified as current by [process] in a state
    with the cursors and the expected checkpoint of the state [next]
    started from. *)
Lemma next_loop_released pending : forall kept n msg,
  (next_loop pending kept n).2 = Ok (Some msg) ->
  exists n',
    epochMsgs n' = epochMsgs n /\ nextCheckpoint n' = nextCheckpoint n
    /\ (process n' msg).2 = Ok current.
Proof.
  induction pending as [|m rest IH]; intros kept n msg; simpl; [discriminate|].
  pose proof (process_not_current n m) as Hsame.
  destruct (process n m) as [n1 r] eqn:Hp. simpl in Hsame.
  assert (Hcont : forall kept' o,
             r <> Ok current ->
             (next_loop rest kept' (o n1)).2 = Ok (Some msg) ->
             epochMsgs (o n1) = epochMsgs n1 ->
             nextCheckpoint (o n1) = nextCheckpoint n1 ->
             exists n',
               epochMsgs n' = epochMsgs n /\ nextCheckpoint n' = nextCheckpoint n
               /\ (process n' msg).2 = Ok current).
  { intros kept' o Hr Hnext He Hc. destruct (Hsame Hr) as [He1 Hc1].
    destruct (IH _ _ _ Hnext) as (n' & He' & Hc' & Hcur).
    exists n'. split; [congruence|]. split; [congruence | exact Hcur]. }
  destruct r as [[| | |]|e].
  - intros Hnext.
    apply (Hcont kept (record_oddity (alreadyProcessed (id n1) m)));
      [discriminate | exact Hnext | reflexivity | reflexivity].
  - simpl. intros [= <-]. exists n. rewrite Hp. auto.
  - intros Hnext.
    apply (Hcont (m :: kept) (fun x => x));
      [discriminate | exact Hnext | reflexivity | reflexivity].
  - intros Hnext.
    apply (Hcont (m :: kept) (fun x => x));
      [discriminate | exact Hnext | reflexivity | reflexivity].
  - simpl. discriminate.
Qed.

(** X23.  The gate as the code has it.  A Checkpoint at [s] is never
    classified as current, and hence never released by [next], while some
    bucket's commit cursor is below [s]: it is current exactly when [s] is
    the expected checkpoint and every bucket's commit cursor is at least
    [s]. *)
Lemma checkpoint_gate (n : nodeMsgs) (m : Checkpoint.t) :
  ((process n (Msg_Checkpoint m)).2 = Ok current
   <-> checkpoint_due n (Checkpoint.SeqNo m))
  /\ ((next n).2 = Ok (Some (Msg_Checkpoint m)) ->
      checkpoint_due n (Checkpoint.SeqNo m))
  /\ ((exists bucket nx,
         EpochMsgs.next (epochMsgs n) !! bucket = Some nx
         /\ commit nx < Checkpoint.SeqNo m) ->
      (process n (Msg_Checkpoint m)).2 <> Ok current
      /\ (next n).2 <> Ok (Some (Msg_Checkpoint m))).
Proof.
  assert (Hproc : forall n',
             (process n' (Msg_Checkpoint m)).2 = Ok current
             <-> checkpoint_due n' (Checkpoint.SeqNo m)).
  { intros n'. rewrite <- processCheckpoint_current.
    unfold process. simpl. destruct (processCheckpoint n' m) as [n1 a].
    simpl. split; [intros [= ->]; reflexivity | intros ->; reflexivity]. }
  assert (Hnext : (next n).2 = Ok (Some (Msg_Checkpoint m)) ->
                  checkpoint_due n (Checkpoint.SeqNo m)).
  { intros Hrel. unfold next in Hrel.
    destruct (next_loop_released _ _ _ _ Hrel) as (n' & He & Hc & Hcur).
    apply Hproc in Hcur. unfold checkpoint_due in *.
    rewrite <- He, <- Hc. exact Hcur. }
  split; [apply Hproc|]. split; [exact Hnext|].
  intros (bucket & nx & Hb & Hlt).
  assert (Hnot : ~ checkpoint_due n (Checkpoint.SeqNo m)).
  { intros [_ Hall]. specialize (Hall _ _ Hb). lia. }
  split; intros H; apply Hnot; [apply Hproc, H | apply Hnext, H].
Qed.

(** The fresh admitter for peer 0 has its commit cursor at 1, below 5: the
    Checkpoint at 5 is not released.  After the commits for 1 to 4 it is. *)
Lemma checkpoint_gate_example :
  (exists bucket nx,
     EpochMsgs.next (epochMsgs leader_peer) !! bucket = Some nx
     /\ commit nx < 5)
  /\ (process leader_peer (checkpoint_at 5)).2 <> Ok current
  /\ (process four_committed (checkpoint_at 5)).2 = Ok current
  /\ checkpoint_due four_committed 5.
Proof.
  assert (Hbelow : exists bucket nx,
             EpochMsgs.next (epochMsgs leader_peer) !! bucket = Some nx
             /\ commit nx < 5).
  { exists 0, {| leader := true; prepare := 1; commit := 1 |}.
    split; [vm_compute; reflexivity | reflexivity]. }
  assert (Hcur : (process four_committed (checkpoint_at 5)).2 = Ok current)
    by (vm_compute; reflexivity).
  split; [exact Hbelow|]. split; [|split; [exact Hcur|]].
  - exact (proj1 (proj2 (proj2 (checkpoint_gate
                                  leader_peer (Checkpoint.mk 5 (Some "CC"))))
                        Hbelow)).
  - exact (proj1 (proj1 (checkpoint_gate
                           four_committed (Checkpoint.mk 5 (Some "CC"))))
                 Hcur).
Defined.

(** *** The cursors of a bucket *)

Ltac unchanged :=
  left; split;
  [reflexivity
  | intros ? Hm; first [discriminate Hm | intros Hr; discriminate Hr]].

(** What [process] can do to the cursors: nothing; or accept the Preprepare
    or Prepare at the prepare cursor of its bucket; or accept the Commit at
    the commit cursor of its bucket, the prepare cursor being ahead. *)
Lemma process_cases (n : nodeMsgs) (msg : Msg) :
  (epochMsgs (process n msg).1 = epochMsgs n
   /\ forall m, msg = Msg_Commit m -> (process n msg).2 <> Ok current)
  \/ (exists bucket nx,
        EpochMsgs.next (epochMsgs n) !! bucket = Some nx
        /\ prepared_at bucket (prepare nx) msg
        /\ (process n msg).2 = Ok current
        /\ epochMsgs (process n msg).1 = prepare_step (epochMsgs n) bucket nx)
  \/ (exists m nx,
        msg = Msg_Commit m
        /\ EpochMsgs.next (epochMsgs n) !! Commit.Bucket m = Some nx
        /\ commit nx = Commit.SeqNo m
        /\ commit nx < prepare nx
        /\ (process n msg).2 = Ok current
        /\ epochMsgs (process n msg).1
           = commit_step (epochMsgs n) (Commit.Bucket m) nx).
Proof.
  unfold process.
  destruct msg as [m|m|m|m|m|m|m|m|]; simpl.
  - (* Preprepare *)
    destruct (_ <? Preprepare.Epoch m); [unchanged|].
    destruct (Preprepare.Epoch m <? _); [unchanged|].
    unfold EpochMsgs.processPreprepare.
    destruct (EpochMsgs.next (epochMsgs n) !! Preprepare.Bucket m)
      as [nx|] eqn:Hb; [|unchanged].
    destruct (negb (leader nx)); [unchanged|].
    destruct (Preprepare.SeqNo m <? prepare nx); [unchanged|].
    destruct (N.eqb_spec (prepare nx) (Preprepare.SeqNo m)) as [He|_];
      [|unchanged].
    right; left. exists (Preprepare.Bucket m), nx. rewrite <- He.
    simpl. auto.
  - (* Prepare *)
    destruct (_ <? Prepare.Epoch m); [unchanged|].
    destruct (Prepare.Epoch m <? _); [unchanged|].
    unfold EpochMsgs.processPrepare.
    destruct (EpochMsgs.next (epochMsgs n) !! Prepare.Bucket m)
      as [nx|] eqn:Hb; [|unchanged].
    destruct (leader nx) eqn:Hl; [unchanged|].
    destruct (Prepare.SeqNo m <? prepare nx); [unchanged|].
    destruct (N.eqb_spec (prepare nx) (Prepare.SeqNo m)) as [He|_];
      [|unchanged].
    right; left. exists (Prepare.Bucket m), nx. rewrite <- He.
    unfold prepare_step. rewrite Hl. simpl. auto.
  - (* Commit *)
    destruct (_ <? Commit.Epoch m); [unchanged|].
    destruct (Commit.Epoch m <? _); [unchanged|].
    unfold EpochMsgs.processCommit.
    destruct (EpochMsgs.next (epochMsgs n) !! Commit.Bucket m)
      as [nx|] eqn:Hb; [|unchanged].
    destruct (Commit.SeqNo m <? commit nx); [unchanged|].
    destruct (N.eqb_spec (commit nx) (Commit.SeqNo m)) as [He|_];
      [|unchanged].
    destruct (N.ltb_spec (commit nx) (prepare nx)) as [Hlt|_]; [|unchanged].
    right; right. exists m, nx. rewrite <- He. simpl. auto 10.
  - (* Suspect *)
    destruct (_ <? Suspect.Epoch m); [unchanged|].
    destruct (Suspect.Epoch m <? _); unchanged.
  - (* Checkpoint *)
    unfold processCheckpoint.
    destruct (Checkpoint.SeqNo m <? nextCheckpoint n); [unchanged|].
    destruct (nextCheckpoint n =? Checkpoint.SeqNo m); [|unchanged].
    destruct (existsb _ _); unchanged.
  - (* Forward *)
    destruct (_ <? Forward.Epoch m); [unchanged|].
    destruct (Forward.Epoch m <? _); unchanged.
  - (* EpochChange *)
    destruct (_ <? EpochChange.NewEpoch m); [unchanged|].
    destruct (EpochChange.NewEpoch m <? _); unchanged.
  - unchanged.
  - unchanged.
Qed.

Lemma wrap64_small x : x < 2 ^ 64 -> wrap64 x = x.
Proof. apply N.mod_small. Qed.

Lemma wrap64_lt x : wrap64 x < 2 ^ 64.
Proof. apply N.mod_lt. discriminate. Qed.

Lemma wrap64_le x : wrap64 x <= x.
Proof. apply N.Div0.mod_le. Qed.

Section Invariant.

Variable P : Msg -> Prop.
Variable I : list Msg -> EpochMsgs.epochMsgs -> Prop.

Hypothesis I_new : forall h nodeID ec, I h (EpochMsgs.newEpochMsgs nodeID ec).
Hypothesis I_process : forall h n msg,
  P msg -> I h (epochMsgs n) ->
  I (accepted (process n msg).2 msg h) (epochMsgs (process n msg).1).

Lemma next_loop_invariant pending : forall kept n h,
  Forall P pending -> Forall P kept -> I h (epochMsgs n) ->
  I (released (next_loop pending kept n).2 h)
    (epochMsgs (next_loop pending kept n).1)
  /\ Forall P (buffer (next_loop pending kept n).1).
Proof.
  induction pending as [|msg rest IH]; intros kept n h Hp Hk Hi; simpl.
  - split; [exact Hi|]. apply Forall_rev, Hk.
  - inversion Hp as [|? ? Hmsg Hrest]; subst.
    pose proof (I_process h n msg Hmsg Hi) as Hstep.
    destruct (process n msg) as [n' [[| | |]|e]]; simpl in Hstep.
    + apply IH; auto.
    + simpl. split; [exact Hstep|].
      apply Forall_app; split; [apply Forall_rev, Hk | exact Hrest].
    + apply IH; auto.
    + apply IH; auto.
    + simpl. split; [exact Hstep|].
      apply Forall_app; split; [apply Forall_rev, Hk | exact Hp].
Qed.

Lemma reachable_invariant h n :
  reachable P h n -> I h (epochMsgs n) /\ Forall P (buffer n).
Proof.
  induction 1 as [nodeID ec o|h n ec _ [IH1 IH2]|h n msg Hmsg _ [IH1 IH2]
                 |h n msg Hmsg _ [IH1 IH2]|h n _ [IH1 IH2]].
  - split; [apply I_new | constructor].
  - split; [apply I_new | exact IH2].
  - split; [exact IH1|]. simpl. apply Forall_app; split; [exact IH2|].
    constructor; [exact Hmsg | constructor].
  - split; [apply I_process; assumption|].
    assert (Hb : buffer (process n msg).1 = buffer n); [|rewrite Hb; exact IH2].
    unfold process, process_epoch, processCheckpoint.
    destruct msg; simpl; repeat case_match; simplify_eq; reflexivity.
  - apply next_loop_invariant; [exact IH2 | constructor | exact IH1].
Qed.

End Invariant.

Lemma newEpochMsgs_cursors nodeID ec bucket nx :
  EpochMsgs.next (EpochMsgs.newEpochMsgs nodeID ec) !! bucket = Some nx ->
  prepare nx = 1 /\ commit nx = 1.
Proof.
  simpl. rewrite lookup_fmap.
  destruct (buckets ec !! bucket); simpl; [|discriminate].
  intros [= <-]. split; reflexivity.
Qed.

Lemma accepted_mono r msg h m : m ∈ h -> m ∈ accepted r msg h.
Proof.
  destruct r as [[| | |]|]; simpl; auto. intros H. right. exact H.
Qed.

Lemma ordered_new h nodeID ec :
  ordered_in_range h (EpochMsgs.newEpochMsgs nodeID ec).
Proof.
  intros b nx Hb. apply newEpochMsgs_cursors in Hb as [-> ->].
  split; [reflexivity | reflexivity].
Qed.

Lemma ordered_process h n msg :
  no_wrap msg -> ordered_in_range h (epochMsgs n) ->
  ordered_in_range (accepted (process n msg).2 msg h)
                   (epochMsgs (process n msg).1).
Proof.
  intros Hnw Hi.
  destruct (process_cases n msg)
    as [[He _]|[(b & nx & Hb & Hat & _ & He)|(m & nx & -> & Hb & Hs & Hlt & _ & He)]];
    rewrite He; [exact Hi| |].
  - intros b' nx'. simpl. rewrite lookup_insert. case_decide as Hd.
    + intros [= <-]. simpl. destruct (Hi _ _ Hb) as [Hle Hr].
      assert (Hsmall : prepare nx + 1 < 2 ^ 64).
      { destruct msg; simpl in Hat, Hnw; try contradiction;
          destruct Hat as [_ <-]; exact Hnw. }
      rewrite (wrap64_small _ Hsmall). split; [lia | exact Hsmall].
    + apply Hi.
  - intros b' nx'. simpl. rewrite lookup_insert. case_decide as Hd.
    + intros [= <-]. simpl. destruct (Hi _ _ Hb) as [Hle Hr].
      rewrite wrap64_small by lia. split; [lia | exact Hr].
    + apply Hi.
Qed.

Lemma prepares_accepted_new h nodeID ec :
  prepares_accepted h (EpochMsgs.newEpochMsgs nodeID ec).
Proof.
  intros b nx Hb. apply newEpochMsgs_cursors in Hb as [-> ->].
  split; [reflexivity|]. split; [reflexivity|]. intros s Hs. lia.
Qed.

Lemma prepares_accepted_process h n msg :
  any_msg msg -> prepares_accepted h (epochMsgs n) ->
  prepares_accepted (accepted (process n msg).2 msg h)
                    (epochMsgs (process n msg).1).
Proof.
  intros _ Hi.
  destruct (process_cases n msg)
    as [[He _]|[(b & nx & Hb & Hat & Hr & He)|(m & nx & -> & Hb & Hs & Hlt & Hr & He)]];
    rewrite He.
  - intros b' nx' Hb'. destruct (Hi _ _ Hb') as (H1 & H2 & H3).
    split; [exact H1|]. split; [exact H2|]. intros s Hs.
    destruct (H3 s Hs) as (m & Hm & Hp). exists m. split; [|exact Hp].
    apply accepted_mono, Hm.
  - rewrite Hr. intros b' nx'. simpl. rewrite lookup_insert. case_decide as Hd.
    + intros [= <-]. simpl. destruct (Hi _ _ Hb) as (H1 & H2 & H3).
      split; [exact H1|]. split; [apply wrap64_lt|]. intros s Hs.
      pose proof (wrap64_le (prepare nx + 1)).
      destruct (decide (s = prepare nx)) as [->|Hne].
      * exists msg. split; [left | subst b'; exact Hat].
      * destruct (H3 s ltac:(lia)) as (m & Hm & Hp). exists m.
        split; [right; exact Hm | subst b'; exact Hp].
    + intros Hb'. destruct (Hi _ _ Hb') as (H1 & H2 & H3).
      split; [exact H1|]. split; [exact H2|]. intros s Hs.
      destruct (H3 s Hs) as (m & Hm & Hp). exists m.
      split; [right; exact Hm | exact Hp].
  - rewrite Hr. intros b' nx'. simpl. rewrite lookup_insert. case_decide as Hd.
    + intros [= <-]. simpl. destruct (Hi _ _ Hb) as (H1 & H2 & H3).
      rewrite wrap64_small by lia. split; [lia|]. split; [exact H2|].
      intros s Hs'. destruct (H3 s Hs') as (m' & Hm & Hp). exists m'.
      split; [right; exact Hm | subst b'; exact Hp].
    + intros Hb'. destruct (Hi _ _ Hb') as (H1 & H2 & H3).
      split; [exact H1|]. split; [exact H2|]. intros s Hs'.
      destruct (H3 s Hs') as (m' & Hm & Hp). exists m'.
      split; [right; exact Hm | exact Hp].
Qed.

Lemma reachable_weaken (P Q : Msg -> Prop) h n :
  (forall msg, P msg -> Q msg) -> reachable P h n -> reachable Q h n.
Proof.
  intros HPQ. induction 1; try (constructor; auto).
Qed.

(** A Commit is accepted as current only at the commit cursor of its
    bucket, with the prepare cursor ahead of it, and then the Preprepare or
    Prepare of the same sequence number in the same bucket is among the
    messages accepted before.  This needs no bound on sequence numbers. *)
Lemma commit_after_prepare h n m :
  reachable any_msg h n ->
  (process n (Msg_Commit m)).2 = Ok current ->
  exists nx,
    EpochMsgs.next (epochMsgs n) !! Commit.Bucket m = Some nx
    /\ commit nx = Commit.SeqNo m
    /\ commit nx < prepare nx
    /\ exists msg, msg ∈ h /\ prepared_at (Commit.Bucket m) (Commit.SeqNo m) msg.
Proof.
  intros Hreach Hcur.
  destruct (reachable_invariant any_msg prepares_accepted
              prepares_accepted_new prepares_accepted_process h n Hreach)
    as [Hinv _].
  destruct (process_cases n (Msg_Commit m))
    as [[_ Hno]|[(b & nx & _ & Hat & _)|(m' & nx & Heq & Hb & Hs & Hlt & _)]].
  - exfalso. exact (Hno m eq_refl Hcur).
  - contradiction.
  - injection Heq as <-. exists nx. repeat (split; [assumption|]).
    destruct (Hinv _ _ Hb) as (H1 & _ & H3). apply H3. lia.
Qed.

(** Accepting the Preprepare at the prepare cursor moves the cursor by one,
    in [uint64]. *)
Lemma process_at_prepare_cursor p :
  process (prepare_cursor_at p) (preprepare_at 0 p)
  = (prepare_cursor_at (wrap64 (p + 1)), Ok current).
Proof.
  unfold process, prepare_cursor_at, preprepare_at. simpl.
  unfold EpochMsgs.processPreprepare. simpl.
  rewrite lookup_singleton_eq. simpl.
  rewrite N.ltb_irrefl, N.eqb_refl.
  unfold EpochMsgs.store, set_epochMsgs. simpl.
  rewrite insert_singleton_eq. reflexivity.
Qed.

(** Every prepare cursor from 1 to [2^64 - 1] is reached by accepting the
    preprepares below it one after the other. *)
Lemma prepare_cursor_reachable (k : N) :
  k + 1 < 2 ^ 64 -> exists h, reachable any_msg h (prepare_cursor_at (k + 1)).
Proof.
  induction k as [|k IH] using N.peano_ind; intros Hk.
  - exists []. exact (reach_new any_msg 0 epoch_zero []).
  - destruct IH as [h Hh]; [lia|].
    pose proof (reach_process any_msg h _ (preprepare_at 0 (k + 1)) I Hh) as Hr.
    rewrite process_at_prepare_cursor in Hr. simpl in Hr.
    rewrite wrap64_small in Hr by lia.
    replace (N.succ k + 1) with (k + 1 + 1) by lia. eexists. exact Hr.
Qed.

(** C10, as stated, fails at the end of the [uint64] range.  Once the
    peer's preprepares for 1, 2, ... up to [2^64 - 2] have been accepted,
    the prepare cursor is [2^64 - 1]; accepting the Preprepare with that
    sequence number sets the cursor to [2^64 - 1 + 1], which is 0 in
    [uint64], below the commit cursor 1. *)
Lemma prepare_cursor_wraps :
  exists h n, reachable any_msg h n /\ ~ cursors_ordered n.
Proof.
  destruct (prepare_cursor_reachable (2 ^ 64 - 2)) as [h Hh]; [reflexivity|].
  pose proof (reach_process any_msg h _
                (preprepare_at 0 (2 ^ 64 - 2 + 1)) I Hh) as Hr.
  rewrite process_at_prepare_cursor in Hr. simpl in Hr.
  eexists _, _. split; [exact Hr|].
  intros Hord.
  specialize (Hord 0 {| leader := true; prepare := 0; commit := 1 |}).
  simpl in Hord. rewrite lookup_singleton_eq in Hord.
  specialize (Hord eq_refl). simpl in Hord. lia.
Qed.

(** C10, amended.  Both cursors of every bucket start at 1.  In every state
    of an admitter reached without a Preprepare or Prepare carrying the last
    [uint64] sequence number, every bucket has [commit <= prepare], and
    processing one more such message keeps it so.  A Commit at [s] is
    accepted as current only when the commit cursor of its bucket is [s]
    and the prepare cursor is beyond it, and then the Preprepare or Prepare
    at [s] of that bucket has been accepted before. *)
Theorem commit_le_prepare (h : list Msg) (n : nodeMsgs) :
  reachable no_wrap h n ->
  (forall nodeID ec o bucket nx,
      EpochMsgs.next (epochMsgs (newNodeMsgs nodeID ec o)) !! bucket = Some nx ->
      prepare nx = 1 /\ commit nx = 1)
  /\ cursors_ordered n
  /\ (forall msg, no_wrap msg -> cursors_ordered (process n msg).1)
  /\ (forall m,
        (process n (Msg_Commit m)).2 = Ok current ->
        exists nx,
          EpochMsgs.next (epochMsgs n) !! Commit.Bucket m = Some nx
          /\ commit nx = Commit.SeqNo m
          /\ commit nx < prepare nx
          /\ exists msg,
               msg ∈ h /\ prepared_at (Commit.Bucket m) (Commit.SeqNo m) msg).
Proof.
  intros Hreach.
  assert (Hord : forall h n, reachable no_wrap h n -> cursors_ordered n).
  { intros h' n' Hr b nx Hb.
    destruct (reachable_invariant no_wrap ordered_in_range
                ordered_new ordered_process h' n' Hr) as [Hinv _].
    apply (Hinv _ _ Hb). }
  split; [|split; [|split]].
  - intros nodeID ec o bucket nx. apply newEpochMsgs_cursors.
  - apply (Hord h n Hreach).
  - intros msg Hmsg. eapply Hord. apply reach_process; eassumption.
  - intros m. apply commit_after_prepare.
    eapply reachable_weaken; [|exact Hreach]. intros; exact I.
Qed.

(** Peer 0 after its Preprepare for sequence number 1 has been accepted. *)
Lemma commit_le_prepare_witness :
  reachable no_wrap
    (accepted (process leader_peer (preprepare_at 1 1)).2 (preprepare_at 1 1) [])
    (process leader_peer (preprepare_at 1 1)).1
  /\ cursors_ordered (process leader_peer (preprepare_at 1 1)).1.
Proof.
  assert (Hr : reachable no_wrap
                 (accepted (process leader_peer (preprepare_at 1 1)).2
                           (preprepare_at 1 1) [])
                 (process leader_peer (preprepare_at 1 1)).1).
  { apply reach_process; [reflexivity | apply reach_new]. }
  split; [exact Hr|].
  exact (proj1 (proj2 (commit_le_prepare _ _ Hr))).
Defined.

End NodeMsgsFacts.

(** ** EpochChange hashing *)

Module HashFacts.
Import HashSpec.

Lemma put_at_length (pre post : list bytes) (old v : bytes) (i : nat) :
  i = length pre ->
  put (pre ++ old :: post) i v = Ok (pre ++ v :: post).
Proof.
  intros ->. unfold put. rewrite length_app. simpl.
  case_decide; [|lia].
  rewrite insert_app_r_alt by lia. rewrite Nat.sub_diag. reflexivity.
Qed.

Lemma put_second (pre post : list bytes) (a old v : bytes) (i : nat) :
  i = S (length pre) ->
  put (pre ++ a :: old :: post) i v = Ok (pre ++ a :: v :: post).
Proof.
  intros Hi. rewrite (cons_middle a pre), (cons_middle a pre (v :: post)).
  rewrite !app_assoc. apply put_at_length.
  rewrite length_app. simpl. lia.
Qed.

Lemma put_third (pre post : list bytes) (a b old v : bytes) (i : nat) :
  i = S (S (length pre)) ->
  put (pre ++ a :: b :: old :: post) i v = Ok (pre ++ a :: b :: v :: post).
Proof.
  intros Hi. rewrite (cons_middle a pre), (cons_middle a pre (b :: v :: post)).
  rewrite !app_assoc. apply put_second.
  rewrite length_app. simpl. lia.
Qed.

Lemma hashCheckpoints_fills cpOffset cps : forall i pre post,
  length pre = (cpOffset + 2 * i)%nat ->
  hashCheckpoints cpOffset i cps
    (pre ++ replicate (length cps * 2) None ++ post)
  = Ok (pre ++ flat_map checkpoint_layout cps ++ post).
Proof.
  induction cps as [|cp rest IH]; intros i pre post Hlen; [reflexivity|].
  cbn [hashCheckpoints length Nat.mul Nat.add replicate app flat_map
       checkpoint_layout].
  rewrite (put_at_length pre) by lia. cbn [bind].
  rewrite (put_second pre) by lia. cbn [bind].
  specialize (IH (S i) ((pre ++ [uint64ToBytes (Checkpoint.SeqNo cp)])
                          ++ [Checkpoint.Value cp]) post).
  rewrite <- !app_assoc in IH. cbn [app] in IH. apply IH.
  rewrite !length_app. simpl. lia.
Qed.

Lemma hashEntries_fills entryOffset es : forall i pre post,
  length pre = (entryOffset + 3 * i)%nat ->
  hashEntries entryOffset i es
    (pre ++ replicate (length es * 3) None ++ post)
  = Ok (pre ++ flat_map entry_layout es ++ post).
Proof.
  induction es as [|e rest IH]; intros i pre post Hlen; [reflexivity|].
  cbn [hashEntries length Nat.mul Nat.add replicate app flat_map entry_layout].
  rewrite (put_at_length pre) by lia. cbn [bind].
  rewrite (put_second pre) by lia. cbn [bind].
  rewrite (put_third pre) by lia. cbn [bind].
  specialize (IH (S i) (((pre ++ [uint64ToBytes (SetEntry.Epoch e)])
                           ++ [uint64ToBytes (SetEntry.SeqNo e)])
                          ++ [SetEntry.Digest e]) post).
  rewrite <- !app_assoc in IH. cbn [app] in IH. apply IH.
  rewrite !length_app. simpl. lia.
Qed.

Lemma put_head (post : list bytes) (old v : bytes) :
  put (old :: post) 0 v = Ok (v :: post).
Proof. exact (put_at_length [] post old v 0%nat eq_refl). Qed.

Lemma hashCheckpoints_from_1 (v : bytes) cps post :
  hashCheckpoints 1 0 cps (v :: replicate (length cps * 2) None ++ post)
  = Ok (v :: flat_map checkpoint_layout cps ++ post).
Proof. exact (hashCheckpoints_fills 1 cps 0%nat [v] post eq_refl). Qed.

Lemma hashEntries_at offset es pre post :
  offset = length pre ->
  hashEntries offset 0 es (pre ++ replicate (length es * 3) None ++ post)
  = Ok (pre ++ flat_map entry_layout es ++ post).
Proof. intros ->. apply hashEntries_fills. lia. Qed.

Lemma hashEntries_at_end offset es pre :
  offset = length pre ->
  hashEntries offset 0 es (pre ++ replicate (length es * 3) None)
  = Ok (pre ++ flat_map entry_layout es).
Proof.
  intros H. pose proof (hashEntries_at offset es pre [] H) as Hh.
  rewrite !app_nil_r in Hh. exact Hh.
Qed.

Lemma checkpoints_layout_length cps :
  length (flat_map checkpoint_layout cps) = (2 * length cps)%nat.
Proof. induction cps; simpl in *; lia. Qed.

Lemma entries_layout_length es :
  length (flat_map entry_layout es) = (3 * length es)%nat.
Proof. induction es; simpl in *; lia. Qed.

Lemma layout_length (epochChange : EpochChange.t) :
  length (hashData_layout epochChange)
  = (1 + 2 * length (EpochChange.Checkpoints epochChange)
     + 3 * length (EpochChange.PSet epochChange)
     + 3 * length (EpochChange.QSet epochChange))%nat.
Proof.
  unfold hashData_layout. simpl.
  rewrite !length_app, checkpoints_layout_length, !entries_layout_length. lia.
Qed.

(** C9.  For every EpochChange, [epochChangeHashData] returns (it does not
    panic: neither on an index nor on the final length check) the sequence
    made of the encoding of [new_epoch], then [(seq_no, value)] for each
    checkpoint in order, then [(epoch, seq_no, digest)] for each P-set entry
    in order, then the same for each Q-set entry in order; its length is
    [1 + 2*|checkpoints| + 3*|p_set| + 3*|q_set|], and element 0 is the
    big-endian encoding of [new_epoch]. *)
Theorem epochChangeHashData_layout (epochChange : EpochChange.t) :
  epochChangeHashData epochChange = Ok (hashData_layout epochChange)
  /\ length (hashData_layout epochChange)
     = (1 + 2 * length (EpochChange.Checkpoints epochChange)
        + 3 * length (EpochChange.PSet epochChange)
        + 3 * length (EpochChange.QSet epochChange))%nat
  /\ hashData_layout epochChange !! 0%nat
     = Some (uint64ToBytes (EpochChange.NewEpoch epochChange)).
Proof.
  split; [|split; [apply layout_length | reflexivity]].
  pose proof (layout_length epochChange) as Hlen.
  unfold epochChangeHashData, hashData_layout in *.
  destruct epochChange as [ne cps ps qs]. cbn [EpochChange.NewEpoch
    EpochChange.Checkpoints EpochChange.PSet EpochChange.QSet] in *.
  replace (1 + length cps * 2 + length ps * 3 + length qs * 3)%nat
    with (S (length cps * 2 + (length ps * 3 + length qs * 3)))%nat by lia.
  rewrite replicate_S, !replicate_add.
  rewrite put_head. cbn [bind].
  rewrite hashCheckpoints_from_1. cbn [bind].
  rewrite app_comm_cons.
  rewrite hashEntries_at
    by (simpl; rewrite checkpoints_layout_length; lia).
  cbn [bind]. rewrite app_assoc.
  rewrite hashEntries_at_end
    by (rewrite length_app; simpl;
        rewrite checkpoints_layout_length, entries_layout_length; lia).
  cbn [bind]. rewrite <- app_assoc, <- app_comm_cons.
  rewrite bool_decide_eq_true_2; [reflexivity|].
  rewrite Hlen. lia.
Qed.

End HashFacts.

(** ** The epoch-change constructor *)

Module ConstructorFacts.
Import ConstructorSpec ConstructorExamples.

(** *** Counting loops *)

Lemma fold_left_count {A : Type} (P : A -> Prop) `{forall x, Decision (P x)}
      (f : Z -> A -> Z) (l : list A) :
  (forall cnt x, f cnt x = if decide (P x) then (cnt + 1)%Z else cnt) ->
  forall z, fold_left f l z = (z + count_of P l)%Z.
Proof.
  intros Hf. unfold count_of.
  induction l as [|x l IH]; intros z; simpl; [lia|].
  rewrite IH, Hf, filter_cons. destruct (decide (P x)); simpl; lia.
Qed.

Lemma count_of_perm {A : Type} (P : A -> Prop) `{forall x, Decision (P x)}
      (l1 l2 : list A) :
  l1 ≡ₚ l2 -> count_of P l1 = count_of P l2.
Proof. intros Hp. unfold count_of. rewrite Hp. reflexivity. Qed.

Lemma a1Count_counts visit seqNo entry :
  a1Count visit seqNo entry = count_of (fun ne => A1 seqNo entry (snd ne)) visit.
Proof.
  unfold a1Count. rewrite (fold_left_count (fun ne => A1 seqNo entry (snd ne)));
    [reflexivity|].
  intros cnt [nodeID ec]. simpl.
  assert (Hiff : A1 seqNo entry ec <->
                 (seqNo <=? lowWatermark ec) = false
                 /\ match pSet ec !! seqNo with
                    | None => True
                    | Some iEntry =>
                        (SetEntry.Epoch iEntry <? SetEntry.Epoch entry) = true
                        \/ ((SetEntry.Epoch entry <? SetEntry.Epoch iEntry) = false
                            /\ bytes_Equal (SetEntry.Digest entry)
                                           (SetEntry.Digest iEntry) = true)
                    end).
  { unfold A1, compatible, bytes_Equal. rewrite N.leb_gt.
    destruct (pSet ec !! seqNo) as [iEntry|]; [|tauto].
    rewrite N.ltb_lt, N.ltb_ge, bool_decide_eq_true. split.
    - intros [? [?|[? ?]]]; split; auto. right. split; [lia | assumption].
    - intros [? [?|[? ?]]]; split; auto.
      destruct (N.lt_ge_cases (SetEntry.Epoch iEntry) (SetEntry.Epoch entry));
        [left; assumption | right; split; [lia | assumption]]. }
  destruct (decide (A1 seqNo entry ec)) as [Ha|Hn].
  - apply Hiff in Ha as [-> Hc].
    destruct (pSet ec !! seqNo) as [iEntry|]; [|reflexivity].
    destruct Hc as [->|[-> ->]]; [reflexivity|].
    destruct (_ <? _); reflexivity.
  - destruct (seqNo <=? lowWatermark ec) eqn:Hlw; [reflexivity|].
    destruct (pSet ec !! seqNo) as [iEntry|].
    + destruct (SetEntry.Epoch iEntry <? SetEntry.Epoch entry) eqn:H1;
        [exfalso; apply Hn, Hiff; auto|].
      destruct (SetEntry.Epoch entry <? SetEntry.Epoch iEntry) eqn:H2;
        [reflexivity|].
      destruct (bytes_Equal _ _) eqn:H3; [|reflexivity].
      exfalso; apply Hn, Hiff; auto.
    + exfalso; apply Hn, Hiff; auto.
Qed.

Lemma a2_test_A2 seqNo entry ec : a2_test seqNo entry ec = true <-> A2 seqNo entry ec.
Proof.
  unfold a2_test, A2. destruct (qSet ec !! seqNo) as [epochEntries|].
  - rewrite existsb_exists. split.
    + intros ([epoch d] & Hin & Ht). simpl in Ht.
      apply andb_true_iff in Ht as [Hge Heq].
      apply negb_true_iff, N.ltb_ge in Hge.
      apply bool_decide_eq_true in Heq.
      apply list_elem_of_In, elem_of_map_to_list in Hin.
      exists epochEntries, epoch, d. auto.
    + intros (ee & epoch & d & [= <-] & Hlook & Hge & Heq).
      exists (epoch, d). split.
      * apply list_elem_of_In, elem_of_map_to_list, Hlook.
      * simpl. apply andb_true_iff. split.
        -- apply negb_true_iff, N.ltb_ge, Hge.
        -- apply bool_decide_eq_true, Heq.
  - split; [discriminate|]. intros (ee & _ & _ & Hq & _). discriminate Hq.
Qed.

#[global] Instance A2_dec seqNo entry ec : Decision (A2 seqNo entry ec).
Proof.
  destruct (a2_test seqNo entry ec) eqn:Ht.
  - left. apply a2_test_A2, Ht.
  - right. intros Ha. apply a2_test_A2 in Ha. congruence.
Defined.

Lemma a2Count_counts visit seqNo entry :
  a2Count visit seqNo entry = count_of (fun ne => A2 seqNo entry (snd ne)) visit.
Proof.
  unfold a2Count. rewrite (fold_left_count (fun ne => A2 seqNo entry (snd ne)));
    [reflexivity|].
  intros cnt [nodeID ec]. simpl.
  pose proof (a2_test_A2 seqNo entry ec) as Hiff. unfold a2_test in Hiff.
  destruct (decide (A2 seqNo entry ec)) as [Ha|Hn].
  - apply Hiff in Ha. destruct (qSet ec !! seqNo); [|discriminate].
    rewrite Ha. reflexivity.
  - destruct (qSet ec !! seqNo); [|reflexivity].
    destruct (existsb _ _); [|reflexivity]. exfalso. apply Hn, Hiff. reflexivity.
Qed.

Lemma bCount_counts visit seqNo :
  bCount visit seqNo = count_of (fun ne => B seqNo (snd ne)) visit.
Proof.
  unfold bCount. rewrite (fold_left_count (fun ne => B seqNo (snd ne)));
    [reflexivity|].
  intros cnt [nodeID ec]. simpl.
  destruct (decide (B seqNo ec)) as [[Hlw Hp]|Hn].
  - rewrite Hp. destruct (N.leb_spec seqNo (lowWatermark ec)); [lia|reflexivity].
  - destruct (N.leb_spec seqNo (lowWatermark ec)) as [Hle|Hgt]; [reflexivity|].
    destruct (pSet ec !! seqNo) as [iEntry|] eqn:Hp; [reflexivity|].
    exfalso. apply Hn. split; assumption.
Qed.

Lemma nodesWithLowerWatermark_counts visit seqNo :
  nodesWithLowerWatermark visit seqNo
  = count_of (fun ne => lowWatermark (snd ne) <= seqNo) visit.
Proof.
  unfold nodesWithLowerWatermark.
  rewrite (fold_left_count (fun ne => lowWatermark (snd ne) <= seqNo));
    [reflexivity|].
  intros cnt [nodeID ec]. simpl.
  destruct (N.leb_spec (lowWatermark ec) seqNo).
  - rewrite decide_True; [reflexivity | assumption].
  - rewrite decide_False; [reflexivity | lia].
Qed.

(** What the loop over [config.Nodes] returns is the P-set entry of a node
    of the list, and both counts reach their thresholds for it. *)
Lemma selectEntry_accepts config epochChanges visit nodes seqNo entry :
  selectEntry config epochChanges visit nodes seqNo = Some entry ->
  exists nodeID epochChange,
    nodeID ∈ nodes
    /\ epochChanges !! nodeID = Some epochChange
    /\ pSet epochChange !! seqNo = Some entry
    /\ (intersectionQuorum config <= a1Count visit seqNo entry)%Z
    /\ (someCorrectQuorum config <= a2Count visit seqNo entry)%Z.
Proof.
  induction nodes as [|nodeID rest IH]; simpl; [discriminate|].
  intros Hsel.
  assert (Hrest : selectEntry config epochChanges visit rest seqNo = Some entry ->
                  exists i epochChange,
                    i ∈ nodeID :: rest
                    /\ epochChanges !! i = Some epochChange
                    /\ pSet epochChange !! seqNo = Some entry
                    /\ (intersectionQuorum config <= a1Count visit seqNo entry)%Z
                    /\ (someCorrectQuorum config <= a2Count visit seqNo entry)%Z).
  { intros H. destruct (IH H) as (i & ec & Hi & Hrest). exists i, ec.
    split; [right; exact Hi | exact Hrest]. }
  revert Hsel.
  destruct (epochChanges !! nodeID) as [epochChange|] eqn:Hec;
    [|exact Hrest].
  destruct (pSet epochChange !! seqNo) as [e|] eqn:Hp; [|exact Hrest].
  destruct (Z.ltb_spec (a1Count visit seqNo e) (intersectionQuorum config));
    [exact Hrest|].
  destruct (Z.ltb_spec (a2Count visit seqNo e) (someCorrectQuorum config));
    [exact Hrest|].
  intros [= <-]. exists nodeID, epochChange.
  split; [left|]. split; [exact Hec|]. split; [exact Hp|]. split; assumption.
Qed.

(** *** Condition A *)

(** C5, as stated, fails.  In [one_ahead] the starting checkpoint is
    (10, "CC"), so sequence number 11 is the first slot.  Nodes 0 and 1
    prepared the candidate at 11, node 2 contradicts it with a later epoch,
    and node 3 has low watermark 20, at or above 11.  The claim counts
    nodes 0, 1 and 3 towards A1, which reaches the quorum of 3; the code
    skips node 3, counts 2, and rejects the candidate although its A2 count
    reaches [someCorrectQuorum]: the constructor returns nil. *)
Lemma a1Count_skips_high_watermarks :
  a1Count (map_to_list one_ahead) 11 candidate = 2%Z
  /\ count_of (fun ne => A1_claimed 11 candidate (snd ne))
              (map_to_list one_ahead) = 3%Z
  /\ intersectionQuorum four_nodes = 3%Z
  /\ a2Count (map_to_list one_ahead) 11 candidate = 2%Z
  /\ someCorrectQuorum four_nodes = 2%Z
  /\ selectEntry four_nodes one_ahead (map_to_list one_ahead) [0; 1; 2; 3] 11
     = None
  /\ chosen four_nodes as_listed one_ahead = Ok (Some (10, "CC"))
  /\ constructNewEpochConfig four_nodes as_listed [0; 1] one_ahead = Ok None.
Proof. repeat split; vm_compute; reflexivity. Qed.

(** C5, amended.  The A1 count of a candidate [entry] at [seqNo] is the
    number of epoch changes whose low watermark is below [seqNo] and that
    have no P-set entry at [seqNo], or one of an epoch below the
    candidate's, or one of the candidate's epoch with the candidate's
    digest; an epoch change whose low watermark is at or above [seqNo] is
    not counted.  The A2 count is the number of epoch changes whose Q set
    at [seqNo] has an entry of the candidate's epoch or later with the
    candidate's digest.  A candidate is selected only if the A1 count
    reaches [intersectionQuorum] and the A2 count [someCorrectQuorum]. *)
Theorem a1Count_below_watermark_only
        (config : NetworkConfig.t) (epochChanges : gmap N parsedEpochChange)
        (visit : list (N * parsedEpochChange)) (nodes : list N)
        (seqNo : N) (entry : SetEntry.t) :
  a1Count visit seqNo entry
  = count_of (fun ne => A1 seqNo entry (snd ne)) visit
  /\ a2Count visit seqNo entry
     = count_of (fun ne => A2 seqNo entry (snd ne)) visit
  /\ (selectEntry config epochChanges visit nodes seqNo = Some entry ->
      (intersectionQuorum config
       <= count_of (fun ne => A1 seqNo entry (snd ne)) visit)%Z
      /\ (someCorrectQuorum config
          <= count_of (fun ne => A2 seqNo entry (snd ne)) visit)%Z).
Proof.
  split; [apply a1Count_counts|]. split; [apply a2Count_counts|].
  intros Hsel.
  destruct (selectEntry_accepts _ _ _ _ _ _ Hsel) as (_ & _ & _ & _ & _ & H1 & H2).
  rewrite <- a1Count_counts, <- a2Count_counts. split; assumption.
Qed.

(** With three of four nodes having prepared the candidate, it is selected. *)
Lemma a1Count_below_watermark_only_witness :
  selectEntry four_nodes three_prepared (map_to_list three_prepared)
              [0; 1; 2; 3] 11 = Some candidate
  /\ (intersectionQuorum four_nodes
      <= count_of (fun ne => A1 11 candidate (snd ne))
                  (map_to_list three_prepared))%Z
  /\ (someCorrectQuorum four_nodes
      <= count_of (fun ne => A2 11 candidate (snd ne))
                  (map_to_list three_prepared))%Z.
Proof.
  assert (Hsel : selectEntry four_nodes three_prepared
                   (map_to_list three_prepared) [0; 1; 2; 3] 11
                 = Some candidate) by (vm_compute; reflexivity).
  split; [exact Hsel|].
  exact (proj2 (proj2 (a1Count_below_watermark_only
                         four_nodes three_prepared (map_to_list three_prepared)
                         [0; 1; 2; 3] 11 candidate)) Hsel).
Defined.

(** *** The checkpoints map *)

Lemma reports_perm visit1 visit2 key :
  visit1 ≡ₚ visit2 -> reports visit1 key = reports visit2 key.
Proof.
  intros Hp. unfold reports.
  assert (Hf : reported visit1 ≡ₚ reported visit2)
    by (apply Permutation_flat_map, Hp).
  rewrite Hf. reflexivity.
Qed.

Lemma file_checkpoints_length nodeID cps : forall m key,
  length (default [] (file_checkpoints nodeID cps m !! key))
  = (length (default [] (m !! key))
     + length (filter (fun cp => key_of cp = key) cps))%nat.
Proof.
  induction cps as [|cp rest IH]; intros m key; simpl; [lia|].
  unfold file_checkpoints in *. simpl. rewrite IH.
  fold (key_of cp). rewrite filter_cons. rewrite lookup_insert.
  destruct (decide (key_of cp = key)) as [->|Hne]; simpl.
  - rewrite length_app. simpl. lia.
  - lia.
Qed.

Lemma file_checkpoints_nonempty nodeID cps : forall m,
  (forall key l, m !! key = Some l -> l <> []) ->
  forall key l, file_checkpoints nodeID cps m !! key = Some l -> l <> [].
Proof.
  induction cps as [|cp rest IH]; intros m Hm; [exact Hm|].
  unfold file_checkpoints in *. simpl. apply IH.
  intros key l. rewrite lookup_insert. case_decide.
  - intros [= <-]. destruct (default [] _); discriminate.
  - apply Hm.
Qed.

Lemma collectCheckpoints_snoc visit ne :
  collectCheckpoints (visit ++ [ne])
  = (EpochChange.NewEpoch (underlying (snd ne)),
     file_checkpoints (fst ne) (EpochChange.Checkpoints (underlying (snd ne)))
                      (snd (collectCheckpoints visit))).
Proof. unfold collectCheckpoints. rewrite fold_left_app. reflexivity. Qed.

Lemma collectCheckpoints_length visit key :
  length (default [] (snd (collectCheckpoints visit) !! key))
  = reports visit key.
Proof.
  induction visit as [|ne visit IH] using rev_ind; [reflexivity|].
  rewrite collectCheckpoints_snoc. simpl.
  rewrite file_checkpoints_length, IH. unfold reports, reported.
  rewrite flat_map_app, filter_app, length_app. simpl. rewrite app_nil_r.
  reflexivity.
Qed.

Lemma collectCheckpoints_nonempty visit key l :
  snd (collectCheckpoints visit) !! key = Some l -> l <> [].
Proof.
  revert key l. induction visit as [|ne visit IH] using rev_ind.
  - intros key l. simpl. rewrite lookup_empty. discriminate.
  - rewrite collectCheckpoints_snoc. simpl.
    apply file_checkpoints_nonempty, IH.
Qed.

(** The epoch number the first pass leaves is that of the entry visited
    last. *)
Lemma collectCheckpoints_number visit :
  fst (collectCheckpoints visit)
  = match last visit with
    | Some ne => EpochChange.NewEpoch (underlying (snd ne))
    | None => 0
    end.
Proof.
  destruct visit as [|ne visit] using rev_ind; [reflexivity|].
  rewrite collectCheckpoints_snoc, last_snoc. reflexivity.
Qed.

(** *** The choice of the starting checkpoint *)

Lemma maxCheckpoint_body_cases config visit mc ks :
  maxCheckpoint_body config visit mc ks
  = if entry_ok config visit ks then
      match mc with
      | None => Ok (Some (fst ks))
      | Some m =>
          if fst (fst ks) <? fst m then Ok mc
          else if fst m =? fst (fst ks) then Panic conflict
               else Ok (Some (fst ks))
      end
    else Ok mc.
Proof.
  unfold maxCheckpoint_body, entry_ok.
  destruct (_ <? someCorrectQuorum config)%Z; simpl; [reflexivity|].
  destruct (_ <? intersectionQuorum config)%Z; reflexivity.
Qed.

Lemma body_selected_among config visit seen mc ks r :
  selected_among config visit seen mc ->
  maxCheckpoint_body config visit mc ks = Ok r ->
  selected_among config visit (seen ++ [ks]) r.
Proof.
  rewrite maxCheckpoint_body_cases. intros Hsel.
  destruct (entry_ok config visit ks) eqn:Hok.
  - destruct mc as [m|].
    + destruct Hsel as [(sup & Hin & Hsup) Hmax].
      destruct (N.ltb_spec (fst (fst ks)) (fst m)) as [Hlt|Hge].
      * intros [= <-]. split.
        -- exists sup. split; [apply elem_of_app; left; exact Hin | exact Hsup].
        -- intros ks' Hin' Hok'. apply elem_of_app in Hin' as [Hin'|Hin'].
           ++ apply Hmax; assumption.
           ++ apply list_elem_of_singleton in Hin' as ->. right. exact Hlt.
      * destruct (N.eqb_spec (fst m) (fst (fst ks))) as [Heq|Hne];
          [discriminate|].
        intros [= <-]. split.
        -- exists (snd ks). rewrite <- surjective_pairing.
           split; [apply elem_of_app; right; left | exact Hok].
        -- intros ks' Hin' Hok'. apply elem_of_app in Hin' as [Hin'|Hin'].
           ++ destruct (Hmax ks' Hin' Hok') as [->|Hlt]; right; lia.
           ++ apply list_elem_of_singleton in Hin' as ->. left. reflexivity.
    + intros [= <-]. split.
      * exists (snd ks). rewrite <- surjective_pairing.
        split; [apply elem_of_app; right; left | exact Hok].
      * intros ks' Hin' Hok'. apply elem_of_app in Hin' as [Hin'|Hin'].
        -- simpl in Hsel. rewrite (Hsel ks' Hin') in Hok'. discriminate.
        -- apply list_elem_of_singleton in Hin' as ->. left. reflexivity.
  - intros [= <-]. destruct mc as [m|]; simpl in *.
    + destruct Hsel as [(sup & Hin & Hsup) Hmax]. split.
      * exists sup. split; [apply elem_of_app; left; exact Hin | exact Hsup].
      * intros ks' Hin' Hok'. apply elem_of_app in Hin' as [Hin'|Hin'].
        -- apply Hmax; assumption.
        -- apply list_elem_of_singleton in Hin' as ->. congruence.
    + intros ks' Hin'. apply elem_of_app in Hin' as [Hin'|Hin'].
      * apply Hsel, Hin'.
      * apply list_elem_of_singleton in Hin' as ->. exact Hok.
Qed.

Lemma loop_selected_among config visit l : forall seen mc r,
  selected_among config visit seen mc ->
  maxCheckpoint_loop config visit l mc = Ok r ->
  selected_among config visit (seen ++ l) r.
Proof.
  induction l as [|ks l IH]; intros seen mc r Hsel; simpl.
  - intros [= <-]. rewrite app_nil_r. exact Hsel.
  - destruct (maxCheckpoint_body config visit mc ks) as [mc'|e] eqn:Hb;
      [|discriminate].
    intros Hl. rewrite cons_middle, app_assoc.
    apply (IH _ mc'); [|exact Hl].
    eapply body_selected_among; eassumption.
Qed.

Lemma selected_among_perm config visit seen seen' mc :
  seen ≡ₚ seen' ->
  selected_among config visit seen mc -> selected_among config visit seen' mc.
Proof.
  intros Hp. destruct mc as [k|]; simpl.
  - intros [(sup & Hin & Hok) Hmax]. split.
    + exists sup. rewrite <- Hp. auto.
    + intros ks Hin'. apply Hmax. rewrite Hp. exact Hin'.
  - intros H ks Hin. apply H. rewrite Hp. exact Hin.
Qed.

Section Bridge.

Variable config : NetworkConfig.t.
Variable epochChanges : gmap N parsedEpochChange.
Variable visit : list (N * parsedEpochChange).
Hypothesis visit_all : visit ≡ₚ map_to_list epochChanges.

Lemma entry_ok_admissible key sup :
  snd (collectCheckpoints visit) !! key = Some sup ->
  entry_ok config visit (key, sup) = true <-> admissible config epochChanges key.
Proof.
  intros Hlook.
  pose proof (collectCheckpoints_length visit key) as Hlen.
  pose proof (collectCheckpoints_nonempty visit key sup Hlook) as Hne.
  rewrite Hlook in Hlen. simpl in Hlen.
  unfold entry_ok, admissible. simpl.
  rewrite nodesWithLowerWatermark_counts.
  rewrite <- (reports_perm _ _ key visit_all), <- Hlen.
  rewrite <- (count_of_perm _ _ _ visit_all).
  rewrite andb_true_iff, !negb_true_iff, !Z.ltb_ge.
  destruct sup; [contradiction|]. simpl. split.
  - intros [? ?]. split; [lia|]. split; assumption.
  - intros (_ & ? & ?). split; assumption.
Qed.

Lemma admissible_filed key :
  admissible config epochChanges key ->
  exists sup, snd (collectCheckpoints visit) !! key = Some sup.
Proof.
  intros (Hpos & _ & _).
  rewrite <- (reports_perm _ _ key visit_all) in Hpos.
  rewrite <- collectCheckpoints_length in Hpos.
  destruct (snd (collectCheckpoints visit) !! key) as [sup|]; [eauto|].
  simpl in Hpos. lia.
Qed.

Lemma selected_among_selected cks mc :
  cks ≡ₚ map_to_list (snd (collectCheckpoints visit)) ->
  selected_among config visit cks mc -> selected config epochChanges mc.
Proof.
  intros Hp Hsel.
  assert (Hin : forall key sup,
             (key, sup) ∈ cks <-> snd (collectCheckpoints visit) !! key = Some sup).
  { intros key sup. rewrite Hp. apply elem_of_map_to_list. }
  destruct mc as [k|]; simpl in *.
  - destruct Hsel as [(sup & Hk & Hok) Hmax]. split.
    + apply (entry_ok_admissible k sup); [apply Hin, Hk | exact Hok].
    + intros key Hadm. destruct (admissible_filed key Hadm) as [sup' Hl].
      apply (Hmax (key, sup')); [apply Hin, Hl|].
      apply entry_ok_admissible; assumption.
  - intros key Hadm. destruct (admissible_filed key Hadm) as [sup' Hl].
    pose proof (Hsel (key, sup') (proj2 (Hin _ _) Hl)) as Hno.
    apply (entry_ok_admissible key sup' Hl) in Hadm. congruence.
Qed.

End Bridge.

Lemma selected_unique config epochChanges mc1 mc2 :
  selected config epochChanges mc1 -> selected config epochChanges mc2 ->
  mc1 = mc2.
Proof.
  destruct mc1 as [k1|], mc2 as [k2|]; simpl.
  - intros [Ha1 Hm1] [Ha2 Hm2].
    destruct (Hm1 k2 Ha2) as [->|H12]; [reflexivity|].
    destruct (Hm2 k1 Ha1) as [->|H21]; [reflexivity|]. lia.
  - intros [Ha1 _] Hnone. destruct (Hnone k1 Ha1).
  - intros Hnone [Ha2 _]. destruct (Hnone k2 Ha2).
  - reflexivity.
Qed.

Lemma loop_panic_is_conflict config visit l : forall mc e,
  maxCheckpoint_loop config visit l mc = Panic e -> e = conflict.
Proof.
  induction l as [|ks l IH]; intros mc e; simpl; [discriminate|].
  destruct (maxCheckpoint_body config visit mc ks) as [mc'|e'] eqn:Hb.
  - apply IH.
  - intros [= <-]. rewrite maxCheckpoint_body_cases in Hb.
    destruct (entry_ok config visit ks); [|discriminate].
    destruct mc as [m|]; [|discriminate].
    destruct (_ <? _); [discriminate|].
    destruct (_ =? _); [|discriminate].
    injection Hb as <-. reflexivity.
Qed.

(** Without two admissible keys of one sequence number the loop over the
    checkpoints map cannot reach its panic. *)
Lemma loop_no_conflict config epochChanges visit l :
  visit ≡ₚ map_to_list epochChanges ->
  no_conflict config epochChanges ->
  forall seen mc,
    NoDup ((seen ++ l).*1) ->
    (forall ks, ks ∈ seen ++ l ->
                snd (collectCheckpoints visit) !! fst ks = Some (snd ks)) ->
    selected_among config visit seen mc ->
    exists r, maxCheckpoint_loop config visit l mc = Ok r.
Proof.
  intros Hv Hnc. induction l as [|ks l IH]; intros seen mc Hnd Hfiled Hsel;
    simpl; [eauto|].
  assert (Hok : exists mc', maxCheckpoint_body config visit mc ks = Ok mc').
  { rewrite maxCheckpoint_body_cases.
    destruct (entry_ok config visit ks) eqn:Hks; [|eauto].
    destruct mc as [m|]; [|eauto].
    destruct (_ <? _); [eauto|].
    destruct (N.eqb_spec (fst m) (fst (fst ks))) as [Heq|]; [|eauto].
    exfalso. destruct Hsel as [(sup & Hin & Hsup) _].
    assert (Ha1 : admissible config epochChanges m).
    { apply (entry_ok_admissible config epochChanges visit Hv m sup);
        [|exact Hsup].
      apply (Hfiled (m, sup)). apply elem_of_app. left. exact Hin. }
    assert (Ha2 : admissible config epochChanges (fst ks)).
    { apply (entry_ok_admissible config epochChanges visit Hv (fst ks) (snd ks)).
      - apply Hfiled. apply elem_of_app. right. left.
      - rewrite <- surjective_pairing. exact Hks. }
    pose proof (Hnc _ _ Ha1 Ha2 Heq) as Hsame.
    rewrite fmap_app in Hnd. apply NoDup_app in Hnd as (_ & Hdisj & _).
    apply (Hdisj m).
    - apply (list_elem_of_fmap_2 fst) in Hin. exact Hin.
    - rewrite Hsame. simpl. left. }
  destruct Hok as [mc' Hb]. rewrite Hb.
  apply (IH (seen ++ [ks])).
  - rewrite <- app_assoc. exact Hnd.
  - rewrite <- app_assoc. exact Hfiled.
  - eapply body_selected_among; eassumption.
Qed.

(** *** The committed prefix *)

Lemma selectEntry_perm config epochChanges visit1 visit2 nodes seqNo :
  visit1 ≡ₚ visit2 ->
  selectEntry config epochChanges visit1 nodes seqNo
  = selectEntry config epochChanges visit2 nodes seqNo.
Proof.
  intros Hp. induction nodes as [|nodeID rest IH]; simpl; [reflexivity|].
  destruct (epochChanges !! nodeID) as [epochChange|]; [|exact IH].
  destruct (pSet epochChange !! seqNo) as [entry|]; [|exact IH].
  rewrite !a1Count_counts, !a2Count_counts.
  rewrite (count_of_perm _ _ _ Hp),
    (count_of_perm (fun ne => A2 seqNo entry (snd ne)) _ _ Hp), IH.
  reflexivity.
Qed.

Lemma fillPreprepares_perm config epochChanges visit1 visit2 maxSeqNo offsets :
  visit1 ≡ₚ visit2 ->
  forall finalPreprepares anySelected,
    fillPreprepares config epochChanges visit1 maxSeqNo offsets
                    finalPreprepares anySelected
    = fillPreprepares config epochChanges visit2 maxSeqNo offsets
                      finalPreprepares anySelected.
Proof.
  intros Hp. induction offsets as [|off rest IH]; intros fp sel; simpl;
    [reflexivity|].
  rewrite (selectEntry_perm _ _ _ _ _ _ Hp).
  destruct (selectEntry _ _ _ _ _); [apply IH|].
  rewrite !bCount_counts, (count_of_perm _ _ _ Hp).
  destruct (_ <? _)%Z; [reflexivity | apply IH].
Qed.

(** *** Runs of the constructor under two visiting orders *)

(** The run up to the choice of the starting checkpoint. *)
Lemma chosen_checkpoint config o epochChanges mc :
  lawful o -> chosen config o epochChanges = Ok mc ->
  selected config epochChanges mc.
Proof.
  intros [Hec Hck] Hloop. unfold chosen in Hloop.
  eapply (selected_among_selected config epochChanges _ (Hec _)).
  - apply Hck.
  - apply (loop_selected_among config _ _ [] None mc); [|exact Hloop].
    intros ks Hin. inversion Hin.
Qed.

Lemma chosen_without_conflict config o epochChanges :
  lawful o -> no_conflict config epochChanges ->
  exists mc, chosen config o epochChanges = Ok mc.
Proof.
  intros [Hec Hck] Hnc. unfold chosen.
  apply (loop_no_conflict config epochChanges _ _ (Hec _) Hnc []).
  - simpl. rewrite (Hck _). apply NoDup_fst_map_to_list.
  - intros [key sup] Hin. simpl in *. rewrite (Hck _) in Hin.
    apply elem_of_map_to_list in Hin. exact Hin.
  - intros ks Hin. inversion Hin.
Qed.

Lemma chosen_panic config o newLeaders epochChanges e :
  chosen config o epochChanges = Panic e ->
  constructNewEpochConfig config o newLeaders epochChanges = Panic conflict.
Proof.
  unfold chosen, constructNewEpochConfig.
  destruct (collectCheckpoints _) as [num cps]. simpl.
  intros Hloop. rewrite Hloop.
  apply loop_panic_is_conflict in Hloop as ->. reflexivity.
Qed.

Lemma number_agrees o1 o2 epochChanges :
  lawful o1 -> lawful o2 -> same_new_epoch epochChanges ->
  fst (collectCheckpoints (rangeEpochChanges o1 (map_to_list epochChanges)))
  = fst (collectCheckpoints (rangeEpochChanges o2 (map_to_list epochChanges))).
Proof.
  intros [H1 _] [H2 _] Hsame. rewrite !collectCheckpoints_number.
  pose proof (H1 (map_to_list epochChanges)) as Hp1.
  pose proof (H2 (map_to_list epochChanges)) as Hp2.
  destruct (last (rangeEpochChanges o1 _)) as [[i eci]|] eqn:Hl1;
    destruct (last (rangeEpochChanges o2 _)) as [[j ecj]|] eqn:Hl2; simpl.
  - apply last_Some_elem_of in Hl1, Hl2.
    rewrite Hp1 in Hl1. rewrite Hp2 in Hl2.
    apply elem_of_map_to_list in Hl1, Hl2. eapply Hsame; eassumption.
  - apply last_None in Hl2. rewrite Hl2 in Hp2.
    apply last_Some_elem_of in Hl1. rewrite Hp1, <- Hp2 in Hl1. inversion Hl1.
  - apply last_None in Hl1. rewrite Hl1 in Hp1.
    apply last_Some_elem_of in Hl2. rewrite Hp2, <- Hp1 in Hl2. inversion Hl2.
  - reflexivity.
Qed.

(** The rest of a run, once the starting checkpoint is fixed, does not
    depend on the visiting order, the epoch number apart. *)
Lemma runs_agree config o1 o2 newLeaders epochChanges mc :
  lawful o1 -> lawful o2 ->
  chosen config o1 epochChanges = Ok mc ->
  chosen config o2 epochChanges = Ok mc ->
  with_number 0 (constructNewEpochConfig config o1 newLeaders epochChanges)
  = with_number 0 (constructNewEpochConfig config o2 newLeaders epochChanges)
  /\ (fst (collectCheckpoints (rangeEpochChanges o1 (map_to_list epochChanges)))
      = fst (collectCheckpoints (rangeEpochChanges o2 (map_to_list epochChanges))) ->
      constructNewEpochConfig config o1 newLeaders epochChanges
      = constructNewEpochConfig config o2 newLeaders epochChanges)
  /\ constructNewEpochConfig config o1 newLeaders epochChanges <> Panic conflict.
Proof.
  intros Hl1 Hl2 Hm1 Hm2.
  assert (Hp : rangeEpochChanges o1 (map_to_list epochChanges)
               ≡ₚ rangeEpochChanges o2 (map_to_list epochChanges)).
  { rewrite (proj1 Hl1 _), (proj1 Hl2 _). reflexivity. }
  unfold chosen, constructNewEpochConfig in *.
  remember (rangeEpochChanges o1 (map_to_list epochChanges)) as visit1.
  remember (rangeEpochChanges o2 (map_to_list epochChanges)) as visit2.
  remember (collectCheckpoints visit1) as c1. destruct c1 as [n1 cps1].
  remember (collectCheckpoints visit2) as c2. destruct c2 as [n2 cps2].
  simpl in *. rewrite Hm1, Hm2.
  destruct mc as [k|];
    [|split; [reflexivity | split; [reflexivity | discriminate]]].
  destruct (_ <? 0)%Z;
    [split; [reflexivity | split; [reflexivity | discriminate]]|].
  rewrite (fillPreprepares_perm _ _ _ _ _ _ Hp).
  destruct (fillPreprepares _ _ _ _ _ _ _) as [[fp sel]|];
    (split; [reflexivity | split; [|discriminate]]).
  - intros ->. reflexivity.
  - reflexivity.
Qed.

(** C3, amended.  Take the same configuration, leaders and map of epoch
    changes, and any two orders in which the maps may be visited.  If
    neither run ends in the panic on conflicting checkpoints, the two runs
    return the same result (the same NewEpochConfig, or both nil) except
    possibly for [Config.Number], and the same [Config.Number] too when all
    epoch changes are for the same new epoch.  No run ends in that panic
    when no two distinct checkpoint keys of the same sequence number both
    pass the two tests of the constructor.  A key passes them when it is
    listed among the checkpoints of the epoch changes at least once and at
    least [someCorrectQuorum] times in all, every listing counted (a
    checkpoint that one epoch change lists twice counts twice, as
    [len(supporters)] does), and at least [intersectionQuorum] epoch
    changes have their low watermark at or below its sequence number. *)
Theorem constructNewEpochConfig_deterministic
        (config : NetworkConfig.t) (o1 o2 : rangeOrder) (newLeaders : list N)
        (epochChanges : gmap N parsedEpochChange) :
  lawful o1 -> lawful o2 ->
  (constructNewEpochConfig config o1 newLeaders epochChanges <> Panic conflict ->
   constructNewEpochConfig config o2 newLeaders epochChanges <> Panic conflict ->
   with_number 0 (constructNewEpochConfig config o1 newLeaders epochChanges)
   = with_number 0 (constructNewEpochConfig config o2 newLeaders epochChanges)
   /\ (same_new_epoch epochChanges ->
       constructNewEpochConfig config o1 newLeaders epochChanges
       = constructNewEpochConfig config o2 newLeaders epochChanges))
  /\ (no_conflict config epochChanges ->
      constructNewEpochConfig config o1 newLeaders epochChanges
      <> Panic conflict
      /\ constructNewEpochConfig config o2 newLeaders epochChanges
         <> Panic conflict).
Proof.
  intros Hl1 Hl2. split.
  - intros Hn1 Hn2.
    destruct (chosen config o1 epochChanges) as [mc1|e1] eqn:H1;
      [|exfalso; apply Hn1; eapply chosen_panic; exact H1].
    destruct (chosen config o2 epochChanges) as [mc2|e2] eqn:H2;
      [|exfalso; apply Hn2; eapply chosen_panic; exact H2].
    assert (mc1 = mc2) as <-.
    { apply (selected_unique config epochChanges).
      - exact (chosen_checkpoint config o1 epochChanges mc1 Hl1 H1).
      - exact (chosen_checkpoint config o2 epochChanges mc2 Hl2 H2). }
    destruct (runs_agree config o1 o2 newLeaders epochChanges mc1
                Hl1 Hl2 H1 H2) as (Hshape & Hnum & _).
    split; [exact Hshape|].
    intros Hsame. apply Hnum. apply number_agrees; assumption.
  - intros Hnc.
    destruct (chosen_without_conflict config o1 epochChanges Hl1 Hnc) as [mc1 H1].
    destruct (chosen_without_conflict config o2 epochChanges Hl2 Hnc) as [mc2 H2].
    split.
    + exact (proj2 (proj2 (runs_agree config o1 o1 newLeaders epochChanges mc1
                             Hl1 Hl1 H1 H1))).
    + exact (proj2 (proj2 (runs_agree config o2 o2 newLeaders epochChanges mc2
                             Hl2 Hl2 H2 H2))).
Qed.

(** *** Concrete runs *)

Lemma lawful_as_listed : lawful as_listed.
Proof. split; intros l; reflexivity. Qed.

Lemma lawful_backwards : lawful backwards.
Proof. split; intros l; apply reverse_Permutation. Qed.

Lemma lawful_top_first : lawful top_first.
Proof. split; intros l; [reflexivity | apply filter_app_complement]. Qed.

Lemma lawful_top_last : lawful top_last.
Proof.
  split; intros l; [reflexivity|]. simpl.
  rewrite Permutation_app_comm. apply filter_app_complement.
Qed.

Lemma all_for_epoch (e : N) (epochChanges : gmap N parsedEpochChange) :
  map_Forall (fun _ ec => EpochChange.NewEpoch (underlying ec) = e) epochChanges ->
  same_new_epoch epochChanges.
Proof.
  intros He i j eci ecj Hi Hj. rewrite (He i eci Hi), (He j ecj Hj). reflexivity.
Qed.

(** C3, as stated, fails, in two ways.  When the epoch changes are not all
    for the same new epoch, [Number] is taken from whichever entry the
    first loop visits last: visiting [mixed_epochs] front to back gives
    epoch 8, back to front gives epoch 7.  And whether the panic on
    conflicting checkpoints is reached depends on the order in which the
    checkpoints map is visited: on [shadowed_conflict] one order returns a
    configuration and another one panics. *)
Lemma constructNewEpochConfig_order_dependent :
  lawful as_listed /\ lawful backwards /\ lawful top_first /\ lawful top_last
  /\ constructNewEpochConfig four_nodes as_listed [0; 1] mixed_epochs
     <> constructNewEpochConfig four_nodes backwards [0; 1] mixed_epochs
  /\ (exists cfg1 cfg2,
        constructNewEpochConfig four_nodes as_listed [0; 1] mixed_epochs
        = Ok (Some cfg1)
        /\ constructNewEpochConfig four_nodes backwards [0; 1] mixed_epochs
           = Ok (Some cfg2)
        /\ EpochConfig.Number (NewEpochConfig.Config cfg1) = 8
        /\ EpochConfig.Number (NewEpochConfig.Config cfg2) = 7)
  /\ same_new_epoch shadowed_conflict
  /\ (exists cfg,
        constructNewEpochConfig four_nodes top_first [0; 1] shadowed_conflict
        = Ok (Some cfg))
  /\ constructNewEpochConfig four_nodes top_last [0; 1] shadowed_conflict
     = Panic conflict.
Proof.
  split; [exact lawful_as_listed|]. split; [exact lawful_backwards|].
  split; [exact lawful_top_first|]. split; [exact lawful_top_last|].
  split; [vm_compute; discriminate|].
  split; [eexists _, _; repeat split; vm_compute; reflexivity|].
  split.
  { apply (all_for_epoch 7). refine (bool_decide_unpack _ _).
    vm_compute. exact I. }
  split; [eexists; vm_compute; reflexivity|].
  vm_compute. reflexivity.
Qed.

(** Visiting [three_prepared] front to back or back to front gives the same
    configuration. *)
Lemma constructNewEpochConfig_deterministic_witness :
  lawful as_listed /\ lawful backwards /\ same_new_epoch three_prepared
  /\ constructNewEpochConfig four_nodes as_listed [0; 1] three_prepared
     = constructNewEpochConfig four_nodes backwards [0; 1] three_prepared.
Proof.
  assert (Hsame : same_new_epoch three_prepared).
  { apply (all_for_epoch 7). refine (bool_decide_unpack _ _).
    vm_compute. exact I. }
  split; [exact lawful_as_listed|]. split; [exact lawful_backwards|].
  split; [exact Hsame|].
  refine (proj2 (proj1 (constructNewEpochConfig_deterministic
                          four_nodes as_listed backwards [0; 1] three_prepared
                          lawful_as_listed lawful_backwards) _ _) Hsame);
    vm_compute; discriminate.
Defined.

(** *** Conflicting checkpoints *)

Section Top.

Variable config : NetworkConfig.t.
Variable visit : list (N * parsedEpochChange).
Variable s : N.

(** With the running maximum already at the greatest sequence number [s]
    that passes the tests, one more passing entry at [s] is a panic. *)
Lemma loop_panics_at_top l : forall mc,
  (forall ks, ks ∈ l -> entry_ok config visit ks = true -> fst (fst ks) <= s) ->
  (exists m, mc = Some m /\ fst m = s) ->
  (exists ks, ks ∈ l /\ entry_ok config visit ks = true /\ fst (fst ks) = s) ->
  maxCheckpoint_loop config visit l mc = Panic conflict.
Proof.
  induction l as [|h l IH]; intros mc Hbound (m & -> & Hm) (ks & Hin & Hok & Hs).
  { inversion Hin. }
  simpl. rewrite maxCheckpoint_body_cases.
  destruct (entry_ok config visit h) eqn:Hh.
  - pose proof (Hbound h ltac:(left) Hh) as Hle.
    destruct (N.ltb_spec (fst (fst h)) (fst m)) as [Hlt|Hge].
    + apply IH; [intros; apply Hbound; [right|]; assumption | eauto |].
      apply elem_of_cons in Hin as [->|Hin]; [lia|]. eauto.
    + destruct (N.eqb_spec (fst m) (fst (fst h))) as [_|Hne]; [reflexivity|].
      lia.
  - apply IH; [intros; apply Hbound; [right|]; assumption | eauto |].
    apply elem_of_cons in Hin as [->|Hin]; [congruence|]. eauto.
Qed.

(** Two different passing entries at the greatest passing sequence number
    make the loop panic, wherever they are in the visiting order. *)
Lemma loop_panics_on_two l : forall mc e1 e2,
  (forall ks, ks ∈ l -> entry_ok config visit ks = true -> fst (fst ks) <= s) ->
  (forall m, mc = Some m -> fst m <= s) ->
  e1 ∈ l -> e2 ∈ l -> e1 <> e2 ->
  entry_ok config visit e1 = true -> entry_ok config visit e2 = true ->
  fst (fst e1) = s -> fst (fst e2) = s ->
  maxCheckpoint_loop config visit l mc = Panic conflict.
Proof.
  induction l as [|h l IH];
    intros mc e1 e2 Hbound Hmc Hin1 Hin2 Hne Hok1 Hok2 Hs1 Hs2.
  { inversion Hin1. }
  assert (Hrest : forall ks, ks ∈ l -> entry_ok config visit ks = true ->
                             fst (fst ks) <= s)
    by (intros; apply Hbound; [right|]; assumption).
  assert (Hhead : forall e e', e = h -> e' ∈ l ->
                    entry_ok config visit e = true ->
                    entry_ok config visit e' = true ->
                    fst (fst e) = s -> fst (fst e') = s ->
                    maxCheckpoint_loop config visit (h :: l) mc = Panic conflict).
  { intros e e' -> Hin' Hok Hok' Hs Hs'. simpl.
    rewrite maxCheckpoint_body_cases, Hok.
    destruct mc as [m|].
    - pose proof (Hmc m eq_refl) as Hle.
      destruct (N.ltb_spec (fst (fst h)) (fst m)) as [Hlt|Hge]; [lia|].
      destruct (N.eqb_spec (fst m) (fst (fst h))) as [_|Hneq]; [reflexivity|].
      apply loop_panics_at_top; eauto.
    - apply loop_panics_at_top; eauto. }
  apply elem_of_cons in Hin1 as [H1|H1]; apply elem_of_cons in Hin2 as [H2|H2].
  - congruence.
  - apply (Hhead e1 e2); assumption.
  - apply (Hhead e2 e1); assumption.
  - simpl. rewrite maxCheckpoint_body_cases.
    destruct (entry_ok config visit h) eqn:Hh.
    + pose proof (Hbound h ltac:(left) Hh) as Hle.
      destruct mc as [m|].
      * destruct (N.ltb_spec (fst (fst h)) (fst m)) as [Hlt|Hge].
        -- apply (IH _ e1 e2); assumption.
        -- destruct (N.eqb_spec (fst m) (fst (fst h))) as [_|Hneq];
             [reflexivity|].
           apply (IH _ e1 e2); try assumption. intros m' [= <-]. exact Hle.
      * apply (IH _ e1 e2); try assumption. intros m' [= <-]. exact Hle.
    + apply (IH _ e1 e2); assumption.
Qed.

End Top.

(** C4, as stated, fails.  In [shadowed_conflict] no node lists a
    checkpoint twice, so that listings and reporters number the same; the
    keys (10, "a") and (10, "b") are both admissible, each with two
    reporters, and so is (20, "c").  When the loop over
    the checkpoints map visits (20, "c") first, neither key at 10 is ever
    compared with an equal sequence number: the constructor returns a
    configuration starting at (20, "c") and does not abort. *)
Lemma shadowed_conflict_not_detected :
  lawful top_first
  /\ admissible four_nodes shadowed_conflict (10, "a")
  /\ admissible four_nodes shadowed_conflict (10, "b")
  /\ exists cfg,
       constructNewEpochConfig four_nodes top_first [0; 1] shadowed_conflict
       = Ok (Some cfg)
       /\ NewEpochConfig.StartingCheckpoint cfg = checkpoint 20 "c".
Proof.
  split; [exact lawful_top_first|].
  split; [|split].
  - split; [vm_compute; lia | split; vm_compute; discriminate].
  - split; [vm_compute; lia | split; vm_compute; discriminate].
  - eexists. split; vm_compute; reflexivity.
Qed.

Lemma reports_positive visit key :
  (0 < reports visit key)%nat -> key ∈ map key_of (reported visit).
Proof.
  unfold reports. intros Hpos.
  destruct (filter (fun cp => key_of cp = key) (reported visit)) as [|cp l] eqn:Hf;
    [simpl in Hpos; lia|].
  assert (Hin : cp ∈ filter (fun cp => key_of cp = key) (reported visit))
    by (rewrite Hf; left).
  apply list_elem_of_filter in Hin as [<- Hin].
  apply list_elem_of_In, in_map, list_elem_of_In, Hin.
Qed.

(** C4, amended.  Whenever two checkpoint keys with the same sequence
    number and different values both pass the two tests of the constructor
    and no key that passes them has a greater sequence number, the
    constructor panics with the safety-failure message, in whatever order
    the maps are visited.  A key passes the tests when it is listed among
    the checkpoints of the epoch changes at least once and at least
    [someCorrectQuorum] times in all, every listing counted (a checkpoint
    that one epoch change lists twice counts twice, as [len(supporters)]
    does), and at least [intersectionQuorum] epoch changes have their low
    watermark at or below its sequence number. *)
Theorem conflicting_checkpoints_at_top_panic
        (config : NetworkConfig.t) (o : rangeOrder) (newLeaders : list N)
        (epochChanges : gmap N parsedEpochChange) (k1 k2 : checkpointKey) :
  lawful o ->
  admissible config epochChanges k1 ->
  admissible config epochChanges k2 ->
  fst k1 = fst k2 ->
  snd k1 <> snd k2 ->
  (forall key, admissible config epochChanges key -> fst key <= fst k1) ->
  constructNewEpochConfig config o newLeaders epochChanges = Panic conflict.
Proof.
  intros [Hec Hck] Ha1 Ha2 Hseq Hval Htop.
  unfold constructNewEpochConfig.
  remember (rangeEpochChanges o (map_to_list epochChanges)) as visit.
  assert (Hv : visit ≡ₚ map_to_list epochChanges) by (subst; apply Hec).
  destruct (admissible_filed config epochChanges visit Hv k1 Ha1) as [sup1 Hf1].
  destruct (admissible_filed config epochChanges visit Hv k2 Ha2) as [sup2 Hf2].
  remember (collectCheckpoints visit) as c. destruct c as [num cps].
  simpl in *.
  rewrite (loop_panics_on_two config visit (fst k1) _ None (k1, sup1) (k2, sup2));
    try reflexivity.
  - intros [key sup] Hin Hok. simpl. apply Htop.
    rewrite (Hck _) in Hin. apply elem_of_map_to_list in Hin.
    apply (entry_ok_admissible config epochChanges visit Hv key sup);
      [rewrite <- Heqc; exact Hin | exact Hok].
  - discriminate.
  - rewrite (Hck _). apply elem_of_map_to_list. exact Hf1.
  - rewrite (Hck _). apply elem_of_map_to_list. exact Hf2.
  - intros [= -> _]. apply Hval. reflexivity.
  - apply (entry_ok_admissible config epochChanges visit Hv k1 sup1);
      [rewrite <- Heqc; exact Hf1 | exact Ha1].
  - apply (entry_ok_admissible config epochChanges visit Hv k2 sup2);
      [rewrite <- Heqc; exact Hf2 | exact Ha2].
  - simpl. symmetry. exact Hseq.
Qed.

(** Two admissible candidates at sequence number 10 with distinct values,
    and nothing above them: the constructor aborts. *)
Lemma conflicting_checkpoints_at_top_panic_witness :
  lawful backwards
  /\ admissible four_nodes top_conflict (10, "a")
  /\ admissible four_nodes top_conflict (10, "b")
  /\ (forall key, admissible four_nodes top_conflict key -> fst key <= 10)
  /\ constructNewEpochConfig four_nodes backwards [0; 1] top_conflict
     = Panic conflict.
Proof.
  assert (Ha : admissible four_nodes top_conflict (10, "a"))
    by (split; [vm_compute; lia | split; vm_compute; discriminate]).
  assert (Hb : admissible four_nodes top_conflict (10, "b"))
    by (split; [vm_compute; lia | split; vm_compute; discriminate]).
  assert (Htop : forall key, admissible four_nodes top_conflict key ->
                             fst key <= 10).
  { intros key (Hpos & _). apply reports_positive in Hpos.
    assert (Hall : Forall (fun k : checkpointKey => fst k <= 10)
                          (map key_of (reported (map_to_list top_conflict))))
      by (refine (bool_decide_unpack _ _); vm_compute; exact I).
    rewrite Forall_forall in Hall. apply Hall, Hpos. }
  split; [exact lawful_backwards|]. split; [exact Ha|]. split; [exact Hb|].
  split; [exact Htop|].
  apply (conflicting_checkpoints_at_top_panic
           four_nodes backwards [0; 1] top_conflict (10, "a") (10, "b")
           lawful_backwards Ha Hb eq_refl);
    [discriminate | exact Htop].
Defined.

End ConstructorFacts.

(** ** Quorums, buckets and columns *)

Module HelperFacts.
Import NodeMsgsFacts.

Lemma size_list_to_set_le (l : list N) :
  (size (list_to_set l : gset N) <= length l)%nat.
Proof.
  induction l as [|x l IH].
  - rewrite list_to_set_nil, size_empty. simpl. lia.
  - rewrite list_to_set_cons. simpl length.
    pose proof (size_union_alt ({[x]} : gset N) (list_to_set l)) as Hu.
    pose proof (subseteq_size (list_to_set l ∖ {[x]}) (list_to_set l : gset N))
      as Hs.
    rewrite size_singleton in Hu.
    assert (Hsub : list_to_set l ∖ {[x]} ⊆ (list_to_set l : gset N))
      by apply subseteq_difference_l, reflexivity.
    specialize (Hs Hsub). lia.
Qed.

Lemma size_intersection (A B : gset N) :
  (size (A ∩ B) + size (A ∪ B) = size A + size B)%nat.
Proof.
  assert (HA : A = (A ∩ B) ∪ (A ∖ B)).
  { apply set_eq. intros x. rewrite elem_of_union, elem_of_intersection,
      elem_of_difference. destruct (decide (x ∈ B)); tauto. }
  assert (Hd : (A ∩ B) ## (A ∖ B)).
  { intros x. rewrite elem_of_intersection, elem_of_difference. tauto. }
  pose proof (size_union _ _ Hd) as H1. rewrite <- HA in H1.
  assert (HU : A ∪ B = B ∪ (A ∖ B)).
  { apply set_eq. intros x. rewrite !elem_of_union, elem_of_difference.
    destruct (decide (x ∈ B)); tauto. }
  assert (Hd2 : B ## (A ∖ B)).
  { intros x. rewrite elem_of_difference. tauto. }
  pose proof (size_union _ _ Hd2) as H2. rewrite <- HU in H2. lia.
Qed.

(** X1.  Any two sets of nodes of the configuration that each hold at
    least [intersectionQuorum] nodes have at least [someCorrectQuorum]
    (that is, [F + 1]) nodes in common, so that with at most [F] faulty
    nodes the two sets share a correct node. *)
Theorem intersectionQuorum_overlap (nc : NetworkConfig.t) (A B : gset N) :
  A ⊆ list_to_set (NetworkConfig.Nodes nc) ->
  B ⊆ list_to_set (NetworkConfig.Nodes nc) ->
  (intersectionQuorum nc <= Z.of_nat (size A))%Z ->
  (intersectionQuorum nc <= Z.of_nat (size B))%Z ->
  (someCorrectQuorum nc <= Z.of_nat (size (A ∩ B)))%Z.
Proof.
  intros HA HB HqA HqB.
  pose proof (size_intersection A B) as Hi.
  assert (HU : A ∪ B ⊆ list_to_set (NetworkConfig.Nodes nc))
    by (apply union_least; assumption).
  apply subseteq_size in HU.
  pose proof (size_list_to_set_le (NetworkConfig.Nodes nc)) as Hn.
  unfold intersectionQuorum, someCorrectQuorum in *.
  set (n := Z.of_nat (length (NetworkConfig.Nodes nc))) in *.
  assert (Hn0 : (0 <= n)%Z) by (unfold n; lia).
  destruct (Z_lt_le_dec (NetworkConfig.F nc + 1) 1) as [Hneg|Hpos]; [lia|].
  rewrite Z.quot_div_nonneg in HqA, HqB by lia.
  assert (Hsz : (size (A ∪ B) <= length (NetworkConfig.Nodes nc))%nat) by lia.
  assert (Hhalf : (n + NetworkConfig.F nc + 1
                   <= 2 * ((n + NetworkConfig.F nc + 2) / 2))%Z)
    by (pose proof (Z.div_mod (n + NetworkConfig.F nc + 2) 2);
        pose proof (Z.mod_pos_bound (n + NetworkConfig.F nc + 2) 2); lia).
  unfold n in *. lia.
Qed.

(** Of four nodes with one fault, the sets {0, 1, 2} and {1, 2, 3} share
    two nodes. *)
Lemma intersectionQuorum_overlap_witness :
  Z.le (someCorrectQuorum four_nodes)
       (Z.of_nat (size (({[0; 1; 2]} : gset N) ∩ {[1; 2; 3]}))).
Proof.
  apply (intersectionQuorum_overlap four_nodes {[0; 1; 2]} {[1; 2; 3]}).
  - refine (bool_decide_unpack _ _). vm_compute. exact I.
  - refine (bool_decide_unpack _ _). vm_compute. exact I.
  - vm_compute. discriminate.
  - vm_compute. discriminate.
Defined.

Lemma sub64_le a b : b <= a -> a < 2 ^ 64 -> sub64 a b = a - b.
Proof.
  intros Hle Hlt. unfold sub64, wrap64.
  replace (a + 2 ^ 64 - b) with ((a - b) + 1 * 2 ^ 64) by lia.
  rewrite N.Div0.mod_add. apply N.mod_small. lia.
Qed.

Lemma uint64_of_int_pos z : (0 < z < 2 ^ 31)%Z -> uint64_of_int z = Z.to_N z.
Proof.
  intros H. unfold uint64_of_int. rewrite Z.mod_small; [reflexivity|]. lia.
Qed.

(** X2.  With no buckets configured, [seqToBucket] and [seqToColumn]
    panic on the division.  With a positive number of buckets, a sequence
    number of the epoch is given back by its bucket and column: the bucket
    is below the number of buckets, columns count from 1, and
    [seqNo = initialSequence + (column - 1) * buckets + bucket]. *)
Theorem seqToBucket_seqToColumn_round_trip
        (seqNo : N) (ec : EpochConfig.t) (nc : NetworkConfig.t) :
  (NetworkConfig.NumberOfBuckets nc = 0%Z ->
   seqToBucket seqNo ec nc = Panic "integer divide by zero"
   /\ seqToColumn seqNo ec nc = Panic "integer divide by zero")
  /\ ((0 < NetworkConfig.NumberOfBuckets nc < 2 ^ 31)%Z ->
      initialSequence ec nc <= seqNo -> seqNo < 2 ^ 64 - 1 ->
      exists bucket column,
        seqToBucket seqNo ec nc = Ok bucket
        /\ seqToColumn seqNo ec nc = Ok column
        /\ bucket < Z.to_N (NetworkConfig.NumberOfBuckets nc)
        /\ 1 <= column
        /\ seqNo = initialSequence ec nc
                   + (column - 1) * Z.to_N (NetworkConfig.NumberOfBuckets nc)
                   + bucket).
Proof.
  split.
  - intros H0. unfold seqToBucket, seqToColumn. rewrite H0. split; reflexivity.
  - intros Hb Hle Hlt. unfold seqToBucket, seqToColumn.
    rewrite uint64_of_int_pos by exact Hb.
    set (b := Z.to_N (NetworkConfig.NumberOfBuckets nc)).
    assert (Hb0 : b <> 0) by (unfold b; lia).
    destruct (N.eqb_spec b 0) as [?|_]; [contradiction|].
    rewrite sub64_le by lia.
    set (d := seqNo - initialSequence ec nc).
    assert (Hd : d <= seqNo) by (unfold d; lia).
    assert (Hs : seqNo = initialSequence ec nc + d) by (unfold d; lia).
    pose proof (N.div_mod d b Hb0) as Hdm.
    pose proof (N.mod_lt d b Hb0) as Hr.
    revert Hdm Hr. generalize (d / b) (d mod b). intros q r Hdm Hr.
    assert (Hq : q <= d) by nia.
    rewrite wrap64_small by lia.
    exists r, (q + 1). split; [reflexivity|]. split; [reflexivity|].
    split; [exact Hr|]. split; [lia|]. nia.
Qed.

(** Two buckets, an epoch that starts at sequence number 4: sequence
    number 7 is in bucket 1, column 2. *)
Lemma seqToBucket_seqToColumn_round_trip_witness :
  exists bucket column,
    seqToBucket 7 (EpochConfig.mk 1 [0; 1] 103)
                (NetworkConfig.mk [0; 1; 2; 3] 1 5 100 2) = Ok bucket
    /\ seqToColumn 7 (EpochConfig.mk 1 [0; 1] 103)
                   (NetworkConfig.mk [0; 1; 2; 3] 1 5 100 2) = Ok column
    /\ bucket < 2 /\ 1 <= column
    /\ 7 = 4 + (column - 1) * 2 + bucket.
Proof.
  apply (proj2 (seqToBucket_seqToColumn_round_trip
                  7 (EpochConfig.mk 1 [0; 1] 103)
                  (NetworkConfig.mk [0; 1; 2; 3] 1 5 100 2))).
  - simpl. lia.
  - vm_compute. discriminate.
  - vm_compute. reflexivity.
Defined.

End HelperFacts.

(** ** The shape of a new epoch configuration *)

Module ConstructorShapeFacts.
Import ConstructorSpec ConstructorExamples ConstructorFacts ConstructorShape
       NodeMsgsFacts.

(** The parts of a run that returns a configuration. *)
Lemma constructNewEpochConfig_some config o newLeaders epochChanges cfg :
  constructNewEpochConfig config o newLeaders epochChanges = Ok (Some cfg) ->
  let visit := rangeEpochChanges o (map_to_list epochChanges) in
  let len := Z.to_nat (wrap_int32 (2 * NetworkConfig.CheckpointInterval config)) in
  exists mc fp anySelected,
    chosen config o epochChanges = Ok (Some mc)
    /\ fillPreprepares config epochChanges visit (fst mc) (seq 0 len)
                       (replicate len None) false = Some (fp, anySelected)
    /\ cfg = NewEpochConfig.mk
               (EpochConfig.mk (fst (collectCheckpoints visit)) newLeaders
                  (wrap64 (fst mc + NetworkConfig.MaxEpochLength config)))
               (Checkpoint.mk (fst mc) (Some (snd mc)))
               (if anySelected then fp else []).
Proof.
  unfold constructNewEpochConfig, chosen. intros H. simpl.
  destruct (collectCheckpoints _) as [num cps] eqn:Hc. simpl.
  destruct (maxCheckpoint_loop _ _ _ _) as [[mc|]|e]; try discriminate.
  destruct (_ <? 0)%Z; [discriminate|].
  destruct (fillPreprepares _ _ _ _ _ _ _) as [[fp anySelected]|] eqn:Hf;
    [|discriminate].
  injection H as <-. exists mc, fp, anySelected. auto.
Qed.

Lemma three_prepared_run :
  constructNewEpochConfig four_nodes as_listed [0; 1] three_prepared
  = Ok (Some three_prepared_config).
Proof. vm_compute. reflexivity. Qed.

(** X3.  A configuration that the constructor returns carries the given
    leaders, expires [MaxEpochLength] sequence numbers behind its starting
    checkpoint, and (no [uint64] sum overflowing) makes the epoch start
    right behind that checkpoint: [initialSequence] of the new
    configuration is the checkpoint's sequence number plus 1, which
    [seqToBucket] and [seqToColumn] place in bucket 0, column 1. *)
Theorem constructNewEpochConfig_epoch_start
        (config : NetworkConfig.t) (o : rangeOrder) (newLeaders : list N)
        (epochChanges : gmap N parsedEpochChange) (cfg : NewEpochConfig.t) :
  constructNewEpochConfig config o newLeaders epochChanges = Ok (Some cfg) ->
  Checkpoint.SeqNo (NewEpochConfig.StartingCheckpoint cfg)
  + NetworkConfig.MaxEpochLength config < 2 ^ 64 ->
  Checkpoint.SeqNo (NewEpochConfig.StartingCheckpoint cfg) + 1 < 2 ^ 64 ->
  EpochConfig.Leaders (NewEpochConfig.Config cfg) = newLeaders
  /\ EpochConfig.PlannedExpiration (NewEpochConfig.Config cfg)
     = Checkpoint.SeqNo (NewEpochConfig.StartingCheckpoint cfg)
       + NetworkConfig.MaxEpochLength config
  /\ initialSequence (NewEpochConfig.Config cfg) config
     = Checkpoint.SeqNo (NewEpochConfig.StartingCheckpoint cfg) + 1
  /\ ((0 < NetworkConfig.NumberOfBuckets config < 2 ^ 31)%Z ->
      seqToBucket (Checkpoint.SeqNo (NewEpochConfig.StartingCheckpoint cfg) + 1)
                  (NewEpochConfig.Config cfg) config = Ok 0
      /\ seqToColumn (Checkpoint.SeqNo (NewEpochConfig.StartingCheckpoint cfg) + 1)
                     (NewEpochConfig.Config cfg) config = Ok 1).
Proof.
  intros Hrun.
  destruct (constructNewEpochConfig_some _ _ _ _ _ Hrun)
    as (mc & fp & anySelected & _ & _ & ->).
  simpl. intros Hpe Hs.
  assert (Hinit : initialSequence
                    (EpochConfig.mk
                       (fst (collectCheckpoints
                               (rangeEpochChanges o (map_to_list epochChanges))))
                       newLeaders
                       (wrap64 (fst mc + NetworkConfig.MaxEpochLength config)))
                    config
                  = fst mc + 1).
  { unfold initialSequence. simpl. rewrite (wrap64_small _ Hpe).
    destruct (N.ltb_spec (NetworkConfig.MaxEpochLength config)
                         (fst mc + NetworkConfig.MaxEpochLength config)).
    - replace (fst mc + NetworkConfig.MaxEpochLength config
               - NetworkConfig.MaxEpochLength config + 1) with (fst mc + 1) by lia.
      apply wrap64_small, Hs.
    - lia. }
  split; [reflexivity|]. split; [apply wrap64_small, Hpe|]. split; [exact Hinit|].
  intros Hb. unfold seqToBucket, seqToColumn. rewrite Hinit.
  unfold uint64_of_int. rewrite Z.mod_small by lia.
  destruct (N.eqb_spec (Z.to_N (NetworkConfig.NumberOfBuckets config)) 0);
    [lia|].
  assert (Hz : sub64 (fst mc + 1) (fst mc + 1) = 0).
  { unfold sub64, wrap64.
    replace (fst mc + 1 + 2 ^ 64 - (fst mc + 1)) with (2 ^ 64) by lia.
    reflexivity. }
  rewrite Hz. rewrite N.Div0.mod_0_l, N.Div0.div_0_l. split; reflexivity.
Qed.

(** The epoch that [three_prepared] leads to starts at sequence number
    11, behind checkpoint 10. *)
Lemma constructNewEpochConfig_epoch_start_witness :
  constructNewEpochConfig four_nodes as_listed [0; 1] three_prepared
  = Ok (Some three_prepared_config)
  /\ initialSequence (NewEpochConfig.Config three_prepared_config) four_nodes
     = 11.
Proof.
  split; [exact three_prepared_run|].
  apply (constructNewEpochConfig_epoch_start
           four_nodes as_listed [0; 1] three_prepared three_prepared_config
           three_prepared_run).
  - vm_compute. reflexivity.
  - vm_compute. reflexivity.
Defined.

Lemma count_of_le {A : Type} (P : A -> Prop) `{forall x, Decision (P x)}
      (l : list A) :
  (count_of P l <= Z.of_nat (length l))%Z.
Proof. unfold count_of. pose proof (length_filter P l). lia. Qed.

Lemma loop_none config visit l :
  (forall ks, ks ∈ l -> entry_ok config visit ks = false) ->
  maxCheckpoint_loop config visit l None = Ok None.
Proof.
  induction l as [|ks l IH]; intros Hall; [reflexivity|].
  simpl. rewrite maxCheckpoint_body_cases.
  rewrite (Hall ks) by left. apply IH. intros ks' Hin. apply Hall. right. exact Hin.
Qed.

(** X4.  From fewer epoch changes than [intersectionQuorum] the
    constructor returns nil, whatever they report and whatever the order
    of the map iterations: it neither panics nor returns a configuration. *)
Theorem constructNewEpochConfig_below_quorum
        (config : NetworkConfig.t) (o : rangeOrder) (newLeaders : list N)
        (epochChanges : gmap N parsedEpochChange) :
  lawful o ->
  (Z.of_nat (size epochChanges) < intersectionQuorum config)%Z ->
  constructNewEpochConfig config o newLeaders epochChanges = Ok None.
Proof.
  intros [Hec _] Hfew. unfold constructNewEpochConfig.
  destruct (collectCheckpoints _) as [num cps].
  rewrite loop_none; [reflexivity|].
  intros ks _. unfold entry_ok. apply andb_false_iff. right.
  apply negb_false_iff, Z.ltb_lt.
  rewrite nodesWithLowerWatermark_counts.
  pose proof (count_of_le (fun ne : N * parsedEpochChange =>
                             lowWatermark (snd ne) <= fst (fst ks))
                          (rangeEpochChanges o (map_to_list epochChanges))) as Hle.
  rewrite (Permutation_length (Hec _)), length_map_to_list in Hle. lia.
Qed.

(** Two epoch changes are not enough at four nodes with one fault. *)
Lemma constructNewEpochConfig_below_quorum_witness :
  constructNewEpochConfig four_nodes backwards [0; 1] two_reports = Ok None.
Proof.
  apply (constructNewEpochConfig_below_quorum four_nodes backwards [0; 1]
           two_reports lawful_backwards).
  vm_compute. reflexivity.
Defined.

(** A count over the epoch changes names that many of them. *)
Lemma count_of_supported (epochChanges : gmap N parsedEpochChange)
      (P : parsedEpochChange -> Prop) `{forall ec, Decision (P ec)} (k : Z) :
  (k <= count_of (fun ne => P (snd ne)) (map_to_list epochChanges))%Z ->
  supported epochChanges k P.
Proof.
  intros Hk. unfold count_of in Hk.
  exists ((filter (fun ne => P (snd ne)) (map_to_list epochChanges)).*1).
  split; [|split].
  - eapply sublist_NoDup; [apply (NoDup_fst_map_to_list epochChanges)|].
    apply fmap_sublist, sublist_filter.
  - rewrite length_fmap. exact Hk.
  - intros i Hi. apply list_elem_of_fmap in Hi as ([j ec] & -> & Hin).
    apply list_elem_of_filter in Hin as [HP Hin].
    apply elem_of_map_to_list in Hin. exists ec. auto.
Qed.

#[local] Instance lists_dec key ec : Decision (lists key ec).
Proof. unfold lists. apply _. Defined.

(** A key that a list of checkpoints holds once at most is found there
    once or not at all. *)
Lemma listings_once (key : checkpointKey) (cps : list Checkpoint.t) :
  NoDup (map key_of cps) ->
  length (filter (fun cp => key_of cp = key) cps)
  = if decide (key ∈ map key_of cps) then 1%nat else 0%nat.
Proof.
  induction cps as [|cp cps IH]; intros Hnd.
  - simpl. destruct (decide (key ∈ [])) as [Hin|]; [inversion Hin | reflexivity].
  - simpl in Hnd. apply NoDup_cons in Hnd as [Hni Hnd]. specialize (IH Hnd).
    rewrite filter_cons. simpl.
    destruct (decide (key_of cp = key)) as [He|Hne].
    + subst key. simpl. rewrite IH.
      rewrite decide_False by exact Hni.
      rewrite decide_True by left. reflexivity.
    + rewrite IH.
      destruct (decide (key ∈ map key_of cps)) as [Hin|Hnin].
      * rewrite decide_True by (right; exact Hin). reflexivity.
      * rewrite decide_False; [reflexivity|].
        intros Hin. apply elem_of_cons in Hin as [He|Hin]; [|contradiction].
        apply Hne. symmetry. exact He.
Qed.

(** When no epoch change lists a checkpoint twice, the listings of a key
    number as many as the epoch changes that list it. *)
Lemma reports_without_duplicates (visit : list (N * parsedEpochChange))
      (key : checkpointKey) :
  (forall ne, ne ∈ visit ->
              NoDup (map key_of (EpochChange.Checkpoints (underlying (snd ne))))) ->
  reports visit key = length (filter (fun ne => lists key (snd ne)) visit).
Proof.
  unfold reports, reported.
  induction visit as [|ne visit IH]; intros Hnd; [reflexivity|].
  simpl. rewrite filter_app, length_app, filter_cons.
  rewrite IH by (intros ne' Hin; apply Hnd; right; exact Hin).
  rewrite (listings_once key) by (apply Hnd; left).
  unfold lists at 2.
  destruct (decide (key ∈ map key_of
                          (EpochChange.Checkpoints (underlying (snd ne)))));
    reflexivity.
Qed.

(** X5.  The starting checkpoint of a configuration that the constructor
    returns passes the two tests of the constructor (it is listed among
    the checkpoints of the epoch changes at least once and at least
    [someCorrectQuorum] times in all, every listing counted, so that a
    checkpoint one epoch change lists twice counts twice; and at least
    [intersectionQuorum] epoch changes have their low watermark at or below
    it), and every other key that passes them has a smaller sequence
    number.  When no epoch change lists a checkpoint twice, at least
    [someCorrectQuorum] epoch changes list the starting checkpoint. *)
Theorem constructNewEpochConfig_starts_at_selected
        (config : NetworkConfig.t) (o : rangeOrder) (newLeaders : list N)
        (epochChanges : gmap N parsedEpochChange) (cfg : NewEpochConfig.t) :
  lawful o ->
  constructNewEpochConfig config o newLeaders epochChanges = Ok (Some cfg) ->
  selected config epochChanges
           (Some (key_of (NewEpochConfig.StartingCheckpoint cfg)))
  /\ (no_duplicates epochChanges ->
      supported epochChanges (someCorrectQuorum config)
                (lists (key_of (NewEpochConfig.StartingCheckpoint cfg)))).
Proof.
  intros Ho Hrun.
  destruct (constructNewEpochConfig_some _ _ _ _ _ Hrun)
    as (mc & fp & anySelected & Hch & _ & ->).
  apply (chosen_checkpoint _ _ _ _ Ho) in Hch.
  unfold key_of. simpl. destruct mc as [s v]. simpl.
  split; [exact Hch|].
  intros Hnd. destruct Hch as [(_ & Hsc & _) _].
  apply (count_of_supported epochChanges (lists (s, v))).
  unfold count_of.
  rewrite <- (reports_without_duplicates (map_to_list epochChanges) (s, v));
    [exact Hsc|].
  intros [nodeID ec] Hin. apply elem_of_map_to_list in Hin.
  apply (Hnd nodeID ec Hin).
Qed.

Lemma three_prepared_no_duplicates : no_duplicates three_prepared.
Proof.
  assert (Hall : map_Forall
                   (fun _ ec =>
                      NoDup (map key_of
                                 (EpochChange.Checkpoints (underlying ec))))
                   three_prepared).
  { refine (bool_decide_unpack _ _). vm_compute. exact I. }
  intros nodeID ec Hec. exact (Hall nodeID ec Hec).
Qed.

(** In [three_prepared] no node lists a checkpoint twice: the starting
    checkpoint (10, "CC") is above every other admissible checkpoint and
    is listed by two epoch changes at least. *)
Lemma constructNewEpochConfig_starts_at_selected_witness :
  selected four_nodes three_prepared (Some (10, "CC"))
  /\ supported three_prepared 2 (lists (10, "CC")).
Proof.
  destruct (constructNewEpochConfig_starts_at_selected
              four_nodes as_listed [0; 1] three_prepared three_prepared_config
              lawful_as_listed three_prepared_run) as [Hsel Hsup].
  split; [exact Hsel|]. exact (Hsup three_prepared_no_duplicates).
Defined.

(** Listings are not reporters.  In [listed_twice] node 3 alone reports
    checkpoint (10, "x") and lists it twice: the listings number 2, the
    [someCorrectQuorum] of four nodes with one fault, and the constructor
    starts the epoch at (10, "x"), which one epoch change reports. *)
Lemma listing_twice_counts_twice :
  lawful as_listed
  /\ someCorrectQuorum four_nodes = 2%Z
  /\ reports (map_to_list listed_twice) (10, "x") = 2%nat
  /\ length (filter (fun ne => lists (10, "x") (snd ne))
                    (map_to_list listed_twice)) = 1%nat
  /\ ~ no_duplicates listed_twice
  /\ exists cfg,
       constructNewEpochConfig four_nodes as_listed [0; 1] listed_twice
       = Ok (Some cfg)
       /\ NewEpochConfig.StartingCheckpoint cfg = checkpoint 10 "x".
Proof.
  split; [exact lawful_as_listed|].
  split; [reflexivity|].
  split; [vm_compute; reflexivity|].
  split; [vm_compute; reflexivity|].
  split.
  - intros Hnd.
    assert (Hec : listed_twice !! 3
                  = Some (parse (EpochChange.mk 7 [checkpoint 10 "x";
                                                    checkpoint 10 "x"] [] [])))
      by (vm_compute; reflexivity).
    specialize (Hnd _ _ Hec). simpl in Hnd.
    apply NoDup_cons in Hnd as [Hni _]. apply Hni. left.
  - eexists. split; [vm_compute; reflexivity | reflexivity].
Qed.

Lemma fillPreprepares_filled config epochChanges visit maxSeqNo offsets :
  forall fp anySelected fp' anySelected',
    NoDup offsets ->
    (forall i, i ∈ offsets -> (i < length fp)%nat) ->
    fillPreprepares config epochChanges visit maxSeqNo offsets fp anySelected
    = Some (fp', anySelected') ->
    length fp' = length fp
    /\ (forall i, i ∉ offsets -> fp' !! i = fp !! i)
    /\ (forall i, i ∈ offsets ->
          exists d, fp' !! i = Some d
                    /\ filled config epochChanges visit maxSeqNo fp i d)
    /\ (anySelected' = false ->
        anySelected = false
        /\ forall i, i ∈ offsets ->
             selectEntry config epochChanges visit (NetworkConfig.Nodes config)
                         (slot_seqNo maxSeqNo i) = None).
Proof.
  induction offsets as [|i rest IH]; intros fp anySelected fp' anySelected' Hnd Hlt.
  - simpl. intros [= <- <-]. split; [reflexivity|]. split; [reflexivity|].
    split; [intros i Hi; inversion Hi|]. intros ->. split; [reflexivity|].
    intros i Hi. inversion Hi.
  - apply NoDup_cons in Hnd as [Hni Hnd].
    assert (Hi : (i < length fp)%nat) by (apply Hlt; left).
    simpl. fold (slot_seqNo maxSeqNo i).
    destruct (selectEntry _ _ _ _ _) as [entry|] eqn:Hsel.
    + intros Hf. apply IH in Hf as (Hlen & Hout & Hin & Hany); [|exact Hnd|].
      2:{ intros j Hj. rewrite length_insert. apply Hlt. right. exact Hj. }
      rewrite length_insert in Hlen. split; [exact Hlen|].
      split; [|split].
      * intros j Hj. rewrite Hout by (intros Hr; apply Hj; right; exact Hr).
        apply list_lookup_insert_ne. intros ->. apply Hj. left.
      * intros j Hj. apply elem_of_cons in Hj as [->|Hj].
        -- exists (SetEntry.Digest entry). rewrite (Hout _ Hni).
           split; [apply list_lookup_insert_eq; exact Hi|].
           unfold filled. rewrite Hsel. reflexivity.
        -- destruct (Hin _ Hj) as (d & Hd & Hfd). exists d. split; [exact Hd|].
           unfold filled in *.
           destruct (selectEntry _ _ _ _ (slot_seqNo maxSeqNo j)); [exact Hfd|].
           destruct Hfd as [Hl Hb]. split; [|exact Hb].
           rewrite list_lookup_insert_ne in Hl; [exact Hl|].
           intros ->. contradiction.
      * intros ->. destruct (Hany eq_refl) as [Hfalse _]. discriminate Hfalse.
    + destruct (Z.ltb_spec (bCount visit (slot_seqNo maxSeqNo i))
                           (intersectionQuorum config)) as [|Hb]; [discriminate|].
      intros Hf. apply IH in Hf as (Hlen & Hout & Hin & Hany); [|exact Hnd|].
      2:{ intros j Hj. apply Hlt. right. exact Hj. }
      split; [exact Hlen|]. split; [|split].
      * intros j Hj. apply Hout. intros Hr. apply Hj. right. exact Hr.
      * intros j Hj. apply elem_of_cons in Hj as [->|Hj]; [|apply Hin, Hj].
        destruct (lookup_lt_is_Some_2 fp i Hi) as [d Hd].
        exists d. rewrite (Hout _ Hni). split; [exact Hd|].
        unfold filled. rewrite Hsel. split; [exact Hd | exact Hb].
      * intros He. destruct (Hany He) as [Ha Hs]. split; [exact Ha|].
        intros j Hj. apply elem_of_cons in Hj as [->|Hj]; [exact Hsel | apply Hs, Hj].
Qed.

(** X6.  In a configuration that the constructor returns,
    [FinalPreprepares] is empty or has [2 * CheckpointInterval] slots, and
    every slot, read as nil when the list is empty, is justified in one of
    two ways.  Either its digest is the digest (nil for a batch of no
    requests) of a P-set entry, at the slot's sequence number, of a node
    of the configuration, for which at least [intersectionQuorum] epoch
    changes meet condition A1 and at least [someCorrectQuorum] meet
    condition A2; or the slot is nil and at least [intersectionQuorum]
    epoch changes meet condition B.  A slot whose digest is not nil is
    thus of the first kind, and when the list is empty every slot is of
    the second kind. *)
Theorem constructNewEpochConfig_slots_justified
        (config : NetworkConfig.t) (o : rangeOrder) (newLeaders : list N)
        (epochChanges : gmap N parsedEpochChange) (cfg : NewEpochConfig.t) :
  lawful o ->
  constructNewEpochConfig config o newLeaders epochChanges = Ok (Some cfg) ->
  let len := Z.to_nat (wrap_int32 (2 * NetworkConfig.CheckpointInterval config)) in
  let fp := NewEpochConfig.FinalPreprepares cfg in
  let seqNo :=
    slot_seqNo (Checkpoint.SeqNo (NewEpochConfig.StartingCheckpoint cfg)) in
  (fp = [] \/ length fp = len)
  /\ (forall i, (i < len)%nat ->
        slot_justified config epochChanges (seqNo i) (default None (fp !! i)))
  /\ (fp = [] ->
      forall i, (i < len)%nat ->
        supported epochChanges (intersectionQuorum config) (B (seqNo i))).
Proof.
  intros [Hec Hck] Hrun.
  destruct (constructNewEpochConfig_some _ _ _ _ _ Hrun)
    as (mc & fp & anySelected & _ & Hfill & ->).
  simpl.
  set (visit := rangeEpochChanges o (map_to_list epochChanges)) in *.
  set (len := Z.to_nat (wrap_int32 (2 * NetworkConfig.CheckpointInterval config)))
    in *.
  apply fillPreprepares_filled in Hfill as (Hlen & _ & Hin & Hany).
  2:{ apply NoDup_seq. }
  2:{ intros i Hi. apply elem_of_seq in Hi. rewrite length_replicate. lia. }
  rewrite length_replicate in Hlen.
  assert (Hperm : visit ≡ₚ map_to_list epochChanges) by apply Hec.
  split; [destruct anySelected; [right; exact Hlen | left; reflexivity]|].
  split.
  - intros i Hi.
    assert (Hiq : i ∈ seq 0 len) by (apply elem_of_seq; lia).
    destruct (Hin i Hiq) as (d & Hd & Hfd). unfold filled in Hfd.
    destruct (selectEntry config epochChanges visit (NetworkConfig.Nodes config)
                          (slot_seqNo (fst mc) i)) as [entry|] eqn:Hsel.
    + destruct anySelected.
      * rewrite Hd. simpl. left.
        apply selectEntry_accepts in Hsel
          as (nodeID & ec & Hn & Hec' & Hp & Ha1 & Ha2).
        rewrite a1Count_counts in Ha1. rewrite a2Count_counts in Ha2.
        rewrite (count_of_perm _ _ _ Hperm) in Ha1.
        rewrite (count_of_perm _ _ _ Hperm) in Ha2.
        exists nodeID, ec, entry. repeat (split; [assumption|]).
        split.
        -- apply (count_of_supported epochChanges
                    (A1 (slot_seqNo (fst mc) i) entry)), Ha1.
        -- apply (count_of_supported epochChanges
                    (A2 (slot_seqNo (fst mc) i) entry)), Ha2.
      * destruct (Hany eq_refl) as [_ Hnone]. rewrite (Hnone i Hiq) in Hsel.
        discriminate Hsel.
    + destruct Hfd as [Hl Hb]. apply lookup_replicate in Hl as [-> _].
      right. rewrite bCount_counts, (count_of_perm _ _ _ Hperm) in Hb.
      split; [destruct anySelected; [rewrite Hd|]; reflexivity|].
      apply (count_of_supported epochChanges (B (slot_seqNo (fst mc) i))), Hb.
  - intros Hempty i Hi.
    assert (Hiq : i ∈ seq 0 len) by (apply elem_of_seq; lia).
    destruct anySelected.
    + exfalso. rewrite Hempty in Hlen. simpl in Hlen. lia.
    + destruct (Hany eq_refl) as [_ Hnone].
      destruct (Hin i Hiq) as (d & _ & Hfd). unfold filled in Hfd.
      rewrite (Hnone i Hiq) in Hfd. destruct Hfd as [_ Hb].
      rewrite bCount_counts, (count_of_perm _ _ _ Hperm) in Hb.
      apply (count_of_supported epochChanges (B (slot_seqNo (fst mc) i))), Hb.
Qed.

(** In the configuration that [three_prepared] leads to, the digest "DD"
    at offset 0 stands for sequence number 11 and is justified, and so is
    the nil digest at offset 1. *)
Lemma constructNewEpochConfig_slots_justified_witness :
  slot_justified four_nodes three_prepared 11 (Some "DD")
  /\ slot_justified four_nodes three_prepared 12 None.
Proof.
  pose proof (constructNewEpochConfig_slots_justified
                four_nodes as_listed [0; 1] three_prepared three_prepared_config
                lawful_as_listed three_prepared_run) as (_ & Hall & _).
  split.
  - apply (Hall 0%nat). vm_compute. lia.
  - apply (Hall 1%nat). vm_compute. lia.
Defined.

End ConstructorShapeFacts.

(** ** What the hash data tells apart *)

Module HashShapeFacts.
Import HashSpec HashFacts HashShape.

(** The eight base-256 digits of a number below [2^64] determine it. *)
Lemma digits_inj (x y : N) :
  x < 2 ^ 64 -> y < 2 ^ 64 ->
  (forall k, In k [0; 1; 2; 3; 4; 5; 6; 7] ->
             (x / 2 ^ (8 * k)) mod 256 = (y / 2 ^ (8 * k)) mod 256) ->
  x = y.
Proof.
  intros Hx Hy H.
  apply N.bits_inj. intros i.
  destruct (N.lt_ge_cases i 64) as [Hi|Hi].
  - set (k := i / 8).
    assert (Hk : In k [0; 1; 2; 3; 4; 5; 6; 7]).
    { assert (Hk8 : k < 8) by (apply N.Div0.div_lt_upper_bound; lia).
      simpl. destruct k as [|p]; [auto|].
      do 7 (destruct p as [p|p|]; try lia; auto 10). }
    assert (Hik : i = i mod 8 + 8 * k)
      by (pose proof (N.div_mod i 8); unfold k; lia).
    assert (Hlow : i mod 8 < 8) by (apply N.mod_lt; discriminate).
    specialize (H k Hk).
    apply (f_equal (fun z => N.testbit z (i mod 8))) in H.
    change 256 with (2 ^ 8) in H.
    rewrite !N.mod_pow2_bits_low, !N.div_pow2_bits in H by exact Hlow.
    rewrite <- Hik in H. exact H.
  - assert (Hbig : forall z, z < 2 ^ 64 -> N.testbit z i = false).
    { intros z Hz. destruct (N.eq_dec z 0) as [->|Hz0]; [apply N.bits_0|].
      apply N.bits_above_log2. apply N.log2_lt_pow2 in Hz; lia. }
    rewrite !Hbig by assumption. reflexivity.
Qed.

Lemma uint64ToBytes_inj x y :
  x < 2 ^ 64 -> y < 2 ^ 64 -> uint64ToBytes x = uint64ToBytes y -> x = y.
Proof.
  intros Hx Hy H. apply (digits_inj x y Hx Hy).
  unfold uint64ToBytes in H. simpl in H.
  injection H as H7 H6 H5 H4 H3 H2 H1 H0.
  intros k Hk. simpl in Hk.
  assert (Hb : forall a b, ascii_of_N (a mod 256) = ascii_of_N (b mod 256) ->
                           a mod 256 = b mod 256).
  { intros a b Hab. apply (f_equal N_of_ascii) in Hab.
    rewrite !N_ascii_embedding in Hab by (apply N.mod_lt; discriminate).
    exact Hab. }
  repeat (destruct Hk as [<-|Hk]; [apply Hb; assumption|]). destruct Hk.
Qed.

Lemma hashData_computed (epochChange : EpochChange.t) :
  epochChangeHashData epochChange = Ok (hashData_layout epochChange).
Proof.
  pose proof (layout_length epochChange) as Hlen.
  unfold epochChangeHashData, hashData_layout in *.
  destruct epochChange as [ne cps ps qs]. cbn [EpochChange.NewEpoch
    EpochChange.Checkpoints EpochChange.PSet EpochChange.QSet] in *.
  replace (1 + length cps * 2 + length ps * 3 + length qs * 3)%nat
    with (S (length cps * 2 + (length ps * 3 + length qs * 3)))%nat by lia.
  rewrite replicate_S, !replicate_add.
  rewrite put_head. cbn [bind].
  rewrite hashCheckpoints_from_1. cbn [bind].
  rewrite app_comm_cons.
  rewrite hashEntries_at
    by (simpl; rewrite checkpoints_layout_length; lia).
  cbn [bind]. rewrite app_assoc.
  rewrite hashEntries_at_end
    by (rewrite length_app; simpl;
        rewrite checkpoints_layout_length, entries_layout_length; lia).
  cbn [bind]. rewrite <- app_assoc, <- app_comm_cons.
  rewrite bool_decide_eq_true_2; [reflexivity|].
  rewrite Hlen. lia.
Qed.

(** X7.  The hash data does not tell the P set from the Q set: two epoch
    changes with the same epoch and checkpoints, whose P-set entries
    followed by their Q-set entries make the same list, have the same hash
    data, wherever the P set ends and the Q set begins. *)
Theorem epochChangeHashData_merges_sets
        (newEpoch : N) (cps : list Checkpoint.t)
        (ps1 qs1 ps2 qs2 : list SetEntry.t) :
  ps1 ++ qs1 = ps2 ++ qs2 ->
  epochChangeHashData (EpochChange.mk newEpoch cps ps1 qs1)
  = epochChangeHashData (EpochChange.mk newEpoch cps ps2 qs2).
Proof.
  intros H. rewrite !hashData_computed. unfold hashData_layout. simpl.
  rewrite <- !flat_map_app, H. reflexivity.
Qed.

(** An entry prepared at 11 and an entry preprepared at 12 hash like two
    entries preprepared at 11 and 12. *)
Lemma epochChangeHashData_merges_sets_witness :
  epochChangeHashData
    (EpochChange.mk 7 [] [SetEntry.mk 1 11 (Some "DD")]
                         [SetEntry.mk 1 12 (Some "EE")])
  = epochChangeHashData
      (EpochChange.mk 7 [] []
                      [SetEntry.mk 1 11 (Some "DD"); SetEntry.mk 1 12 (Some "EE")]).
Proof. apply epochChangeHashData_merges_sets. reflexivity. Defined.

Lemma checkpoints_layout_inj cps1 : forall cps2,
  Forall (fun cp => Checkpoint.SeqNo cp < 2 ^ 64) cps1 ->
  Forall (fun cp => Checkpoint.SeqNo cp < 2 ^ 64) cps2 ->
  flat_map checkpoint_layout cps1 = flat_map checkpoint_layout cps2 ->
  cps1 = cps2.
Proof.
  induction cps1 as [|[s1 v1] cps1 IH]; intros [|[s2 v2] cps2] H1 H2 H;
    [reflexivity | simpl in H; discriminate | simpl in H; discriminate |].
  apply Forall_cons in H1 as [Hs1 H1]. apply Forall_cons in H2 as [Hs2 H2].
  cbn [flat_map checkpoint_layout Checkpoint.SeqNo Checkpoint.Value app] in H.
  remember (uint64ToBytes s1) as u1 eqn:E1.
  remember (uint64ToBytes s2) as u2 eqn:E2.
  injection H as Hs Hv Hrest. subst u1 u2. simpl in *.
  apply uint64ToBytes_inj in Hs; [|assumption..]. subst.
  f_equal. apply IH; assumption.
Qed.

Lemma entries_layout_inj es1 : forall es2,
  Forall (fun e => SetEntry.Epoch e < 2 ^ 64 /\ SetEntry.SeqNo e < 2 ^ 64) es1 ->
  Forall (fun e => SetEntry.Epoch e < 2 ^ 64 /\ SetEntry.SeqNo e < 2 ^ 64) es2 ->
  flat_map entry_layout es1 = flat_map entry_layout es2 ->
  es1 = es2.
Proof.
  induction es1 as [|[e1 s1 d1] es1 IH]; intros [|[e2 s2 d2] es2] H1 H2 H;
    [reflexivity | simpl in H; discriminate | simpl in H; discriminate |].
  apply Forall_cons in H1 as [[He1 Hs1] H1].
  apply Forall_cons in H2 as [[He2 Hs2] H2].
  cbn [flat_map entry_layout SetEntry.Epoch SetEntry.SeqNo SetEntry.Digest app]
    in H.
  remember (uint64ToBytes e1) as ue1 eqn:E1.
  remember (uint64ToBytes e2) as ue2 eqn:E2.
  remember (uint64ToBytes s1) as us1 eqn:E3.
  remember (uint64ToBytes s2) as us2 eqn:E4.
  injection H as He Hs Hd Hrest. subst ue1 ue2 us1 us2. simpl in *.
  apply uint64ToBytes_inj in He; [|assumption..].
  apply uint64ToBytes_inj in Hs; [|assumption..]. subst.
  f_equal. apply IH; assumption.
Qed.

(** X8.  Among epoch changes with the same number of checkpoints and the
    same number of P-set entries (all [uint64] fields in range, integers
    encoded on 8 bytes), the hash data determines the message: equal hash
    data means equal epoch, checkpoints, P set and Q set. *)
Theorem epochChangeHashData_injective_at_shape (e1 e2 : EpochChange.t) :
  in_range e1 -> in_range e2 ->
  length (EpochChange.Checkpoints e1) = length (EpochChange.Checkpoints e2) ->
  length (EpochChange.PSet e1) = length (EpochChange.PSet e2) ->
  epochChangeHashData e1 = epochChangeHashData e2 ->
  e1 = e2.
Proof.
  intros (Hn1 & Hc1 & Hpq1) (Hn2 & Hc2 & Hpq2) Hlc Hlp.
  rewrite !hashData_computed. unfold hashData_layout.
  destruct e1 as [n1 c1 p1 q1], e2 as [n2 c2 p2 q2]. simpl in *.
  apply Forall_app in Hpq1 as [Hp1 Hq1]. apply Forall_app in Hpq2 as [Hp2 Hq2].
  remember (uint64ToBytes n1) as u1 eqn:E1.
  remember (uint64ToBytes n2) as u2 eqn:E2.
  intros [= Hn Hrest]. subst u1 u2.
  apply uint64ToBytes_inj in Hn; [|assumption..].
  apply app_inj_1 in Hrest as [Hc Hrest];
    [|rewrite !checkpoints_layout_length; lia].
  apply app_inj_1 in Hrest as [Hp Hq];
    [|rewrite !entries_layout_length; lia].
  apply checkpoints_layout_inj in Hc; [|assumption..].
  apply entries_layout_inj in Hp; [|assumption..].
  apply entries_layout_inj in Hq; [|assumption..].
  subst. reflexivity.
Qed.

Lemma sample_in_range : in_range sample.
Proof.
  unfold in_range, sample. simpl.
  split; [reflexivity|]. split; repeat constructor.
Qed.

(** The sample is in range, and a message of its shape with its hash data
    is the sample. *)
Lemma epochChangeHashData_injective_at_shape_witness :
  in_range sample
  /\ EpochChange.mk (EpochChange.NewEpoch sample) (EpochChange.Checkpoints sample)
                    (EpochChange.PSet sample) (EpochChange.QSet sample)
     = sample.
Proof.
  split; [exact sample_in_range|].
  apply epochChangeHashData_injective_at_shape;
    [exact sample_in_range | exact sample_in_range | reflexivity..].
Defined.

End HashShapeFacts.

(** ** The life of a sequence *)

Module SequenceLifeFacts.
Import Sequence SequenceSpec SequenceExamples SequenceFacts SequenceLife.

(** *** The drive loop *)

Lemma body_stable s :
  state (advanceState_body s).1 = state s -> advanceState_body s = (s, []).
Proof.
  unfold_body.
  destruct (state s) eqn:E; repeat case_match; simpl; rewrite ?E;
    intros Hst; try discriminate Hst; reflexivity.
Qed.

Lemma loop_stable n : forall s a,
  (6 - rank (state s) < n)%nat ->
  state (advanceState_body (advanceState_loop n s a).1).1
  = state (advanceState_loop n s a).1.
Proof.
  induction n as [|n IH]; intros s a Hn; [lia|].
  rewrite loop_unfold. case_decide as Hs.
  - pose proof (body_stable s Hs) as Hb. simpl. rewrite Hb. simpl.
    rewrite Hb. reflexivity.
  - apply IH. destruct (body_rank s) as [He|Hlt]; [congruence|].
    pose proof (rank_le_6 (state (advanceState_body s).1)). lia.
Qed.

(** Once driven, a sequence is at rest. *)
Lemma advanceState_settled (s : sequence) :
  advanceState (advanceState s).1 = ((advanceState s).1, []).
Proof.
  assert (Hst : state (advanceState_body (advanceState s).1).1
                = state (advanceState s).1)
    by (apply loop_stable; pose proof (rank_le_6 (state s)); lia).
  unfold advanceState at 1. rewrite loop_unfold.
  rewrite decide_True by exact Hst.
  rewrite (body_stable _ Hst). reflexivity.
Qed.

Lemma advanceState_at_rest s :
  advanceState_body s = (s, []) -> advanceState s = (s, []).
Proof.
  intros Hb. unfold advanceState. rewrite loop_unfold, Hb. simpl.
  rewrite decide_True by reflexivity. reflexivity.
Qed.

Lemma body_header s : header (advanceState_body s).1 = header s.
Proof.
  unfold_body. destruct (state s); repeat case_match; reflexivity.
Qed.

Lemma loop_header n : forall s a, header (advanceState_loop n s a).1 = header s.
Proof.
  induction n as [|n IH]; intros s a; [reflexivity|].
  rewrite loop_unfold. case_decide.
  - apply body_header.
  - rewrite IH. apply body_header.
Qed.

Lemma loop_rank n : forall s a,
  (rank (state s) <= rank (state (advanceState_loop n s a).1))%nat.
Proof.
  induction n as [|n IH]; intros s a; [reflexivity|].
  rewrite loop_unfold.
  destruct (body_rank s) as [He|Hlt]; case_decide; simpl.
  - rewrite He. lia.
  - congruence.
  - lia.
  - specialize (IH (advanceState_body s).1 (concat a (advanceState_body s).2)).
    lia.
Qed.

Lemma loop_acts n : forall s a,
  exists more, (advanceState_loop n s a).2 = a ++ more.
Proof.
  induction n as [|n IH]; intros s a;
    [exists []; simpl; symmetry; apply app_nil_r|].
  rewrite loop_unfold. unfold concat. case_decide.
  - eexists. reflexivity.
  - destruct (IH (advanceState_body s).1 (a ++ (advanceState_body s).2))
      as [more ->].
    eexists. rewrite <- app_assoc. reflexivity.
Qed.

Lemma body_payload s :
  (4 <= rank (state s))%nat -> payload (advanceState_body s).1 = payload s.
Proof.
  unfold_body. destruct (state s) eqn:E; simpl; try lia; intros _;
    repeat case_match; reflexivity.
Qed.

Lemma loop_payload n : forall s a,
  (4 <= rank (state s))%nat -> payload (advanceState_loop n s a).1 = payload s.
Proof.
  induction n as [|n IH]; intros s a Hr; [reflexivity|].
  rewrite loop_unfold. case_decide.
  - apply body_payload, Hr.
  - rewrite IH; [apply body_payload, Hr|].
    destruct (body_rank s) as [He|Hlt]; [congruence | lia].
Qed.

Lemma body_outstanding s :
  outstandingReqs (advanceState_body s).1 = outstandingReqs s.
Proof.
  unfold_body. destruct (state s); repeat case_match; reflexivity.
Qed.

Lemma loop_outstanding n : forall s a,
  outstandingReqs (advanceState_loop n s a).1 = outstandingReqs s.
Proof.
  induction n as [|n IH]; intros s a; [reflexivity|].
  rewrite loop_unfold. case_decide.
  - apply body_outstanding.
  - rewrite IH. apply body_outstanding.
Qed.

(** *** What a call does before it drives the state machine *)

Lemma run_decompose c s s' acts :
  run c s = Ok (s', acts) ->
  exists pre prefix,
    s' = (advanceState pre).1
    /\ acts = prefix ++ (advanceState pre).2
    /\ header pre = header s
    /\ (rank (state s) <= rank (state pre))%nat
    /\ (rank (state pre) <= Nat.max 3 (rank (state s)))%nat
    /\ forallb is_hash prefix = true
    /\ persistedLog pre = persistedLog s
    /\ qEntry pre = qEntry s.
Proof.
  intros H.
  destruct c; simpl in H; unfold allocateAsOwner, allocate,
    satisfyOutstanding, applyBatchHashResult, applyPrepareMsg,
    applyCommitMsg in H; repeat case_match; try discriminate;
    injection H as H; try injection H as <- <-; subst.
  all: match goal with
       | H : advanceState ?X = _ |- _ => exists X
       | |- context [advanceState ?X] => exists X
       end.
  all: try match goal with
       | H : advanceState ?X = _ |- _ => rewrite H
       end.
  all: try match goal with
       | Hb : negb (bool_decide (state _ = sequenceUninitialized)) = false |- _ =>
           apply negb_false_iff, bool_decide_eq_true in Hb
       end.
  all: first [ exists []; simpl; split; [reflexivity|]; split; [reflexivity|]
             | eexists [_]; simpl; split; [reflexivity|]; split; [reflexivity|] ].
  all: repeat match goal with |- _ /\ _ => split end; try reflexivity.
  all: try match goal with
       | Hb : state _ = sequenceUninitialized |- _ => rewrite Hb
       end; simpl; lia.
Qed.

Lemma run_monotone c s s' acts :
  run c s = Ok (s', acts) ->
  header s' = header s /\ (rank (state s) <= rank (state s'))%nat.
Proof.
  intros H. destruct (run_decompose _ _ _ _ H)
    as (pre & prefix & -> & _ & Hh & Hlo & _).
  split.
  - rewrite <- Hh. apply loop_header.
  - pose proof (loop_rank 7 pre []) as Hr. fold (advanceState pre) in Hr. lia.
Qed.

Lemma runs_monotone calls : forall s a s' acts,
  runs calls s a = Ok (s', acts) ->
  header s' = header s /\ (rank (state s) <= rank (state s'))%nat.
Proof.
  induction calls as [|c calls IH]; intros s a s' acts; simpl.
  - intros [= <- <-]. split; [reflexivity | lia].
  - destruct (run c s) as [[s1 a1]|e] eqn:Hrun; simpl; [|discriminate].
    intros Hrest. apply IH in Hrest as [Hh Hr].
    apply run_monotone in Hrun as [Hh1 Hr1]. simpl in *.
    split; [congruence | lia].
Qed.

Lemma runs_acts calls : forall s a s' acts,
  runs calls s a = Ok (s', acts) -> exists more, acts = a ++ more.
Proof.
  induction calls as [|c calls IH]; intros s a s' acts; simpl.
  - intros [= <- <-]. exists []. symmetry. apply app_nil_r.
  - destruct (run c s) as [[s1 a1]|e]; simpl; [|discriminate].
    intros Hrest. apply IH in Hrest as [more ->]. unfold concat.
    eexists. rewrite <- app_assoc. reflexivity.
Qed.

(** X9.  Every call that returns leaves the sequence at rest: driving the
    state machine again right after it changes nothing and returns no
    action.  In particular [advanceState] is idempotent. *)
Theorem sequence_at_rest_after_call
        (c : call) (s s' : sequence) (acts : Actions) :
  run c s = Ok (s', acts) ->
  advanceState s' = (s', [])
  /\ run CallAdvanceState s' = Ok (s', []).
Proof.
  intros H. destruct (run_decompose _ _ _ _ H) as (pre & prefix & -> & _).
  simpl. rewrite advanceState_settled. split; reflexivity.
Qed.

(** A slot that holds the prepares of nodes 1 and 2 is at rest after the
    prepare of node 0 has carried it to Prepared. *)
Lemma sequence_at_rest_after_call_witness :
  advanceState (applyPrepareMsg two_prepares 0 (Some "BB")).1
  = ((applyPrepareMsg two_prepares 0 (Some "BB")).1, []).
Proof.
  apply (sequence_at_rest_after_call
           (CallApplyPrepareMsg 0 (Some "BB")) two_prepares
           (applyPrepareMsg two_prepares 0 (Some "BB")).1
           (applyPrepareMsg two_prepares 0 (Some "BB")).2).
  vm_compute. reflexivity.
Defined.

(** X10.  Whatever calls are made on a sequence, as long as they return:
    the owner, the sequence number, the epoch, the local node and the
    network configuration stay what they were, the state never moves back
    to an earlier one, and the actions returned so far are only added to. *)
Theorem sequence_never_rewinds
        (calls : list call) (s s' : sequence) (acts acts' : Actions) :
  runs calls s acts = Ok (s', acts') ->
  header s' = header s
  /\ (rank (state s) <= rank (state s'))%nat
  /\ exists more, acts' = acts ++ more.
Proof.
  intros H. destruct (runs_monotone _ _ _ _ _ H) as [Hh Hr].
  split; [exact Hh|]. split; [exact Hr|]. apply (runs_acts _ _ _ _ _ H).
Qed.

Lemma sequence_never_rewinds_witness :
  header (applyPrepareMsg two_prepares 0 (Some "BB")).1 = header two_prepares
  /\ (rank (state two_prepares)
      <= rank (state (applyPrepareMsg two_prepares 0 (Some "BB")).1))%nat.
Proof.
  assert (Hrun : runs [CallApplyPrepareMsg 0 (Some "BB")] two_prepares []
                 = Ok ((applyPrepareMsg two_prepares 0 (Some "BB")).1,
                       (applyPrepareMsg two_prepares 0 (Some "BB")).2))
    by (vm_compute; reflexivity).
  destruct (sequence_never_rewinds _ _ _ _ _ Hrun) as (Hh & Hr & _).
  split; [exact Hh | exact Hr].
Defined.

(** *** Allocation *)

(** X11.  A sequence is allocated at most once: [allocate] returns only
    on a sequence in state Uninitialized, and after it has returned, no
    further calls bring the sequence back to that state, so every later
    [allocate] or [allocateAsOwner] panics. *)
Theorem allocate_only_once
        (s s1 s2 : sequence) (requestAcks : list RequestAck.t)
        (outstanding : gset string) (acts1 acts acts2 : Actions)
        (calls : list call) :
  allocate s requestAcks outstanding = Ok (s1, acts1) ->
  runs calls s1 acts = Ok (s2, acts2) ->
  state s = sequenceUninitialized
  /\ state s2 <> sequenceUninitialized
  /\ (forall requestAcks' outstanding',
        allocate s2 requestAcks' outstanding'
        = Panic "illegal state for allocate")
  /\ (forall clientRequests,
        allocateAsOwner s2 clientRequests = Panic "illegal state for allocate").
Proof.
  intros Halloc Hruns.
  assert (Hs : state s = sequenceUninitialized).
  { unfold allocate in Halloc.
    destruct (bool_decide (state s = sequenceUninitialized)) eqn:Hb;
      [apply bool_decide_eq_true in Hb; exact Hb | discriminate]. }
  assert (Hr1 : (2 <= rank (state s1))%nat).
  { unfold allocate in Halloc. rewrite Hs in Halloc. simpl in Halloc.
    destruct (bool_decide (length requestAcks = 0%nat)).
    - injection Halloc as Halloc.
      unfold applyBatchHashResult, applyPrepareMsg in Halloc.
      match type of Halloc with
      | advanceState ?X = _ => pose proof (loop_rank 7 X []) as Hr;
                               fold (advanceState X) in Hr; rewrite Halloc in Hr
      end. simpl in Hr. lia.
    - match type of Halloc with
      | context [advanceState ?X] =>
          pose proof (loop_rank 7 X []) as Hr;
          fold (advanceState X) in Hr; destruct (advanceState X) as [s1' a1']
      end. injection Halloc as <- _. simpl in Hr. lia. }
  apply runs_monotone in Hruns as [_ Hr2].
  assert (Hne : state s2 <> sequenceUninitialized)
    by (intros He; rewrite He in Hr2; simpl in Hr2; lia).
  split; [exact Hs|]. split; [exact Hne|].
  assert (Hp : forall requestAcks' outstanding',
             allocate s2 requestAcks' outstanding'
             = Panic "illegal state for allocate").
  { intros. unfold allocate. rewrite bool_decide_eq_false_2 by exact Hne.
    reflexivity. }
  split; [exact Hp|]. intros. apply Hp.
Qed.

(** A fresh slot allocated with one request: after the hash result and a
    prepare have come in, a second allocation panics. *)
Lemma allocate_only_once_witness :
  exists s1 acts1 s2 acts2,
    allocate fresh [ack_AA] ∅ = Ok (s1, acts1)
    /\ runs [CallApplyBatchHashResult (Some "BB");
             CallApplyPrepareMsg 1 (Some "BB")] s1 [] = Ok (s2, acts2)
    /\ allocate s2 [ack_AA] ∅ = Panic "illegal state for allocate".
Proof.
  destruct (allocate fresh [ack_AA] ∅) as [[s1 acts1]|e] eqn:Halloc;
    [|vm_compute in Halloc; discriminate Halloc].
  destruct (runs [CallApplyBatchHashResult (Some "BB");
                  CallApplyPrepareMsg 1 (Some "BB")] s1 [])
    as [[s2 acts2]|e] eqn:Hruns.
  - exists s1, acts1, s2, acts2. split; [reflexivity|]. split; [exact Hruns|].
    apply (allocate_only_once _ _ _ _ _ _ _ _ _ Halloc Hruns).
  - exfalso. simpl in Hruns. discriminate Hruns.
Defined.

Lemma forwards_not_hash nodes (batch : list RequestAck.t) : forall a,
  Forall (fun x => is_hash x = false) a ->
  Forall (fun x => is_hash x = false)
         (fold_left (fun a fr => forwardRequest a nodes fr) batch a).
Proof.
  induction batch as [|fr batch IH]; intros a Ha; [exact Ha|].
  simpl. apply IH. unfold forwardRequest. apply Forall_app. split; [exact Ha|].
  repeat constructor.
Qed.

Lemma body_not_hash s :
  Forall (fun x => is_hash x = false) (advanceState_body s).2.
Proof.
  unfold_body. unfold concat, send.
  destruct (state s); repeat case_match; simpl; try constructor;
    repeat (apply Forall_app; split); try (repeat constructor; fail);
    apply forwards_not_hash; constructor.
Qed.

Lemma loop_not_hash n : forall s a,
  Forall (fun x => is_hash x = false) a ->
  Forall (fun x => is_hash x = false) (advanceState_loop n s a).2.
Proof.
  induction n as [|n IH]; intros s a Ha; [exact Ha|].
  rewrite loop_unfold. unfold concat.
  assert (Forall (fun x => is_hash x = false) (a ++ (advanceState_body s).2))
    by (apply Forall_app; split; [exact Ha | apply body_not_hash]).
  case_decide; [assumption | apply IH; assumption].
Qed.

(** X12.  Allocating an empty batch needs no digest: whatever requests are
    said to be outstanding, [allocate] asks for no hash, leaves the digest
    nil, counts the owner's prepare under the nil digest, and the slot is
    preprepared at once, with the Q entry [(seqNo, nil, [])] and with the
    Preprepare (at the owner) or Prepare (elsewhere) sent to all nodes. *)
Theorem allocate_empty_batch (s : sequence) (outstanding : gset string) :
  state s = sequenceUninitialized ->
  exists s' acts,
    allocate s [] outstanding = Ok (s', acts)
    /\ digest s' = None
    /\ batch s' = []
    /\ qEntry s' = Some (QEntry.mk (seqNo s) None [])
    /\ reached sequencePreprepared (state s')
    /\ owner s ∈ tally (prepares s') None
    /\ ActSend (NetworkConfig.Nodes (networkConfig s))
               (if decide (owner s = myConfig_Id s)
                then Msg_Preprepare (Preprepare.mk (seqNo s) (epoch s) 0 [])
                else Msg_Prepare (Prepare.mk (seqNo s) (epoch s) 0 None))
       ∈ acts
    /\ forall h, ActHash h ∉ acts.
Proof.
  intros Hs. unfold allocate. rewrite Hs. simpl.
  unfold applyBatchHashResult, applyPrepareMsg. simpl.
  match goal with
  | |- context [advanceState ?X] => set (pre := X)
  end.
  exists (advanceState pre).1, (advanceState pre).2.
  split; [destruct (advanceState pre); reflexivity|].
  assert (Hbody : advanceState_body pre = prepare pre).
  { unfold advanceState_body. change (state pre) with sequenceReady. cbv iota.
    change (batch pre) with (@nil RequestAck.t).
    rewrite (bool_decide_eq_true_2 (length (@nil RequestAck.t) = 0%nat))
      by reflexivity.
    rewrite orb_true_r. reflexivity. }
  pose proof (advanceState_frame pre) as Hf. unfold frame in Hf.
  injection Hf as _ _ _ Hd Hp _.
  assert (Hun : advanceState pre
                = advanceState_loop 6 (prepare pre).1 (prepare pre).2).
  { unfold advanceState. rewrite loop_unfold. rewrite Hbody.
    rewrite decide_False; [reflexivity|]. unfold prepare, addQEntry. simpl.
    discriminate. }
  assert (Hpay : payload (advanceState pre).1 = payload (prepare pre).1).
  { rewrite Hun. apply loop_payload. unfold prepare, addQEntry. simpl. lia. }
  unfold payload in Hpay. injection Hpay as Hb Hq _.
  split; [exact Hd|]. split; [exact Hb|]. split; [exact Hq|].
  split.
  { unfold reached. rewrite Hun.
    pose proof (loop_rank 6 (prepare pre).1 (prepare pre).2) as Hr.
    assert (Hp4 : state (prepare pre).1 = sequencePreprepared)
      by (unfold prepare, addQEntry; reflexivity).
    rewrite Hp4 in Hr. simpl in *. lia. }
  split.
  { rewrite Hp. simpl. unfold tally at 1. simpl. rewrite lookup_insert_eq. simpl.
    apply elem_of_union_l, elem_of_singleton. reflexivity. }
  split.
  { rewrite Hun.
    destruct (loop_acts 6 (prepare pre).1 (prepare pre).2) as [more ->].
    apply elem_of_app. left. unfold prepare, addQEntry, concat, send. simpl.
    destruct (decide (owner s = myConfig_Id s)); simpl; left. }
  intros h Hin.
  pose proof (loop_not_hash 7 pre [] ltac:(constructor)) as Hnh.
  fold (advanceState pre) in Hnh.
  rewrite Forall_forall in Hnh. apply Hnh in Hin. discriminate Hin.
Qed.

(** A fresh slot allocated with no requests, although a request is said
    to be outstanding. *)
Lemma allocate_empty_batch_witness :
  exists s' acts,
    allocate fresh [] {[ "AA" ]} = Ok (s', acts)
    /\ digest s' = None
    /\ qEntry s' = Some (QEntry.mk 1 None [])
    /\ reached sequencePreprepared (state s').
Proof.
  destruct (allocate_empty_batch fresh {[ "AA" ]} eq_refl)
    as (s' & acts & H1 & H2 & _ & H4 & H5 & _).
  exists s', acts. auto.
Defined.

(** X13.  [satisfyOutstanding] panics on a request that is not
    outstanding, and so on the same request a second time.  Otherwise it
    strikes the request's digest off the outstanding requests; a slot that
    waits in PendingRequests stays there, with no action returned, while
    other requests are outstanding, and is Ready (or beyond) once the last
    one is struck off. *)
Theorem satisfyOutstanding_releases (s : sequence) (fr : RequestAck.t) :
  let key := bytes_string (RequestAck.Digest fr) in
  (key ∉ outstandingReqs s ->
   satisfyOutstanding s fr = Panic "dev sanity check")
  /\ (key ∈ outstandingReqs s ->
      exists s' acts,
        satisfyOutstanding s fr = Ok (s', acts)
        /\ outstandingReqs s' = outstandingReqs s ∖ {[key]}
        /\ satisfyOutstanding s' fr = Panic "dev sanity check"
        /\ (state s = sequencePendingRequests ->
            (outstandingReqs s = {[key]} -> reached sequenceReady (state s'))
            /\ (outstandingReqs s <> {[key]} ->
                state s' = sequencePendingRequests /\ acts = []))).
Proof.
  intros key. unfold satisfyOutstanding. fold key. split.
  - intros Hn. rewrite bool_decide_eq_false_2 by exact Hn. reflexivity.
  - intros Hin. rewrite bool_decide_eq_true_2 by exact Hin. simpl.
    set (pre := set_outstandingReqs (outstandingReqs s ∖ {[key]}) s).
    exists (advanceState pre).1, (advanceState pre).2.
    split; [destruct (advanceState pre); reflexivity|].
    assert (Ho : outstandingReqs (advanceState pre).1
                 = outstandingReqs s ∖ {[key]})
      by apply loop_outstanding.
    split; [exact Ho|]. split.
    { rewrite Ho. rewrite bool_decide_eq_false_2; [reflexivity|].
      rewrite elem_of_difference, elem_of_singleton. tauto. }
    intros Hst. split.
    + intros Hone. unfold reached.
      assert (Hb : state (advanceState_body pre).1 = sequenceReady).
      { unfold advanceState_body, checkRequests. simpl. rewrite Hst. simpl.
        rewrite Hone. rewrite decide_False; [reflexivity|].
        rewrite difference_diag_L, size_empty. lia. }
      unfold advanceState. rewrite loop_unfold.
      rewrite decide_False by (rewrite Hb; simpl; rewrite Hst; discriminate).
      pose proof (loop_rank 6 (advanceState_body pre).1
                            (concat [] (advanceState_body pre).2)) as Hr.
      rewrite Hb in Hr. simpl in *. lia.
    + intros Hmore.
      assert (Hb : advanceState_body pre = (pre, [])).
      { unfold advanceState_body, checkRequests. simpl. rewrite Hst. simpl.
        rewrite decide_True; [reflexivity|].
        assert (Hne : outstandingReqs s ∖ {[key]} <> ∅).
        { intros He. apply Hmore. apply set_eq. intros x.
          rewrite elem_of_singleton.
          assert (Hx : x ∉ outstandingReqs s ∖ {[key]})
            by (rewrite He; apply not_elem_of_empty).
          rewrite elem_of_difference, elem_of_singleton in Hx.
          destruct (decide (x = key)) as [->|Hxk]; tauto. }
        assert (Hsz : size (outstandingReqs s ∖ {[key]}) <> 0%nat).
        { apply size_non_empty_iff. intros He. apply Hne.
          apply leibniz_equiv, He. }
        lia. }
      rewrite (advanceState_at_rest _ Hb). simpl. split; [exact Hst | reflexivity].
Qed.

(** A fresh slot allocated with one request that is outstanding: striking
    it off makes the slot Ready, striking it off again panics. *)
Lemma satisfyOutstanding_releases_witness :
  exists s1 acts1 s2 acts2,
    allocate fresh [ack_AA] {[ "AA" ]} = Ok (s1, acts1)
    /\ state s1 = sequencePendingRequests
    /\ satisfyOutstanding s1 ack_AA = Ok (s2, acts2)
    /\ reached sequenceReady (state s2)
    /\ satisfyOutstanding s2 ack_AA = Panic "dev sanity check".
Proof.
  destruct (allocate fresh [ack_AA] {[ "AA" ]}) as [[s1 acts1]|e] eqn:Halloc;
    [|vm_compute in Halloc; discriminate Halloc].
  assert (Hst : state s1 = sequencePendingRequests)
    by (vm_compute in Halloc; injection Halloc as <- _; reflexivity).
  assert (Hout : outstandingReqs s1 = {[ "AA" ]})
    by (vm_compute in Halloc; injection Halloc as <- _; reflexivity).
  destruct (proj2 (satisfyOutstanding_releases s1 ack_AA))
    as (s2 & acts2 & H1 & _ & H3 & H4).
  { rewrite Hout. apply elem_of_singleton. reflexivity. }
  exists s1, acts1, s2, acts2. split; [reflexivity|]. split; [exact Hst|].
  split; [exact H1|]. split; [|exact H3].
  apply (proj1 (H4 Hst)). exact Hout.
Defined.

(** *** Votes *)

Lemma set_prepares_same s : set_prepares (prepares s) s = s.
Proof. destruct s; reflexivity. Qed.

Lemma set_commits_same s : set_commits (commits s) s = s.
Proof. destruct s; reflexivity. Qed.

(** X14.  A vote counts once: the same Prepare, or the same Commit, from
    the same node for the same digest a second time leaves the sequence as
    it is and returns no action. *)
Theorem duplicate_vote_ignored (s : sequence) (source : N) (d : bytes) :
  applyPrepareMsg (applyPrepareMsg s source d).1 source d
  = ((applyPrepareMsg s source d).1, [])
  /\ applyCommitMsg (applyCommitMsg s source d).1 source d
     = ((applyCommitMsg s source d).1, []).
Proof.
  split.
  - unfold applyPrepareMsg at 1.
    set (s1 := (applyPrepareMsg s source d).1).
    assert (Hp : prepares s1
                 = <[bytes_string d := {[source]} ∪ tally (prepares s) d]>
                     (prepares s)).
    { pose proof (advanceState_frame
                    (set_prepares
                       (<[bytes_string d := {[source]} ∪ tally (prepares s) d]>
                          (prepares s)) s)) as Hf.
      unfold frame in Hf. injection Hf as _ _ _ _ Hp _. exact Hp. }
    assert (Hsame : <[bytes_string d := {[source]} ∪ tally (prepares s1) d]>
                      (prepares s1) = prepares s1).
    { rewrite Hp at 1 2. rewrite tally_insert_eq, insert_insert_eq.
      rewrite Hp. f_equal. rewrite (assoc_L (∪)), union_idemp_L. reflexivity. }
    rewrite Hsame, set_prepares_same. apply advanceState_settled.
  - unfold applyCommitMsg at 1.
    set (s1 := (applyCommitMsg s source d).1).
    assert (Hp : commits s1
                 = <[bytes_string d := {[source]} ∪ tally (commits s) d]>
                     (commits s)).
    { pose proof (advanceState_frame
                    (set_commits
                       (<[bytes_string d := {[source]} ∪ tally (commits s) d]>
                          (commits s)) s)) as Hf.
      unfold frame in Hf. injection Hf as _ _ _ _ _ Hp. exact Hp. }
    assert (Hsame : <[bytes_string d := {[source]} ∪ tally (commits s1) d]>
                      (commits s1) = commits s1).
    { rewrite Hp at 1 2. rewrite tally_insert_eq, insert_insert_eq.
      rewrite Hp. f_equal. rewrite (assoc_L (∪)), union_idemp_L. reflexivity. }
    rewrite Hsame, set_commits_same. apply advanceState_settled.
Qed.

Lemma tally_insert_same (m : gmap string (gset N)) d d' v :
  bytes_string d = bytes_string d' ->
  tally (<[bytes_string d := v]> m) d' = v.
Proof. intros H. unfold tally. rewrite H, lookup_insert_eq. reflexivity. Qed.

(** X15.  A quorum is enough.  On a Preprepared slot, a Prepare under the
    slot's digest that brings the prepares under it to
    [intersectionQuorum], the local node's among them, makes the slot
    Prepared (or Committed) and sends the Commit for the slot to all
    nodes; on a Prepared slot, a Commit that brings the commits under the
    digest to [intersectionQuorum], the local node's among them, makes the
    slot Committed. *)
Theorem quorum_completeness (s : sequence) (source : N) (d : bytes) :
  bytes_string d = bytes_string (digest s) ->
  (state s = sequencePreprepared ->
   myConfig_Id s ∈ {[source]} ∪ tally (prepares s) d ->
   (intersectionQuorum (networkConfig s)
    <= Z.of_nat (size ({[source]} ∪ tally (prepares s) d)))%Z ->
   reached sequencePrepared (state (applyPrepareMsg s source d).1)
   /\ ActSend (NetworkConfig.Nodes (networkConfig s))
              (Msg_Commit (Commit.mk (seqNo s) (epoch s) 0 (digest s)))
      ∈ (applyPrepareMsg s source d).2)
  /\ (state s = sequencePrepared ->
      myConfig_Id s ∈ {[source]} ∪ tally (commits s) d ->
      (intersectionQuorum (networkConfig s)
       <= Z.of_nat (size ({[source]} ∪ tally (commits s) d)))%Z ->
      state (applyCommitMsg s source d).1 = sequenceCommitted).
Proof.
  intros Hd. split.
  - intros Hst Hme Hq. unfold applyPrepareMsg.
    set (pre := set_prepares _ s).
    assert (Hb : advanceState_body pre
                 = (set_persisted
                      (persistedLog s ++ [PersistP (PEntry.mk (seqNo s) (digest s))])
                      (set_state sequencePrepared pre),
                    [ActSend (NetworkConfig.Nodes (networkConfig s))
                             (Msg_Commit (Commit.mk (seqNo s) (epoch s) 0 (digest s)));
                     ActPersist (PersistP (PEntry.mk (seqNo s) (digest s)))])).
    { unfold advanceState_body, checkPrepareQuorum, addPEntry. simpl.
      rewrite Hst. simpl. rewrite (tally_insert_same _ _ _ _ Hd).
      rewrite bool_decide_eq_true_2 by exact Hme. simpl.
      destruct (Z.ltb_spec (Z.of_nat (size ({[source]} ∪ tally (prepares s) d)))
                           (intersectionQuorum (networkConfig s))); [lia|].
      reflexivity. }
    unfold advanceState. rewrite loop_unfold, Hb. cbn [fst snd].
    rewrite decide_False by (simpl; rewrite Hst; discriminate).
    match goal with
    | |- context [advanceState_loop 6 ?X ?A] =>
        pose proof (loop_rank 6 X A) as Hr;
        destruct (loop_acts 6 X A) as [more Hmore]
    end.
    split.
    + unfold reached. simpl in *. lia.
    + rewrite Hmore. unfold concat. simpl. left.
  - intros Hst Hme Hq. unfold applyCommitMsg.
    set (pre := set_commits _ s).
    assert (Hb : advanceState_body pre = (set_state sequenceCommitted pre, [])).
    { unfold advanceState_body, checkCommitQuorum. simpl.
      rewrite Hst. simpl. rewrite (tally_insert_same _ _ _ _ Hd).
      rewrite bool_decide_eq_true_2 by exact Hme. simpl.
      destruct (Z.ltb_spec (Z.of_nat (size ({[source]} ∪ tally (commits s) d)))
                           (intersectionQuorum (networkConfig s))); [lia|].
      reflexivity. }
    unfold advanceState. rewrite loop_unfold, Hb. cbn [fst snd].
    rewrite decide_False by (simpl; rewrite Hst; discriminate).
    rewrite loop_unfold. simpl. reflexivity.
Qed.

(** With the prepares of nodes 1 and 2 at hand, the prepare of node 0
    makes three, the quorum at four nodes with one fault. *)
Lemma quorum_completeness_witness :
  reached sequencePrepared (state (applyPrepareMsg two_prepares 0 (Some "BB")).1).
Proof.
  apply (proj1 (quorum_completeness two_prepares 0 (Some "BB") eq_refl)).
  - reflexivity.
  - apply elem_of_union_l, elem_of_singleton. reflexivity.
  - vm_compute. discriminate.
Defined.

(** *** What is sent and persisted over the life of a sequence *)

Lemma forwards_counts nodes (batch : list RequestAck.t) : forall a,
  proposals (fold_left (fun a fr => forwardRequest a nodes fr) batch a)
  = proposals a
  /\ commitsSent (fold_left (fun a fr => forwardRequest a nodes fr) batch a)
     = commitsSent a.
Proof.
  induction batch as [|fr batch IH]; intros a; [split; reflexivity|].
  simpl. destruct (IH (forwardRequest a nodes fr)) as [-> ->].
  unfold forwardRequest, proposals, commitsSent.
  rewrite !List.filter_app, !length_app. simpl. split; lia.
Qed.

Lemma crossed_same k st : crossed k st st = 0%nat.
Proof. unfold crossed. case_decide; [lia | reflexivity]. Qed.

Lemma crossed_add k st1 st2 st3 :
  (rank st1 <= rank st2)%nat -> (rank st2 <= rank st3)%nat ->
  (crossed k st1 st2 + crossed k st2 st3 = crossed k st1 st3)%nat.
Proof. unfold crossed. intros. repeat case_decide; lia. Qed.

Lemma body_counts s :
  proposals (advanceState_body s).2
  = crossed 4 (state s) (state (advanceState_body s).1)
  /\ commitsSent (advanceState_body s).2
     = crossed 5 (state s) (state (advanceState_body s).1).
Proof.
  unfold_body. unfold concat, send.
  destruct (state s) eqn:E; repeat case_match; simpl; rewrite ?E;
    unfold proposals, commitsSent, crossed;
    rewrite ?List.filter_app, ?length_app; simpl;
    try (split; reflexivity).
  destruct (forwards_counts (NetworkConfig.Nodes (networkConfig s))
                            (batch s) []) as [Hp Hc].
  unfold proposals, commitsSent in Hp, Hc. simpl in Hp, Hc.
  rewrite Hp, Hc. split; reflexivity.
Qed.

Lemma loop_counts n : forall s a,
  proposals (advanceState_loop n s a).2
  = (proposals a + crossed 4 (state s) (state (advanceState_loop n s a).1))%nat
  /\ commitsSent (advanceState_loop n s a).2
     = (commitsSent a
        + crossed 5 (state s) (state (advanceState_loop n s a).1))%nat.
Proof.
  induction n as [|n IH]; intros s a.
  - simpl. rewrite !crossed_same. split; lia.
  - rewrite loop_unfold.
    destruct (body_counts s) as [Hp Hc].
    assert (Happ : forall b, proposals (concat a b) = (proposals a + proposals b)%nat
                             /\ commitsSent (concat a b)
                                = (commitsSent a + commitsSent b)%nat).
    { intros b. unfold proposals, commitsSent, concat.
      rewrite !List.filter_app, !length_app. split; reflexivity. }
    case_decide as Hs.
    + simpl. destruct (Happ (advanceState_body s).2) as [-> ->].
      rewrite Hp, Hc. split; reflexivity.
    + destruct (IH (advanceState_body s).1 (concat a (advanceState_body s).2))
        as [-> ->].
      destruct (Happ (advanceState_body s).2) as [-> ->].
      rewrite Hp, Hc.
      assert (H1 : (rank (state s) <= rank (state (advanceState_body s).1))%nat)
        by (destruct (body_rank s) as [->|]; lia).
      pose proof (loop_rank n (advanceState_body s).1
                            (concat a (advanceState_body s).2)) as H2.
      rewrite <- (crossed_add 4 _ _ _ H1 H2), <- (crossed_add 5 _ _ _ H1 H2).
      split; lia.
Qed.

Lemma prefix_counts prefix :
  forallb is_hash prefix = true ->
  proposals prefix = 0%nat /\ commitsSent prefix = 0%nat.
Proof.
  induction prefix as [|x prefix IH]; [split; reflexivity|].
  simpl. intros H. apply andb_true_iff in H as [Hx Hrest].
  destruct (IH Hrest) as [Hp Hc]. unfold proposals, commitsSent in *.
  destruct x; try discriminate Hx. simpl. split; assumption.
Qed.

Lemma run_counts c s s' acts :
  run c s = Ok (s', acts) ->
  proposals acts = crossed 4 (state s) (state s')
  /\ commitsSent acts = crossed 5 (state s) (state s').
Proof.
  intros H. destruct (run_decompose _ _ _ _ H)
    as (pre & prefix & -> & -> & _ & Hlo & Hhi & Hpre & _).
  destruct (loop_counts 7 pre []) as [Hp Hc].
  fold (advanceState pre) in Hp, Hc.
  destruct (prefix_counts _ Hpre) as [Hp0 Hc0].
  pose proof (loop_rank 7 pre []) as Hr. fold (advanceState pre) in Hr.
  unfold proposals, commitsSent in *.
  rewrite !List.filter_app, !length_app, Hp, Hc, Hp0, Hc0. simpl.
  unfold crossed. repeat case_decide; lia.
Qed.

(** X16.  A node sends one proposal and one Commit for a slot, no more:
    over any run of calls that return, the Preprepares and Prepares sent
    number 1 if the slot became Preprepared during the run and 0 if not,
    and the Commits sent number 1 if it became Prepared during the run and
    0 if not. *)
Theorem one_proposal_one_commit
        (calls : list call) (s s' : sequence) (acts : Actions) :
  runs calls s [] = Ok (s', acts) ->
  proposals acts = crossed 4 (state s) (state s')
  /\ commitsSent acts = crossed 5 (state s) (state s')
  /\ (proposals acts <= 1)%nat
  /\ (commitsSent acts <= 1)%nat.
Proof.
  assert (Hgen : forall calls s a s' acts,
             runs calls s a = Ok (s', acts) ->
             proposals acts = (proposals a + crossed 4 (state s) (state s'))%nat
             /\ commitsSent acts
                = (commitsSent a + crossed 5 (state s) (state s'))%nat).
  { clear. induction calls as [|c calls IH]; intros s a s' acts; simpl.
    - intros [= <- <-]. rewrite !crossed_same. split; lia.
    - destruct (run c s) as [[s1 a1]|e] eqn:Hrun; simpl; [|discriminate].
      intros Hrest.
      pose proof (runs_monotone _ _ _ _ _ Hrest) as [_ Hr2].
      apply IH in Hrest as [-> ->].
      pose proof (run_monotone _ _ _ _ Hrun) as [_ Hr1].
      apply run_counts in Hrun as [Hp Hc].
      unfold proposals, commitsSent, concat in *.
      rewrite !List.filter_app, !length_app, Hp, Hc.
      rewrite <- (crossed_add 4 _ _ _ Hr1 Hr2), <- (crossed_add 5 _ _ _ Hr1 Hr2).
      split; lia. }
  intros H. apply Hgen in H as [Hp Hc]. simpl in *.
  split; [exact Hp|]. split; [exact Hc|].
  rewrite Hp, Hc. unfold crossed. split; repeat case_decide; lia.
Qed.

(** A fresh slot allocated with no requests, then given the prepares of
    nodes 1 and 2 for the nil digest, twice each: one Preprepare and one
    Commit are sent. *)
Lemma one_proposal_one_commit_witness :
  exists s' acts,
    runs [CallAllocate [] ∅;
          CallApplyPrepareMsg 1 None; CallApplyPrepareMsg 2 None;
          CallApplyPrepareMsg 1 None; CallApplyPrepareMsg 2 None] fresh []
    = Ok (s', acts)
    /\ proposals acts = 1%nat /\ commitsSent acts = 1%nat.
Proof.
  destruct (runs [CallAllocate [] ∅;
                  CallApplyPrepareMsg 1 None; CallApplyPrepareMsg 2 None;
                  CallApplyPrepareMsg 1 None; CallApplyPrepareMsg 2 None]
                 fresh []) as [[s' acts]|e] eqn:Hruns;
    [|vm_compute in Hruns; discriminate Hruns].
  exists s', acts. split; [reflexivity|].
  destruct (one_proposal_one_commit _ _ _ _ Hruns) as (Hp & Hc & _).
  assert (Hst : state s' = sequencePrepared)
    by (vm_compute in Hruns; injection Hruns as <- _; reflexivity).
  rewrite Hp, Hc, Hst. split; reflexivity.
Defined.

Lemma grown_refl s : grown s s.
Proof.
  exists [], []. rewrite !crossed_same. simpl. rewrite app_nil_r.
  repeat split; constructor.
Qed.

Lemma grown_trans s1 s2 s3 :
  seqNo s2 = seqNo s1 ->
  (rank (state s1) <= rank (state s2))%nat ->
  (rank (state s2) <= rank (state s3))%nat ->
  grown s1 s2 -> grown s2 s3 -> grown s1 s3.
Proof.
  intros Hseq H12 H23 (qs1 & ps1 & Hl1 & Hq1 & Hp1 & Fq1 & Fp1)
         (qs2 & ps2 & Hl2 & Hq2 & Hp2 & Fq2 & Fp2).
  rewrite Hseq in Fq2, Fp2.
  exists (qs1 ++ qs2), (ps1 ++ ps2).
  rewrite !length_app, Hq1, Hq2, Hp1, Hp2.
  rewrite (crossed_add 4 _ _ _ H12 H23), (crossed_add 5 _ _ _ H12 H23).
  split; [|split; [reflexivity|split; [reflexivity|]]].
  - rewrite Hl2, Hl1, !map_app, <- !app_assoc. do 2 f_equal.
    destruct ps1 as [|p ps1]; [reflexivity|].
    destruct qs2 as [|q qs2]; [reflexivity|].
    exfalso. simpl in Hp1, Hq2. unfold crossed in Hp1, Hq2.
    repeat case_decide; lia.
  - split; apply Forall_app; split; assumption.
Qed.

Lemma body_grown s : grown s (advanceState_body s).1.
Proof.
  unfold grown. unfold_body.
  destruct (state s) eqn:E; repeat case_match; simpl; rewrite ?E.
  all: first
         [ exists [], [];
           split; [simpl; rewrite ?app_nil_r; reflexivity|];
           split; [reflexivity|]; split; [reflexivity|];
           split; constructor
         | exists [QEntry.mk (seqNo s) (digest s) (batch s)], [];
           split; [reflexivity|];
           split; [reflexivity|]; split; [reflexivity|];
           split; repeat constructor
         | exists [], [PEntry.mk (seqNo s) (digest s)];
           split; [reflexivity|];
           split; [reflexivity|]; split; [reflexivity|];
           split; repeat constructor ].
Qed.

Lemma loop_grown n : forall s a, grown s (advanceState_loop n s a).1.
Proof.
  induction n as [|n IH]; intros s a; [apply grown_refl|].
  rewrite loop_unfold. case_decide; [apply body_grown|].
  pose proof (body_header s) as Hh. unfold header in Hh.
  injection Hh as _ Hseq _ _ _.
  eapply grown_trans; [exact Hseq | | | apply body_grown | apply IH].
  - destruct (body_rank s) as [->|]; lia.
  - apply loop_rank.
Qed.

Lemma grown_from pre s s' :
  persistedLog pre = persistedLog s -> seqNo pre = seqNo s ->
  (rank (state s) <= rank (state pre))%nat ->
  (rank (state pre) <= Nat.max 3 (rank (state s)))%nat ->
  (rank (state pre) <= rank (state s'))%nat ->
  grown pre s' -> grown s s'.
Proof.
  intros Hl Hseq Hlo Hhi Hr (qs & ps & Hlog & Hq & Hp & Fq & Fp).
  exists qs, ps. rewrite <- Hl, <- Hseq.
  split; [exact Hlog|]. rewrite Hq, Hp.
  split; [|split; [|split; assumption]];
    unfold crossed; repeat case_decide; lia.
Qed.

Lemma run_grown c s s' acts : run c s = Ok (s', acts) -> grown s s'.
Proof.
  intros H. destruct (run_decompose _ _ _ _ H)
    as (pre & prefix & -> & _ & Hh & Hlo & Hhi & _ & Hlog & _).
  unfold header in Hh. injection Hh as _ Hseq _ _ _.
  apply (grown_from pre); try assumption.
  - apply loop_rank.
  - apply loop_grown.
Qed.

(** X17.  Over any run of calls that return, the persisted log is only
    added to, and what is added is for the slot: one Q entry if the slot
    became Preprepared during the run, then one P entry if it became
    Prepared during the run, and nothing else. *)
Theorem persisted_log_grows
        (calls : list call) (s s' : sequence) (acts acts' : Actions) :
  runs calls s acts = Ok (s', acts') -> grown s s'.
Proof.
  revert s acts. induction calls as [|c calls IH]; intros s acts; simpl.
  - intros [= <- _]. apply grown_refl.
  - destruct (run c s) as [[s1 a1]|e] eqn:Hrun; simpl; [|discriminate].
    intros Hrest.
    pose proof (runs_monotone _ _ _ _ _ Hrest) as [_ Hr2].
    pose proof (run_monotone _ _ _ _ Hrun) as [Hh Hr1].
    unfold header in Hh. injection Hh as _ Hseq _ _ _.
    eapply grown_trans; [exact Hseq | exact Hr1 | exact Hr2 | |].
    + eapply run_grown, Hrun.
    + eapply IH, Hrest.
Qed.

(** The prepare of node 0 on top of those of nodes 1 and 2 adds the P
    entry of the slot to the log. *)
Lemma persisted_log_grows_witness :
  grown two_prepares (applyPrepareMsg two_prepares 0 (Some "BB")).1.
Proof.
  apply (persisted_log_grows [CallApplyPrepareMsg 0 (Some "BB")] two_prepares
           (applyPrepareMsg two_prepares 0 (Some "BB")).1
           [] (applyPrepareMsg two_prepares 0 (Some "BB")).2).
  vm_compute. reflexivity.
Defined.

End SequenceLifeFacts.

(** ** The admitter: order of release *)

Module AdmitterOrderFacts.
Import NodeMsgs NodeMsgsSpec NodeMsgsExamples NodeMsgsFacts AdmitterSpec.

Ltac unfold_process :=
  unfold process, process_epoch, processCheckpoint,
    EpochMsgs.process, EpochMsgs.processPreprepare,
    EpochMsgs.processPrepare, EpochMsgs.processCommit in *.

Lemma process_panic n msg e :
  (process n msg).2 = Panic e -> msg = Msg_None /\ e = "unknown message type".
Proof.
  unfold_process.
  destruct msg; simpl; repeat case_match; simplify_eq; simpl;
    try discriminate. intros [= <-]. split; reflexivity.
Qed.

(** A message that is not current leaves the admitter as it is. *)
Lemma process_quiet n msg a :
  (process n msg).2 = Ok a -> a <> current -> (process n msg).1 = n.
Proof.
  destruct n as [i o b em c]. unfold_process.
  destruct msg; simpl; repeat case_match; simplify_eq; simpl;
    intros Hr Hn; simplify_eq; try reflexivity; try (destruct em; reflexivity);
    contradiction.
Qed.

Lemma process_frame n msg :
  id (process n msg).1 = id n
  /\ buffer (process n msg).1 = buffer n
  /\ (forall a, (process n msg).2 = Ok a ->
                oddities (process n msg).1 = oddities n).
Proof.
  unfold_process.
  destruct msg; simpl; repeat case_match; simplify_eq; simpl;
    repeat split; try reflexivity; intros; try reflexivity; discriminate.
Qed.

(** The classification reads the cursors and the expected checkpoint,
    nothing else. *)
Lemma process_depends n n' msg :
  epochMsgs n' = epochMsgs n -> nextCheckpoint n' = nextCheckpoint n ->
  (process n' msg).2 = (process n msg).2
  /\ epochMsgs (process n' msg).1 = epochMsgs (process n msg).1
  /\ nextCheckpoint (process n' msg).1 = nextCheckpoint (process n msg).1.
Proof.
  destruct n as [i o b em c], n' as [i' o' b' em' c']. simpl.
  intros -> ->. unfold_process.
  destruct msg; simpl; repeat case_match; simplify_eq; simpl;
    repeat split; reflexivity.
Qed.

Lemma classified_depends a n n' msg :
  epochMsgs n' = epochMsgs n -> nextCheckpoint n' = nextCheckpoint n ->
  classified a n' msg = classified a n msg.
Proof.
  intros He Hc. unfold classified.
  destruct (process_depends n n' msg He Hc) as [-> _]. reflexivity.
Qed.

Lemma held_depends n n' msg :
  epochMsgs n' = epochMsgs n -> nextCheckpoint n' = nextCheckpoint n ->
  held n' msg = held n msg.
Proof.
  intros He Hc. unfold held. rewrite !(classified_depends _ n n') by assumption.
  reflexivity.
Qed.

Lemma filter_depends (f g : Msg -> bool) l :
  (forall m, f m = g m) -> List.filter f l = List.filter g l.
Proof. intros H. apply List.filter_ext. exact H. Qed.

Lemma forallb_depends (f g : Msg -> bool) l :
  (forall m, f m = g m) -> forallb f l = forallb g l.
Proof. intros H. induction l; simpl; [reflexivity|]. rewrite H, IHl. reflexivity. Qed.

(** What the loop of [next] does with the messages it visits. *)
Lemma next_loop_spec pending : forall kept n,
  match (next_loop pending kept n).2 with
  | Ok (Some msg) =>
      exists l1 l2,
        pending = l1 ++ msg :: l2
        /\ forallb (fun m => classified past n m || held n m) l1 = true
        /\ classified current n msg = true
        /\ buffer (next_loop pending kept n).1
           = rev kept ++ List.filter (held n) l1 ++ l2
        /\ oddities (next_loop pending kept n).1
           = oddities n
             ++ map (alreadyProcessed (id n)) (List.filter (classified past n) l1)
        /\ epochMsgs (next_loop pending kept n).1 = epochMsgs (process n msg).1
        /\ nextCheckpoint (next_loop pending kept n).1
           = nextCheckpoint (process n msg).1
        /\ id (next_loop pending kept n).1 = id n
  | Ok None =>
      forallb (fun m => classified past n m || held n m) pending = true
      /\ buffer (next_loop pending kept n).1
         = rev kept ++ List.filter (held n) pending
      /\ oddities (next_loop pending kept n).1
         = oddities n
           ++ map (alreadyProcessed (id n))
                  (List.filter (classified past n) pending)
      /\ epochMsgs (next_loop pending kept n).1 = epochMsgs n
      /\ nextCheckpoint (next_loop pending kept n).1 = nextCheckpoint n
      /\ id (next_loop pending kept n).1 = id n
  | Panic e => e = "unknown message type" /\ Msg_None ∈ pending
  end.
Proof.
  induction pending as [|msg rest IH]; intros kept n.
  - simpl. rewrite !app_nil_r. repeat split; reflexivity.
  - simpl.
    pose proof (process_panic n msg) as Hpanic.
    pose proof (process_quiet n msg) as Hquiet.
    destruct (process_frame n msg) as (Hid & _ & Hodd).
    assert (Hcl : forall a, classified a n msg
                            = match (process n msg).2 with
                              | Ok b => bool_decide (a = b)
                              | Panic _ => false
                              end) by reflexivity.
    unfold held. rewrite !Hcl.
    destruct (process n msg) as [n1 r] eqn:Hp. simpl in *.
    destruct r as [[| | |]|e]; simpl.
    + (* past *)
      rewrite (Hquiet past eq_refl) by discriminate.
      set (n2 := record_oddity (alreadyProcessed (id n) msg) n).
      specialize (IH kept n2).
      assert (Hc : forall a m, classified a n2 m = classified a n m)
        by (intros; apply classified_depends; reflexivity).
      assert (Hh : forall m, held n2 m = held n m)
        by (intros; apply held_depends; reflexivity).
      destruct ((next_loop rest kept n2).2) as [[m|]|e].
      * destruct IH as (l1 & l2 & -> & Hall & Hcur & Hbuf & Hod & Hem & Hnc & Hi).
        exists (msg :: l1), l2. simpl. rewrite !Hcl. simpl.
        split; [reflexivity|].
        split; [rewrite <- Hall; apply forallb_depends; intros;
                rewrite Hc, Hh; reflexivity|].
        split; [rewrite <- Hc; exact Hcur|].
        split; [rewrite Hbuf, (filter_depends _ _ _ Hh); reflexivity|].
        split; [rewrite Hod; simpl; rewrite <- app_assoc; simpl;
                rewrite (filter_depends _ _ _ (Hc past)); reflexivity|].
        destruct (process_depends n n2 m eq_refl eq_refl) as (_ & He & Hn).
        split; [rewrite Hem, He; reflexivity|].
        split; [rewrite Hnc, Hn; reflexivity | exact Hi].
      * destruct IH as (Hall & Hbuf & Hod & Hem & Hnc & Hi).
        split; [rewrite <- Hall; apply forallb_depends; intros;
                rewrite Hc, Hh; reflexivity|].
        split; [rewrite Hbuf, (filter_depends _ _ _ Hh); reflexivity|].
        split; [rewrite Hod; simpl; rewrite <- app_assoc; simpl;
                rewrite (filter_depends _ _ _ (Hc past)); reflexivity|].
        auto.
      * destruct IH as [-> Hin]. split; [reflexivity | right; exact Hin].
    + (* current *)
      exists [], rest. simpl. rewrite Hcl. simpl.
      rewrite app_nil_r, Hp. rewrite (Hodd current eq_refl).
      repeat split; reflexivity || exact Hid.
    + (* future *)
      rewrite (Hquiet future eq_refl) by discriminate.
      specialize (IH (msg :: kept) n).
      destruct ((next_loop rest (msg :: kept) n).2) as [[m|]|e].
      * destruct IH as (l1 & l2 & -> & Hall & Hcur & Hbuf & Hrest).
        exists (msg :: l1), l2. simpl. rewrite !Hcl. simpl.
        split; [reflexivity|]. split; [exact Hall|]. split; [exact Hcur|].
        split; [rewrite Hbuf; simpl; rewrite <- app_assoc; reflexivity|].
        exact Hrest.
      * destruct IH as (Hall & Hbuf & Hrest).
        split; [exact Hall|].
        split; [rewrite Hbuf; simpl; rewrite <- app_assoc; reflexivity|].
        exact Hrest.
      * destruct IH as [-> Hin]. split; [reflexivity | right; exact Hin].
    + (* invalid *)
      rewrite (Hquiet invalid eq_refl) by discriminate.
      specialize (IH (msg :: kept) n).
      destruct ((next_loop rest (msg :: kept) n).2) as [[m|]|e].
      * destruct IH as (l1 & l2 & -> & Hall & Hcur & Hbuf & Hrest).
        exists (msg :: l1), l2. simpl. rewrite !Hcl. simpl.
        split; [reflexivity|]. split; [exact Hall|]. split; [exact Hcur|].
        split; [rewrite Hbuf; simpl; rewrite <- app_assoc; reflexivity|].
        exact Hrest.
      * destruct IH as (Hall & Hbuf & Hrest).
        split; [exact Hall|].
        split; [rewrite Hbuf; simpl; rewrite <- app_assoc; reflexivity|].
        exact Hrest.
      * destruct IH as [-> Hin]. split; [reflexivity | right; exact Hin].
    + destruct (Hpanic e eq_refl) as [-> ->]. split; [reflexivity | left].
Qed.

(** What a call of [next] returns and leaves behind. *)
Lemma next_cases (n : nodeMsgs) :
  match (next n).2 with
  | Ok (Some msg) =>
      exists l1 l2,
        buffer n = l1 ++ msg :: l2
        /\ forallb (fun m => classified past n m || held n m) l1 = true
        /\ classified current n msg = true
        /\ buffer (next n).1 = List.filter (held n) l1 ++ l2
        /\ oddities (next n).1
           = oddities n
             ++ map (alreadyProcessed (id n)) (List.filter (classified past n) l1)
        /\ epochMsgs (next n).1 = epochMsgs (process n msg).1
        /\ nextCheckpoint (next n).1 = nextCheckpoint (process n msg).1
  | Ok None =>
      forallb (fun m => classified past n m || held n m) (buffer n) = true
      /\ buffer (next n).1 = List.filter (held n) (buffer n)
      /\ oddities (next n).1
         = oddities n
           ++ map (alreadyProcessed (id n))
                  (List.filter (classified past n) (buffer n))
      /\ epochMsgs (next n).1 = epochMsgs n
      /\ nextCheckpoint (next n).1 = nextCheckpoint n
  | Panic e => e = "unknown message type" /\ Msg_None ∈ buffer n
  end.
Proof.
  unfold next. pose proof (next_loop_spec (buffer n) [] n) as H.
  destruct ((next_loop (buffer n) [] n).2) as [[msg|]|e].
  - destruct H as (l1 & l2 & H1 & H2 & H3 & H4 & H5 & H6 & H7 & _).
    exists l1, l2. auto 10.
  - destruct H as (H1 & H2 & H3 & H4 & H5 & _). auto 10.
  - exact H.
Qed.

(** X19.  [next] releases the first message that is current, in the
    order in which its range visits the buffer (the order of the list
    [buffer n]), and nothing it passes on the way is lost silently: the
    messages visited before it are past or held (future or invalid); the
    past ones are dropped, one AlreadyProcessed oddity recorded for each,
    in the order of the visit; the held ones and all the messages not
    visited stay buffered; the cursors move as [process] moves them for
    the released message.  When [next] returns nil, no buffered message
    is current and the cursors are unchanged. *)
Theorem next_releases_first_current (n : nodeMsgs) :
  (forall msg,
     (next n).2 = Ok (Some msg) ->
     exists l1 l2,
       buffer n = l1 ++ msg :: l2
       /\ forallb (fun m => classified past n m || held n m) l1 = true
       /\ classified current n msg = true
       /\ buffer (next n).1 = List.filter (held n) l1 ++ l2
       /\ oddities (next n).1
          = oddities n
            ++ map (alreadyProcessed (id n)) (List.filter (classified past n) l1)
       /\ epochMsgs (next n).1 = epochMsgs (process n msg).1
       /\ nextCheckpoint (next n).1 = nextCheckpoint (process n msg).1)
  /\ ((next n).2 = Ok None ->
      forallb (fun m => classified past n m || held n m) (buffer n) = true
      /\ buffer (next n).1 = List.filter (held n) (buffer n)
      /\ oddities (next n).1
         = oddities n
           ++ map (alreadyProcessed (id n))
                  (List.filter (classified past n) (buffer n))
      /\ epochMsgs (next n).1 = epochMsgs n
      /\ nextCheckpoint (next n).1 = nextCheckpoint n).
Proof.
  pose proof (next_cases n) as H. split.
  - intros msg Hres. rewrite Hres in H. exact H.
  - intros Hres. rewrite Hres in H. exact H.
Qed.

(** X20.  The only panic of the admitter is the one on a message of no
    known type: [process] panics on nothing else, [next] panics only if
    such a message is buffered, and with none buffered [next] returns. *)
Theorem process_panics_only_on_unknown_type
        (n : nodeMsgs) (msg : Msg) (e : string) :
  ((process n msg).2 = Panic e -> msg = Msg_None /\ e = "unknown message type")
  /\ ((next n).2 = Panic e ->
      Msg_None ∈ buffer n /\ e = "unknown message type")
  /\ (Msg_None ∉ buffer n -> exists r, (next n).2 = Ok r).
Proof.
  split; [apply process_panic|].
  pose proof (next_cases n) as H.
  split.
  - intros He. rewrite He in H. destruct H as [-> Hin]. auto.
  - intros Hn. destruct ((next n).2) as [r|e']; [exists r; reflexivity|].
    destruct H as [_ Hin]. contradiction.
Qed.

(** How a proposal for the bucket is classified against the prepare
    cursor of the bucket. *)
Lemma process_proposal n bucket nx msg :
  EpochMsgs.next (epochMsgs n) !! bucket = Some nx ->
  proposal_in (leader nx) bucket (number (EpochMsgs.config (epochMsgs n))) msg ->
  (prepare nx < msg_seqNo msg -> (process n msg).2 = Ok future)
  /\ (msg_seqNo msg = prepare nx ->
      (process n msg).2 = Ok current
      /\ epochMsgs (process n msg).1 = prepare_step (epochMsgs n) bucket nx).
Proof.
  intros Hb Hprop. unfold process, process_epoch.
  destruct msg as [m|m| | | | | | |]; simpl in Hprop; try contradiction;
    destruct Hprop as (Hl & Hbk & He); simpl; rewrite He, N.ltb_irrefl;
    unfold EpochMsgs.process, EpochMsgs.processPreprepare,
      EpochMsgs.processPrepare; rewrite Hbk, Hb, Hl; simpl.
  - split.
    + intros Hlt. destruct (N.ltb_spec (Preprepare.SeqNo m) (prepare nx)); [lia|].
      destruct (N.eqb_spec (prepare nx) (Preprepare.SeqNo m)); [lia|]. reflexivity.
    + intros Heq. rewrite Heq, N.ltb_irrefl, N.eqb_refl. simpl.
      split; [reflexivity|]. unfold prepare_step. rewrite Hl. reflexivity.
  - split.
    + intros Hlt. destruct (N.ltb_spec (Prepare.SeqNo m) (prepare nx)); [lia|].
      destruct (N.eqb_spec (prepare nx) (Prepare.SeqNo m)); [lia|]. reflexivity.
    + intros Heq. rewrite Heq, N.ltb_irrefl, N.eqb_refl. simpl.
      split; [reflexivity|]. unfold prepare_step. rewrite Hl. reflexivity.
Qed.

Lemma run_from_S first k :
  run_from first (S k) = first :: run_from (first + 1) k.
Proof.
  unfold run_from. simpl. rewrite N.add_0_r. f_equal.
  rewrite <- seq_shift, map_map. apply map_ext. intros i. lia.
Qed.

Lemma run_from_above first k s : s ∈ run_from (first + 1) k -> first < s.
Proof.
  unfold run_from. intros H. apply list_elem_of_fmap in H as (i & -> & _). lia.
Qed.

(** One call of [next] on a buffer that holds the proposals of a bucket
    from the prepare cursor on: whatever the order of the visit, the
    proposal at the cursor is the one released. *)
Lemma next_lowest_proposal (k : nat) (n : nodeMsgs) (bucket : N) (nx : nextMsg) :
  EpochMsgs.next (epochMsgs n) !! bucket = Some nx ->
  Forall (proposal_in (leader nx) bucket
                      (number (EpochMsgs.config (epochMsgs n))))
         (buffer n) ->
  map msg_seqNo (buffer n) ≡ₚ run_from (prepare nx) (S k) ->
  exists msg,
    (next n).2 = Ok (Some msg)
    /\ msg_seqNo msg = prepare nx
    /\ buffer n ≡ₚ msg :: buffer (next n).1
    /\ epochMsgs (next n).1 = prepare_step (epochMsgs n) bucket nx
    /\ map msg_seqNo (buffer (next n).1) ≡ₚ run_from (prepare nx + 1) k.
Proof.
  intros Hb Hall Hperm. rewrite run_from_S in Hperm.
  pose proof (next_cases n) as Hnext.
  assert (Hfirst : exists m, m ∈ buffer n /\ msg_seqNo m = prepare nx).
  { assert (Hin : prepare nx ∈ map msg_seqNo (buffer n))
      by (rewrite Hperm; left).
    apply list_elem_of_fmap in Hin as (m & Hm & Hin). exists m. auto. }
  assert (Hothers : forall m, m ∈ buffer n ->
                              msg_seqNo m = prepare nx
                              \/ prepare nx < msg_seqNo m).
  { intros m Hm.
    assert (Hin : msg_seqNo m ∈ map msg_seqNo (buffer n))
      by (apply list_elem_of_fmap; exists m; auto).
    rewrite Hperm in Hin. apply elem_of_cons in Hin as [Hin|Hin]; [left; exact Hin|].
    right. apply (run_from_above _ _ _ Hin). }
  assert (Hclass : forall m, m ∈ buffer n ->
                             (msg_seqNo m = prepare nx ->
                              classified current n m = true)
                             /\ (prepare nx < msg_seqNo m ->
                                 held n m = true
                                 /\ classified past n m = false
                                 /\ classified current n m = false)).
  { intros m Hm. rewrite Forall_forall in Hall.
    destruct (process_proposal n bucket nx m Hb (Hall m Hm)) as [Hf Hc].
    unfold held, classified. split.
    - intros He. destruct (Hc He) as [-> _]. reflexivity.
    - intros Hgt. rewrite (Hf Hgt). auto. }
  destruct ((next n).2) as [[msg|]|e] eqn:Hres.
  - destruct Hnext as (l1 & l2 & Hbuf & _ & Hcur & Hbuf' & _ & Hem & _).
    assert (Hmsg : msg ∈ buffer n)
      by (rewrite Hbuf; apply elem_of_app; right; left).
    assert (Hseq : msg_seqNo msg = prepare nx).
    { destruct (Hothers msg Hmsg) as [He|Hgt]; [exact He|].
      destruct (Hclass msg Hmsg) as [_ Hc]. destruct (Hc Hgt) as (_ & _ & Hc').
      rewrite Hc' in Hcur. discriminate. }
    assert (Hrest : map msg_seqNo (l1 ++ l2) ≡ₚ run_from (prepare nx + 1) k).
    { rewrite Hbuf, map_app in Hperm. simpl in Hperm. rewrite Hseq in Hperm.
      rewrite map_app. symmetry.
      apply (Permutation_cons_app_inv _ _ (symmetry Hperm)). }
    assert (Hl1 : List.filter (held n) l1 = l1).
    { apply forallb_filter_id. apply forallb_forall. intros m Hm.
      assert (Hmb : m ∈ buffer n)
        by (rewrite Hbuf; apply elem_of_app; left; apply list_elem_of_In, Hm).
      assert (Hgt : prepare nx < msg_seqNo m).
      { assert (Hin : msg_seqNo m ∈ map msg_seqNo (l1 ++ l2)).
        { apply list_elem_of_fmap. exists m. split; [reflexivity|].
          apply elem_of_app. left. apply list_elem_of_In, Hm. }
        rewrite Hrest in Hin. apply (run_from_above _ _ _ Hin). }
      apply (Hclass m Hmb), Hgt. }
    rewrite Hl1 in Hbuf'.
    destruct (process_proposal n bucket nx msg Hb) as [_ Hc].
    { rewrite Forall_forall in Hall. apply Hall, Hmsg. }
    destruct (Hc Hseq) as [_ Hstep]. rewrite Hstep in Hem.
    exists msg. split; [reflexivity|]. split; [exact Hseq|].
    split; [rewrite Hbuf, Hbuf'; symmetry; apply Permutation_middle|].
    split; [exact Hem|]. rewrite Hbuf'. exact Hrest.
  - exfalso. destruct Hnext as (Hallb & _).
    destruct Hfirst as (m & Hm & He).
    rewrite forallb_forall in Hallb.
    specialize (Hallb m (proj1 (list_elem_of_In _ _) Hm)).
    destruct (Hclass m Hm) as [Hc _]. specialize (Hc He).
    unfold held, classified in *.
    destruct ((process n m).2) as [[| | |]|]; simpl in *; discriminate.
  - exfalso. destruct Hnext as [_ Hin].
    rewrite Forall_forall in Hall. apply (Hall _ Hin).
Qed.

(** X18.  Proposals that arrive out of order are released in order.  If
    the buffer holds the peer's proposals for the bucket in the current
    epoch with the [k] sequence numbers that start at the prepare cursor,
    then [k] calls of [next] return them in increasing order of sequence
    number, all of them and nothing else, whatever the order in which
    each call visits the buffer; the buffer is empty afterwards and the
    prepare cursor has moved on by [k]. *)
Theorem out_of_order_arrival_in_order_release
        (visit : nat -> list Msg -> list Msg) (k : nat) :
  (forall i l, visit i l ≡ₚ l) ->
  forall (n : nodeMsgs) (bucket : N) (nx : nextMsg),
    EpochMsgs.next (epochMsgs n) !! bucket = Some nx ->
    Forall (proposal_in (leader nx) bucket
                        (number (EpochMsgs.config (epochMsgs n))))
           (buffer n) ->
    map msg_seqNo (buffer n) ≡ₚ run_from (prepare nx) k ->
    prepare nx + N.of_nat k < 2 ^ 64 ->
    map msg_seqNo (drain visit k n).2 = run_from (prepare nx) k
    /\ (drain visit k n).2 ≡ₚ buffer n
    /\ buffer (drain visit k n).1 = []
    /\ EpochMsgs.next (epochMsgs (drain visit k n).1) !! bucket
       = Some {| leader := leader nx;
                 prepare := prepare nx + N.of_nat k;
                 commit := commit nx |}.
Proof.
  intros Hvisit.
  induction k as [|k IH]; intros n bucket nx Hb Hall Hperm Hlt.
  - simpl in *. apply Permutation_nil_r in Hperm.
    apply map_eq_nil in Hperm. rewrite Hperm.
    repeat split; try reflexivity. rewrite Hb, N.add_0_r. destruct nx; reflexivity.
  - simpl. set (n0 := set_buffer (visit k (buffer n)) n).
    assert (Hbuf0 : buffer n0 ≡ₚ buffer n) by apply Hvisit.
    destruct (next_lowest_proposal k n0 bucket nx Hb)
      as (msg & Hres & Hseq & Hbuf & Hem & Hrest).
    { change (Forall (proposal_in (leader nx) bucket
                        (number (EpochMsgs.config (epochMsgs n))))
                     (buffer n0)).
      rewrite Hbuf0. exact Hall. }
    { change (map msg_seqNo (buffer n0) ≡ₚ run_from (prepare nx) (S k)).
      rewrite Hbuf0. exact Hperm. }
    assert (Hbuf1 : buffer n ≡ₚ msg :: buffer (next n0).1)
      by (rewrite <- Hbuf0; exact Hbuf).
    clear Hbuf.
    destruct (next n0) as [n' r] eqn:Hn. simpl in Hres, Hbuf1, Hem, Hrest.
    subst r.
    set (nx' := {| leader := leader nx; prepare := wrap64 (prepare nx + 1);
                   commit := commit nx |}).
    assert (Hw : wrap64 (prepare nx + 1) = prepare nx + 1)
      by (apply wrap64_small; lia).
    assert (Hb' : EpochMsgs.next (epochMsgs n') !! bucket = Some nx').
    { rewrite Hem. unfold prepare_step, EpochMsgs.store. simpl.
      apply lookup_insert_eq. }
    specialize (IH n' bucket nx' Hb').
    destruct IH as (Hs & Hp & He & Hc').
    + rewrite Hem. simpl.
      assert (Hall0 : Forall (proposal_in (leader nx) bucket
                                (number (EpochMsgs.config (epochMsgs n))))
                             (msg :: buffer n'))
        by (rewrite <- Hbuf1; exact Hall).
      apply Forall_cons in Hall0 as [_ Hall0]. exact Hall0.
    + simpl. rewrite Hw. exact Hrest.
    + simpl. rewrite Hw. lia.
    + destruct (drain visit k n') as [n'' l]. simpl in *.
      rewrite Hw in Hs, Hc'.
      split; [rewrite run_from_S, Hseq, Hs; reflexivity|].
      split; [rewrite Hp, Hbuf1; reflexivity|].
      split; [exact He|]. rewrite Hc'. do 2 f_equal. lia.
Qed.

(** Peer 0 with its preprepares for 3, 1 and 2 buffered, each call
    visiting the buffer back to front. *)
Lemma out_of_order_arrival_in_order_release_witness :
  map msg_seqNo (drain (fun _ => rev (A:=Msg)) 3 out_of_order).2 = [1; 2; 3]
  /\ buffer (drain (fun _ => rev (A:=Msg)) 3 out_of_order).1 = [].
Proof.
  destruct (out_of_order_arrival_in_order_release (fun _ => rev (A:=Msg)) 3)
    with (n := out_of_order) (bucket := 0)
         (nx := {| leader := true; prepare := 1; commit := 1 |})
    as (H1 & _ & H3 & _).
  - intros _ l. symmetry. apply Permutation_rev.
  - vm_compute. reflexivity.
  - repeat constructor.
  - change (3 :: [1; 2] ≡ₚ [1; 2] ++ [3]). apply Permutation_cons_append.
  - vm_compute. reflexivity.
  - split; [exact H1 | exact H3].
Defined.

(** X21.  A message is released once.  An ordering message or a
    checkpoint that [process] has found current is past when it is
    processed again right away, as long as the cursor it moved did not
    wrap around (and, for a checkpoint, the interval is not 0).  The other
    messages that are current move no cursor and are current again. *)
Theorem released_once (n : nodeMsgs) (msg : Msg) :
  (process n msg).2 = Ok current ->
  match msg with
  | Msg_Preprepare _ | Msg_Prepare _ | Msg_Commit _ =>
      msg_seqNo msg + 1 < 2 ^ 64 ->
      replay n msg = ((process n msg).1, Ok past)
  | Msg_Checkpoint m =>
      0 < checkpointInterval (EpochMsgs.config (epochMsgs n)) ->
      Checkpoint.SeqNo m + checkpointInterval (EpochMsgs.config (epochMsgs n))
      < 2 ^ 64 ->
      replay n msg = ((process n msg).1, Ok past)
  | _ => (process n msg).1 = n /\ replay n msg = (n, Ok current)
  end.
Proof.
  destruct n as [i o b [cfg nxt] c]. unfold replay.
  destruct msg as [m|m|m|m|m|m|m|m|]; unfold_process; simpl.
  - (* Preprepare *)
    destruct (_ <? Preprepare.Epoch m) eqn:E1; [discriminate|].
    destruct (Preprepare.Epoch m <? _) eqn:E2; [discriminate|].
    destruct (nxt !! Preprepare.Bucket m) as [nx|] eqn:Hb; [|discriminate].
    destruct (leader nx) eqn:Hl; simpl; [|discriminate].
    destruct (Preprepare.SeqNo m <? prepare nx); [discriminate|].
    destruct (N.eqb_spec (prepare nx) (Preprepare.SeqNo m)) as [He|];
      [|discriminate].
    intros _ Hw. simpl. rewrite E1, E2. simpl. rewrite lookup_insert_eq. simpl.
    rewrite ?Hl. simpl. rewrite (wrap64_small _ Hw).
    destruct (N.ltb_spec (Preprepare.SeqNo m) (Preprepare.SeqNo m + 1)); [|lia].
    reflexivity.
  - (* Prepare *)
    destruct (_ <? Prepare.Epoch m) eqn:E1; [discriminate|].
    destruct (Prepare.Epoch m <? _) eqn:E2; [discriminate|].
    destruct (nxt !! Prepare.Bucket m) as [nx|] eqn:Hb; [|discriminate].
    destruct (leader nx) eqn:Hl; simpl; [discriminate|].
    destruct (Prepare.SeqNo m <? prepare nx); [discriminate|].
    destruct (N.eqb_spec (prepare nx) (Prepare.SeqNo m)) as [He|];
      [|discriminate].
    intros _ Hw. simpl. rewrite E1, E2. simpl. rewrite lookup_insert_eq. simpl.
    rewrite ?Hl. simpl. rewrite (wrap64_small _ Hw).
    destruct (N.ltb_spec (Prepare.SeqNo m) (Prepare.SeqNo m + 1)); [|lia].
    reflexivity.
  - (* Commit *)
    destruct (_ <? Commit.Epoch m) eqn:E1; [discriminate|].
    destruct (Commit.Epoch m <? _) eqn:E2; [discriminate|].
    destruct (nxt !! Commit.Bucket m) as [nx|] eqn:Hb; [|discriminate].
    destruct (Commit.SeqNo m <? commit nx); [discriminate|].
    destruct ((commit nx =? Commit.SeqNo m) && (commit nx <? prepare nx));
      [|discriminate].
    intros _ Hw. simpl. rewrite E1, E2. simpl. rewrite lookup_insert_eq. simpl.
    rewrite (wrap64_small _ Hw).
    destruct (N.ltb_spec (Commit.SeqNo m) (Commit.SeqNo m + 1)); [|lia].
    reflexivity.
  - (* Suspect *)
    destruct (_ <? Suspect.Epoch m) eqn:E1; [discriminate|].
    destruct (Suspect.Epoch m <? _) eqn:E2; [discriminate|].
    intros _. simpl. rewrite E1, E2. split; reflexivity.
  - (* Checkpoint *)
    destruct (Checkpoint.SeqNo m <? c); [discriminate|].
    destruct (c =? Checkpoint.SeqNo m); [|discriminate].
    destruct (existsb _ _); [discriminate|].
    intros _ Hpos Hw. simpl. rewrite (wrap64_small _ Hw).
    destruct (N.ltb_spec (Checkpoint.SeqNo m)
                         (Checkpoint.SeqNo m + checkpointInterval cfg)); [|lia].
    reflexivity.
  - (* Forward *)
    destruct (_ <? Forward.Epoch m) eqn:E1; [discriminate|].
    destruct (Forward.Epoch m <? _) eqn:E2; [discriminate|].
    intros _. simpl. rewrite E1, E2. split; reflexivity.
  - (* EpochChange *)
    destruct (_ <? EpochChange.NewEpoch m) eqn:E1; [discriminate|].
    destruct (EpochChange.NewEpoch m <? _) eqn:E2; [discriminate|].
    intros _. simpl. rewrite E1, E2. split; reflexivity.
  - intros _. split; reflexivity.
  - discriminate.
Qed.

(** The preprepare of peer 0 for sequence number 1, twice. *)
Lemma released_once_witness :
  replay leader_peer (preprepare_at 1 1)
  = ((process leader_peer (preprepare_at 1 1)).1, Ok past).
Proof.
  assert (Hp : (process leader_peer (preprepare_at 1 1)).2 = Ok current)
    by (vm_compute; reflexivity).
  pose proof (released_once leader_peer (preprepare_at 1 1) Hp) as H.
  apply H. vm_compute. reflexivity.
Defined.

Lemma bucketStatuses_ok n ids :
  (forall i, i ∈ ids -> is_Some (EpochMsgs.next (epochMsgs n) !! N.of_nat i)) ->
  exists sts,
    bucketStatuses n ids = Ok sts
    /\ length sts = length ids
    /\ forall k bs, sts !! k = Some bs ->
         exists i nx,
           ids !! k = Some i
           /\ EpochMsgs.next (epochMsgs n) !! N.of_nat i = Some nx
           /\ bucketStatus n i = Ok bs.
Proof.
  induction ids as [|i ids IH]; intros Hall.
  - exists []. simpl. repeat split. intros k bs H. discriminate.
  - destruct IH as (sts & Hsts & Hlen & Hk).
    { intros j Hj. apply Hall. right. exact Hj. }
    destruct (Hall i) as [nx Hnx]; [left|].
    simpl. unfold bucketStatus at 1. rewrite Hnx. simpl. rewrite Hsts. simpl.
    eexists. split; [reflexivity|]. split; [simpl; lia|].
    intros [|k] bs; simpl.
    + intros [= <-]. exists i, nx. split; [reflexivity|]. split; [exact Hnx|].
      unfold bucketStatus. rewrite Hnx. reflexivity.
    + apply Hk.
Qed.

Lemma bucketStatuses_panic n ids i :
  i ∈ ids -> EpochMsgs.next (epochMsgs n) !! N.of_nat i = None ->
  bucketStatuses n ids
  = Panic "invalid memory address or nil pointer dereference".
Proof.
  induction ids as [|j ids IH]; intros Hin Hnone; [inversion Hin|].
  simpl. unfold bucketStatus at 1.
  destruct (EpochMsgs.next (epochMsgs n) !! N.of_nat j) as [nx|] eqn:Hj;
    [|reflexivity].
  simpl. apply elem_of_cons in Hin as [->|Hin]; [congruence|].
  rewrite (IH Hin Hnone). reflexivity.
Qed.

(** X22.  What [status] reports, for an admitter reached by messages
    whose sequence numbers stay clear of the wrap-around: if the buckets
    of the epoch are numbered from 0 without a gap, one entry per bucket,
    in order, with the last prepared and the last committed sequence
    number one below the cursors and the committed one never ahead; if a
    bucket number below the count is missing, a panic. *)
Theorem status_reads_cursors (h : list Msg) (n : nodeMsgs) :
  reachable no_wrap h n ->
  ((forall i, (i < size (EpochMsgs.next (epochMsgs n)))%nat ->
              is_Some (EpochMsgs.next (epochMsgs n) !! N.of_nat i)) ->
   exists st,
     status n = Ok st
     /\ ID st = id n
     /\ length (BucketStatuses st) = size (EpochMsgs.next (epochMsgs n))
     /\ forall i bs, BucketStatuses st !! i = Some bs ->
          exists nx,
            EpochMsgs.next (epochMsgs n) !! N.of_nat i = Some nx
            /\ BucketID bs = Z.of_nat i
            /\ IsLeader bs = leader nx
            /\ LastPrepare bs + 1 = prepare nx
            /\ LastCommit bs + 1 = commit nx
            /\ LastCommit bs <= LastPrepare bs)
  /\ (forall i, (i < size (EpochMsgs.next (epochMsgs n)))%nat ->
                EpochMsgs.next (epochMsgs n) !! N.of_nat i = None ->
                status n
                = Panic "invalid memory address or nil pointer dereference").
Proof.
  intros Hreach.
  destruct (reachable_invariant no_wrap ordered_in_range ordered_new
              ordered_process h n Hreach) as [Hord _].
  assert (Hany : reachable any_msg h n)
    by (apply (reachable_weaken no_wrap); [intros; exact I | exact Hreach]).
  destruct (reachable_invariant any_msg prepares_accepted prepares_accepted_new
              prepares_accepted_process h n Hany) as [Hacc _].
  split.
  - intros Hall.
    destruct (bucketStatuses_ok n (seq 0 (size (EpochMsgs.next (epochMsgs n)))))
      as (sts & Hsts & Hlen & Hk).
    { intros i Hi. apply elem_of_seq in Hi. apply Hall. lia. }
    unfold status. rewrite Hsts. simpl. eexists. split; [reflexivity|].
    simpl. split; [reflexivity|]. rewrite length_seq in Hlen.
    split; [exact Hlen|].
    intros i bs Hbs. destruct (Hk i bs Hbs) as (j & nx & Hj & Hnx & Hst).
    apply lookup_seq in Hj as [-> _]. simpl in *.
    exists nx. split; [exact Hnx|].
    unfold bucketStatus in Hst. rewrite Hnx in Hst. injection Hst as <-. simpl.
    destruct (Hord _ _ Hnx) as [Hle Hlt].
    destruct (Hacc _ _ Hnx) as (Hone & _ & _).
    assert (Hp : sub64 (prepare nx) 1 = prepare nx - 1).
    { unfold sub64, wrap64.
      replace (prepare nx + 2 ^ 64 - 1) with (prepare nx - 1 + 1 * 2 ^ 64) by lia.
      rewrite N.Div0.mod_add. apply N.mod_small. lia. }
    assert (Hc : sub64 (commit nx) 1 = commit nx - 1).
    { unfold sub64, wrap64.
      replace (commit nx + 2 ^ 64 - 1) with (commit nx - 1 + 1 * 2 ^ 64) by lia.
      rewrite N.Div0.mod_add. apply N.mod_small. lia. }
    rewrite Hp, Hc. repeat split; try reflexivity; lia.
  - intros i Hi Hnone. unfold status.
    rewrite (bucketStatuses_panic n _ i); [reflexivity | | exact Hnone].
    apply elem_of_seq. lia.
Qed.

(** Peer 0 after its preprepare for 1: one bucket, prepared up to 1,
    nothing committed. *)
Lemma status_reads_cursors_witness :
  exists st,
    status one_preprepared = Ok st
    /\ length (BucketStatuses st) = 1%nat
    /\ forall i bs, BucketStatuses st !! i = Some bs ->
                    LastCommit bs <= LastPrepare bs.
Proof.
  assert (Hr : reachable no_wrap
                 (accepted (process leader_peer (preprepare_at 1 1)).2
                           (preprepare_at 1 1) [])
                 one_preprepared).
  { apply reach_process; [reflexivity | apply reach_new]. }
  destruct (proj1 (status_reads_cursors _ _ Hr)) as (st & Hst & _ & Hlen & Hbs).
  - intros i Hi. change (i < 1)%nat in Hi.
    destruct i as [|i]; [eexists; vm_compute; reflexivity | lia].
  - exists st. split; [exact Hst|]. split; [exact Hlen|].
    intros i bs Hi. destruct (Hbs i bs Hi) as (nx & _ & _ & _ & _ & _ & Hle).
    exact Hle.
Defined.

End AdmitterOrderFacts.

(** ** The event log of the test engine *)

Module EventLogFacts.
Import Interfaces EventLog EventLogSpec EventLogExamples.

Section Facts.

Context {SE R M W E : Type}.
Context `{rand_impl : !RandSource R, mangler_impl : !Interfaces.Mangler SE M,
          writer_impl : !EventWriter SE W E}.

Local Abbreviation event := (RecordedEvent.t SE).
Local Abbreviation log := (EventLog SE R M W).
Local Abbreviation time := RecordedEvent.Time.
Local Abbreviation time_le := (fun a b : event => (time a <= time b)%Z).

Lemma set_List_same (l : log) : set_List (List l) l = l.
Proof. destruct l; reflexivity. Qed.

(** Where the inner loop puts the event. *)
Lemma insertBefore_Some (ev : event) els els' :
  insertBefore ev els = Some els' ->
  exists pre el post,
    els = pre ++ el :: post
    /\ els' = pre ++ ev :: el :: post
    /\ Forall (fun e => (time e <= time ev)%Z) pre
    /\ (time ev < time el)%Z.
Proof.
  revert els'. induction els as [|el rest IH]; intros els'; simpl; [discriminate|].
  destruct (Z.ltb_spec (time ev) (time el)) as [Hlt|Hge].
  - intros [= <-]. exists [], el, rest. repeat split; [constructor | exact Hlt].
  - destruct (insertBefore ev rest) as [r|]; simpl; [|discriminate].
    intros [= <-]. destruct (IH r eq_refl) as (pre & el' & post & -> & -> & Hpre & Hlt).
    exists (el :: pre), el', post. repeat split; [|exact Hlt].
    constructor; [lia | exact Hpre].
Qed.

Lemma insertBefore_None (ev : event) els :
  insertBefore ev els = None <-> Forall (fun e => (time e <= time ev)%Z) els.
Proof.
  induction els as [|el rest IH]; simpl.
  - split; [constructor | reflexivity].
  - destruct (Z.ltb_spec (time ev) (time el)) as [Hlt|Hge].
    + split; [discriminate|]. intros H. apply Forall_cons in H as [H _]. lia.
    + destruct (insertBefore ev rest) as [r|]; simpl.
      * split; [discriminate|]. intros H. apply Forall_cons in H as [_ H].
        apply IH in H. discriminate H.
      * split; [|reflexivity]. intros _. constructor; [lia|]. apply IH. reflexivity.
Qed.

Lemma sorted_app_inv (l1 l2 : list event) :
  StronglySorted time_le (l1 ++ l2) ->
  StronglySorted time_le l1 /\ StronglySorted time_le l2
  /\ forall a b, a ∈ l1 -> b ∈ l2 -> (time a <= time b)%Z.
Proof.
  induction l1 as [|x l1 IH]; simpl; intros Hs.
  - split; [constructor|]. split; [exact Hs|]. intros a b Ha. inversion Ha.
  - apply StronglySorted_inv in Hs as [Hs Hx].
    destruct (IH Hs) as (H1 & H2 & H12).
    rewrite Forall_app in Hx. destruct Hx as [Hx1 Hx2].
    split; [constructor; assumption|]. split; [exact H2|].
    intros a b Ha Hb. apply elem_of_cons in Ha as [->|Ha].
    + rewrite Forall_forall in Hx2. apply Hx2, Hb.
    + apply H12; assumption.
Qed.

Lemma sorted_app (l1 l2 : list event) :
  StronglySorted time_le l1 -> StronglySorted time_le l2 ->
  (forall a b, a ∈ l1 -> b ∈ l2 -> (time a <= time b)%Z) ->
  StronglySorted time_le (l1 ++ l2).
Proof.
  induction l1 as [|x l1 IH]; simpl; intros H1 H2 H12; [exact H2|].
  apply StronglySorted_inv in H1 as [H1 Hx]. constructor.
  - apply IH; [exact H1 | exact H2|]. intros a b Ha Hb. apply H12; [right|]; assumption.
  - apply Forall_app. split; [exact Hx|]. apply Forall_forall.
    intros b Hb. apply H12; [left | exact Hb].
Qed.

(** Putting an event at its place keeps the times in order. *)
Lemma sorted_insert (ev : event) pre post :
  StronglySorted time_le (pre ++ post) ->
  Forall (fun e => (time e <= time ev)%Z) pre ->
  Forall (fun e => (time ev <= time e)%Z) post ->
  StronglySorted time_le (pre ++ ev :: post).
Proof.
  intros Hs Hpre Hpost. destruct (sorted_app_inv _ _ Hs) as (H1 & H2 & H12).
  apply sorted_app; [exact H1 | constructor; assumption|].
  intros a b Ha Hb. apply elem_of_cons in Hb as [->|Hb].
  - rewrite Forall_forall in Hpre. apply Hpre, Ha.
  - apply H12; assumption.
Qed.

Lemma insertEvents_in_order events : forall (ft : Z) (els : list event),
  StronglySorted time_le els ->
  Forall (fun e => (ft <= time e)%Z) els ->
  StronglySorted time_le (insertEvents events ft els).1
  /\ Forall (fun e => (ft <= time e)%Z) (insertEvents events ft els).1.
Proof.
  induction events as [|ev rest IH]; intros ft els Hs Hft; simpl; [auto|].
  destruct (Z.ltb_spec (time ev) ft) as [Hlt|Hge]; simpl; [auto|].
  destruct (insertBefore ev els) as [els'|] eqn:Hib; simpl.
  - apply insertBefore_Some in Hib
      as (pre & el & post & -> & -> & Hpre & Hlt).
    split.
    + apply sorted_insert; [exact Hs | exact Hpre|].
      destruct (sorted_app_inv _ _ Hs) as (_ & H2 & _).
      apply StronglySorted_inv in H2 as [_ Hel].
      constructor; [lia|]. eapply Forall_impl; [exact Hel|].
      intros e He. simpl in He. lia.
    + rewrite Forall_app in Hft. destruct Hft as [Hf1 Hf2].
      apply Forall_app. split; [exact Hf1|]. constructor; assumption.
  - apply insertBefore_None in Hib. apply IH.
    + apply (sorted_insert ev els []);
        [rewrite app_nil_r; exact Hs | exact Hib | constructor].
    + apply Forall_app. split; [exact Hft|]. constructor; [exact Hge | constructor].
Qed.


(** Where [Insert] puts an event: after the events that are not later,
    before the first later one. *)
Lemma insert_place (ev : event) (els : list event) :
  exists pre post,
    els = pre ++ post
    /\ match insertBefore ev els with
       | Some els' => els'
       | None => els ++ [ev]
       end = pre ++ ev :: post
    /\ Forall (fun e => (time e <= time ev)%Z) pre
    /\ (post = [] \/ exists el post', post = el :: post' /\ (time ev < time el)%Z).
Proof.
  destruct (insertBefore ev els) as [els'|] eqn:Hib.
  - apply insertBefore_Some in Hib as (pre & el & post & -> & -> & Hpre & Hlt).
    exists pre, (el :: post). split; [reflexivity|]. split; [reflexivity|].
    split; [exact Hpre|]. right. exists el, post. split; [reflexivity | exact Hlt].
  - apply insertBefore_None in Hib. exists els, [].
    split; [symmetry; apply app_nil_r|]. split; [reflexivity|].
    split; [exact Hib | left; reflexivity].
Qed.

(** [Insert] on a log without a mangler. *)
Lemma Insert_unmangled (l : log) (ev : event) :
  Mangler l = None ->
  Insert l ev
  = if (time ev <? FakeTime l)%Z
    then (l, Panic "attempted to modify the past")
    else (set_List match insertBefore ev (List l) with
                   | Some els' => els'
                   | None => List l ++ [ev]
                   end l,
          Ok tt).
Proof.
  intros Hm. unfold Insert. rewrite Hm. simpl.
  destruct (time ev <? FakeTime l)%Z; [rewrite set_List_same; reflexivity|].
  destruct (insertBefore ev (List l)); reflexivity.
Qed.

(** X24.  [Insert] on a log without a mangler: an event from before the
    current time of the log is refused with a panic and the log is left as
    it is; any other event is put into the list after the events that are
    not later than it, so behind the events of its own time, and nothing
    else in the log changes.  If the log was in order of time, the event
    goes before all later events and the log is in order again. *)
Theorem Insert_keeps_order (l : log) (ev : event) :
  Mangler l = None ->
  ((time ev < FakeTime l)%Z ->
   Insert l ev = (l, Panic "attempted to modify the past"))
  /\ ((FakeTime l <= time ev)%Z ->
      exists pre post,
        List l = pre ++ post
        /\ Insert l ev = (set_List (pre ++ ev :: post) l, Ok tt)
        /\ Forall (fun e => (time e <= time ev)%Z) pre
        /\ (in_order l ->
            Forall (fun e => (time ev < time e)%Z) post
            /\ in_order (Insert l ev).1)).
Proof.
  intros Hm. rewrite (Insert_unmangled l ev Hm). split.
  - intros Hlt. destruct (Z.ltb_spec (time ev) (FakeTime l)); [reflexivity | lia].
  - intros Hge. destruct (Z.ltb_spec (time ev) (FakeTime l)); [lia|].
    destruct (insert_place ev (List l)) as (pre & post & Hl & -> & Hpre & Hpost).
    exists pre, post. split; [exact Hl|]. split; [reflexivity|].
    split; [exact Hpre|]. intros [Hs Hft]. rewrite Hl in Hs, Hft.
    assert (Hlater : Forall (fun e => (time ev < time e)%Z) post).
    { destruct Hpost as [->|(el & post' & -> & Hlt)]; [constructor|].
      destruct (sorted_app_inv _ _ Hs) as (_ & H2 & _).
      apply StronglySorted_inv in H2 as [_ Hel].
      constructor; [exact Hlt|]. eapply Forall_impl; [exact Hel|].
      intros e He. simpl in He. lia. }
    split; [exact Hlater|]. split; simpl.
    + apply sorted_insert; [exact Hs | exact Hpre|].
      eapply Forall_impl; [exact Hlater|]. intros e He. simpl in He. lia.
    + rewrite Forall_app in Hft. destruct Hft as [Hf1 Hf2].
      apply Forall_app. split; [exact Hf1|]. constructor; assumption.
Qed.

Lemma Insert_in_order (l : log) (ev : event) :
  in_order l -> in_order (Insert l ev).1.
Proof.
  intros [Hs Hft]. unfold Insert.
  destruct (Mangler l) as [m|].
  - destruct (Rand l) as [r|]; [|split; assumption].
    destruct (Rand_Int r) as [x r']. destruct (Mangle m x ev) as [m' events].
    pose proof (insertEvents_in_order events (FakeTime l) (List l) Hs Hft) as Hi.
    destruct (insertEvents events (FakeTime l) (List l)) as [els res].
    exact Hi.
  - pose proof (insertEvents_in_order [ev] (FakeTime l) (List l) Hs Hft) as Hi.
    destruct (insertEvents [ev] (FakeTime l) (List l)) as [els res].
    exact Hi.
Qed.

Lemma ReadEvent_cases (l : log) :
  match List l with
  | [] => ReadEvent (E := E) l = (l, inr EOF)
  | ev :: rest =>
      List (ReadEvent (E := E) l).1 = rest
      /\ FakeTime (ReadEvent (E := E) l).1 = time ev
      /\ LastConsumed (ReadEvent (E := E) l).1 = Some ev
      /\ ((ReadEvent (E := E) l).2 = inl ev
          \/ exists e, (ReadEvent (E := E) l).2
                       = inr (WithMessage e
                                "could not write event before processing"))
  end.
Proof.
  unfold ReadEvent. destruct (List l) as [|ev rest]; [reflexivity|].
  simpl. destruct (Output l) as [w|]; simpl.
  - destruct (WriteRecordedEvent w ev) as [w' [e|]]; simpl;
      repeat split; eauto.
  - repeat split. left. reflexivity.
Qed.

Lemma ReadEvent_in_order (l : log) :
  in_order l -> in_order (ReadEvent (E := E) l).1.
Proof.
  intros [Hs Hft]. pose proof (ReadEvent_cases l) as Hc.
  destruct (List l) as [|ev rest] eqn:Hl.
  - rewrite Hc. simpl. split; rewrite Hl; constructor.
  - destruct Hc as (Hl' & Hf' & _). unfold in_order. rewrite Hl', Hf'.
    apply StronglySorted_inv in Hs as [Hs Hev]. split; assumption.
Qed.

Lemma reachable_in_order (l : log) : log_reachable (E := E) l -> in_order l.
Proof.
  induction 1.
  - split; constructor.
  - apply Insert_in_order. assumption.
  - apply Insert_in_order. assumption.
  - apply ReadEvent_in_order. assumption.
Qed.

Lemma reachable_nonneg (l : log) :
  log_reachable (E := E) l -> (0 <= FakeTime l)%Z.
Proof.
  induction 1 as [| l ev Hr IH | l target se fromNow Hr IH | l Hr IH].
  - simpl. lia.
  - unfold Insert. destruct (Mangler l); [destruct (Rand l)|]; simpl;
      repeat case_match; simpl; exact IH.
  - unfold InsertStateEvent, Insert.
    destruct (Mangler l); [destruct (Rand l)|]; simpl;
      repeat case_match; simpl; exact IH.
  - pose proof (reachable_in_order l Hr) as [_ Hft].
    pose proof (ReadEvent_cases l) as Hc.
    destruct (List l) as [|ev rest].
    + rewrite Hc. exact IH.
    + destruct Hc as (_ & -> & _). apply Forall_cons in Hft as [Hev _]. lia.
Qed.

(** X25.  The time of the log never runs backwards.  In any log that
    inserting and reading events bring about from the empty log, mangler
    or not, the events are in order of time and none is from before the
    current time, which is never negative; [ReadEvent] never moves the
    time back; the event it returns is the front of the list, it becomes
    the current time and the last consumed event; and [ReadEvent] reports
    the end of the log exactly when the list is empty. *)
Theorem time_never_runs_backwards (l : log) :
  log_reachable (E := E) l ->
  in_order l
  /\ (0 <= FakeTime l)%Z
  /\ (FakeTime l <= FakeTime (ReadEvent (E := E) l).1)%Z
  /\ (forall ev, (ReadEvent (E := E) l).2 = inl ev ->
                 (FakeTime l <= time ev)%Z
                 /\ FakeTime (ReadEvent (E := E) l).1 = time ev
                 /\ LastConsumed (ReadEvent (E := E) l).1 = Some ev
                 /\ List l = ev :: List (ReadEvent (E := E) l).1)
  /\ ((ReadEvent (E := E) l).2 = inr EOF <-> List l = []).
Proof.
  intros Hr. pose proof (reachable_in_order l Hr) as Hin.
  split; [exact Hin|]. split; [apply reachable_nonneg, Hr|].
  destruct Hin as [Hs Hft].
  pose proof (ReadEvent_cases l) as Hc.
  destruct (List l) as [|ev rest] eqn:Hl.
  - rewrite Hc. simpl. split; [lia|]. split; [discriminate|]. split; auto.
  - destruct Hc as (Hl' & Hf' & Hlc & Hres).
    apply Forall_cons in Hft as [Hev _].
    split; [rewrite Hf'; exact Hev|]. split.
    + intros ev' Hev'. destruct Hres as [Hres|[e Hres]];
        rewrite Hres in Hev'; [|discriminate].
      injection Hev' as <-. rewrite Hl'. auto.
    + split; [|discriminate]. intros He.
      destruct Hres as [Hres|[e Hres]]; rewrite Hres in He; discriminate.
Qed.


(** X26.  With a mangler, [Insert] stops at the first event that goes
    in front of a later one: if the first event the mangler returns is not
    from the past and the list holds a later event, that event alone is
    inserted and the other events the mangler returned are dropped. *)
Theorem Insert_stops_at_first_inner_insert
        (l : log) (initialEvent ev : event) (rest : list event)
        (m m' : M) (r r' : R) (random : Z) :
  Mangler l = Some m -> Rand l = Some r ->
  Rand_Int r = (random, r') ->
  Mangle m random initialEvent = (m', ev :: rest) ->
  (FakeTime l <= time ev)%Z ->
  Exists (fun el => (time ev < time el)%Z) (List l) ->
  exists pre post,
    List l = pre ++ post
    /\ Insert l initialEvent
       = ({| List := pre ++ ev :: post; LastConsumed := LastConsumed l;
             FakeTime := FakeTime l; Rand := Some r'; Mangler := Some m';
             Output := Output l |},
          Ok tt).
Proof.
  intros Hm Hr Hri Hmg Hge Hex. unfold Insert. rewrite Hm, Hr, Hri, Hmg. simpl.
  destruct (Z.ltb_spec (time ev) (FakeTime l)); [lia|].
  destruct (insertBefore ev (List l)) as [els'|] eqn:Hib.
  - apply insertBefore_Some in Hib as (pre & el & post & Hl & -> & _ & _).
    exists pre, (el :: post). split; [exact Hl | reflexivity].
  - apply insertBefore_None in Hib. exfalso.
    apply Exists_exists in Hex as (el & Hel & Hlt).
    rewrite Forall_forall in Hib. specialize (Hib el Hel). simpl in Hib. lia.
Qed.

Lemma pushBack_all (events : list event) : forall els,
  fold_left (fun els e => els ++ [e]) events els = els ++ events.
Proof.
  induction events as [|e events IH]; intros els; simpl.
  - symmetry. apply app_nil_r.
  - rewrite IH, <- app_assoc. reflexivity.
Qed.

Lemma readEvents_all (events : list event) : forall (l : log),
  Output l = None -> List l = events ->
  (readEvents (E := E) (length events) l).2 = events
  /\ List (readEvents (E := E) (length events) l).1 = []
  /\ FakeTime (readEvents (E := E) (length events) l).1
     = match last events with
       | Some ev => time ev
       | None => FakeTime l
       end
  /\ Output (readEvents (E := E) (length events) l).1 = None.
Proof.
  induction events as [|ev events IH]; intros l Ho Hl; simpl.
  - auto.
  - unfold ReadEvent. rewrite Hl. simpl. rewrite Ho.
    match goal with
    | |- context [readEvents _ ?X] =>
        destruct (IH X) as (H1 & H2 & H3 & H4); [reflexivity | reflexivity|];
        destruct (readEvents (length events) X) as [l'' evs]
    end.
    simpl in *. rewrite H1. split; [reflexivity|]. split; [exact H2|].
    split; [|exact H4]. rewrite H3, last_cons. destruct (last events); reflexivity.
Qed.

(** X27.  [ReadEventLog] fails with the error of the reader, whether it
    comes at once or after some events.  Otherwise it gives a log at time
    0 that holds the events of the source in their order, and as many
    calls of [ReadEvent] as there are events give the same events back, in
    order, after which [ReadEvent] reports the end of the log. *)
Theorem ReadEventLog_round_trip (events : list event) (e : E) :
  ReadEventLog (SE := SE) (R := R) (M := M) (W := W) (BadSource e)
  = inr (Err e)
  /\ ReadEventLog (R := R) (M := M) (W := W) (Events events (Some e))
     = inr (Err e)
  /\ exists l : log,
       ReadEventLog (E := E) (Events events None) = inl l
       /\ List l = events
       /\ FakeTime l = 0%Z
       /\ (readEvents (E := E) (length events) l).2 = events
       /\ ReadEvent (E := E) (readEvents (E := E) (length events) l).1
          = ((readEvents (E := E) (length events) l).1, inr EOF).
Proof.
  split; [reflexivity|]. split; [reflexivity|].
  unfold ReadEventLog. rewrite pushBack_all. simpl.
  eexists. split; [reflexivity|]. split; [reflexivity|]. split; [reflexivity|].
  match goal with
  | |- context [readEvents _ ?X] =>
      destruct (readEvents_all events X) as (H1 & H2 & _ & _);
        [reflexivity | reflexivity|]
  end.
  split; [exact H1|]. unfold ReadEvent at 1. rewrite H2. reflexivity.
Qed.

(** X28.  [InsertStateEvent] on a log without a mangler, at a current
    time that is not negative: the event is inserted exactly when
    [fromNow] is not negative and the time [FakeTime + fromNow] does not
    overflow; it then carries that time and the list is one longer.  In
    every other case, a negative [fromNow] or an overflow that wraps the
    time around to a negative one, the call panics and leaves the log as
    it is. *)
Theorem InsertStateEvent_from_now
        (l : log) (target : N) (stateEvent : SE) (fromNow : Z) :
  Mangler l = None ->
  (0 <= FakeTime l < 2 ^ 63)%Z ->
  (- 2 ^ 63 <= fromNow < 2 ^ 63)%Z ->
  ((InsertStateEvent l target stateEvent fromNow).2 = Ok tt
   <-> (0 <= fromNow /\ FakeTime l + fromNow < 2 ^ 63)%Z)
  /\ ((InsertStateEvent l target stateEvent fromNow).2 = Ok tt ->
      RecordedEvent.mk target (FakeTime l + fromNow)%Z stateEvent
      ∈ List (InsertStateEvent l target stateEvent fromNow).1
      /\ length (List (InsertStateEvent l target stateEvent fromNow).1)
         = S (length (List l)))
  /\ ((InsertStateEvent l target stateEvent fromNow).2 <> Ok tt ->
      InsertStateEvent l target stateEvent fromNow
      = (l, Panic "attempted to modify the past")).
Proof.
  intros Hm Hft Hfn. unfold InsertStateEvent.
  set (t := add_int64 (FakeTime l) fromNow).
  set (ev := RecordedEvent.mk target t stateEvent).
  rewrite (Insert_unmangled l ev Hm). change (time ev) with t.
  assert (Ht : ((0 <= fromNow /\ FakeTime l + fromNow < 2 ^ 63
                 /\ t = FakeTime l + fromNow)
                \/ (t < FakeTime l))%Z).
  { unfold t, add_int64.
    destruct (Z_lt_le_dec fromNow 0) as [Hneg|Hpos].
    - right. rewrite Z.mod_small by lia. lia.
    - destruct (Z_lt_le_dec (FakeTime l + fromNow) (2 ^ 63)) as [Hs|Hb].
      + left. rewrite Z.mod_small by lia. lia.
      + right.
        replace (FakeTime l + fromNow + 2 ^ 63)%Z
          with (FakeTime l + fromNow - 2 ^ 63 + 1 * 2 ^ 64)%Z by lia.
        rewrite Z.mod_add by lia. rewrite Z.mod_small by lia. lia. }
  destruct Ht as [(H0 & Hlt & Heq)|Hlt].
  - destruct (Z.ltb_spec t (FakeTime l)); [lia|].
    destruct (insert_place ev (List l)) as (pre & post & Hl & -> & _).
    simpl. split; [split; auto|]. split.
    + intros _. split.
      * apply elem_of_app. right. rewrite <- Heq. left.
      * rewrite Hl, !length_app. simpl. lia.
    + intros Hn. contradiction.
  - destruct (Z.ltb_spec t (FakeTime l)); [|lia].
    simpl. split; [split; [discriminate|]|].
    + intros [H0 Hs]. exfalso. revert Hlt. unfold t, add_int64.
      rewrite Z.mod_small by lia. lia.
    + split; [discriminate|]. reflexivity.
Qed.

End Facts.

(** *** On concrete logs *)

(** A tick at time 6 goes between the ticks at times 5 and 7. *)
Lemma Insert_keeps_order_witness : in_order (Insert two_ticks (tick 6)).1.
Proof.
  destruct (proj2 (Insert_keeps_order two_ticks (tick 6) eq_refl))
    as (pre & post & _ & _ & _ & Hin).
  - simpl. lia.
  - apply Hin. split; simpl; repeat constructor; simpl; lia.
Defined.

(** The empty log after a tick at time 5 has been inserted and read. *)
Lemma time_never_runs_backwards_witness :
  (0 <= FakeTime (ReadEvent (E := unit)
                    (Insert (empty (R := unit) (M := unit) (W := unit)
                                   None None None) (tick 5)).1).1)%Z.
Proof.
  apply (time_never_runs_backwards (E := unit)).
  apply reach_ReadEvent, reach_Insert, reach_empty.
Defined.

(** The doubling mangler turns a tick at time 6 into ticks at times 6 and
    16; the first goes in front of the tick at time 7 and the second is
    dropped. *)
Lemma Insert_stops_at_first_inner_insert_witness :
  exists pre post,
    List two_ticks_mangled = pre ++ post
    /\ Insert two_ticks_mangled (tick 6)
       = ({| List := pre ++ tick 6 :: post; LastConsumed := None;
             FakeTime := 0%Z; Rand := Some tt; Mangler := Some tt;
             Output := None |},
          Ok tt).
Proof.
  apply (Insert_stops_at_first_inner_insert two_ticks_mangled (tick 6) (tick 6)
           [tick 16] tt tt tt tt 0%Z);
    try reflexivity.
  - simpl. lia.
  - apply Exists_cons_tl, Exists_cons_hd. simpl. lia.
Defined.

(** A tick 6 units of time from now, at time 0. *)
Lemma InsertStateEvent_from_now_witness :
  (InsertStateEvent two_ticks 0 StateEvent_Tick 6).2 = Ok tt.
Proof.
  apply (proj1 (InsertStateEvent_from_now two_ticks 0 StateEvent_Tick 6
                  eq_refl ltac:(simpl; lia) ltac:(lia))).
  simpl. lia.
Defined.

End EventLogFacts.
